(** * wormhole-client-js: the wire codec and the client session machinery

    A shallow embedding of [src/proto/proto.ts] (wire codec) and of
    [src/client.ts] (framed reader, handshake, stream dispatcher, forwarder,
    access and metrics streams), with the properties of the specification
    stated over it, and then further properties of the code.

    Conventions of the embedding.
    - A JavaScript [number] holding an integer and a [bigint] are both [Z];
      the wrap-around of the [DataView] setters and of the 32-bit bitwise
      operators is written out where the source performs it.
    - A [Buffer] is a [list byte].
    - A JavaScript string is the list of its UTF-16 code units.
    - A thrown [Error] is the [Err] case of [result]; functions that throw
      return [result].
    - An asynchronous method is a function of the world it runs in: the
      client object, the stream it reads with the events that stream will
      see, and the effects performed so far; its promise is resolved,
      rejected or still pending when those events are used up.
    - The Node.js runtime (UTF-8 conversion of [Buffer], [stream.Readable],
      [pipe]) is modelled as documented, next to the code that uses it. *)

From Stdlib Require Import ZArith List Bool Lia String Ascii DecimalString.
From Stdlib Require Import Strings.Byte.
Import ListNotations.

#[local] Open Scope Z_scope.

(** ** JavaScript strings *)

(** A string is the sequence of its UTF-16 code units. *)
Definition jsstring : Type := list Z.

(** A string literal of the source (ASCII text). *)
Definition js (s : string) : jsstring :=
  map (fun a => Z.of_N (N_of_ascii a)) (list_ascii_of_string s).

(** [String(n)] for an integer [n]: its decimal digits. *)
Definition js_of_number (n : Z) : jsstring :=
  js (NilZero.string_of_int (Z.to_int n)).

(** [s.includes(t)] *)
Fixpoint starts_with (t s : jsstring) : bool :=
  match t, s with
  | [], _ => true
  | _ :: _, [] => false
  | x :: t', y :: s' => (x =? y) && starts_with t' s'
  end.

Fixpoint includes (s t : jsstring) : bool :=
  starts_with t s ||
  match s with
  | [] => false
  | _ :: s' => includes s' t
  end.

(** ** Results and errors *)

(** One constructor per [new Error(...)] of the source, one for an error
    raised by a stream, one for an error thrown by the runtime's [connect],
    and one for the reason of a bare [reject()], which is [undefined] and
    has no message; [message] is the [err.message] of each.  The
    specification calls [StreamEnded] UnexpectedEof, the four size errors and
    [InsufficientData] Truncated, [InvalidProtocol] UnknownProto,
    [InvalidStatusCode] UnknownStatus, [EmptyString] EmptyName and
    [InvalidLengthField] LengthMismatch. *)
Inductive Error : Type :=
| InvalidVersion            (* "invalid version" *)
| PayloadTooLarge           (* "payload too large" *)
| ReservedNonZero           (* "reserved field must be zero" *)
| InvalidHeaderSize         (* "invalid header size" *)
| InvalidRequestSize        (* "invalid request size" *)
| InvalidResponseSize       (* "invalid response size" *)
| InvalidMetricsSize        (* "invalid metrics size" *)
| InsufficientData          (* "insufficient data" *)
| InvalidProtocol           (* "invalid protocol" *)
| EmptyString               (* "string field cannot be empty" *)
| InvalidLengthField        (* "invalid length field" *)
| StringTooLong             (* "string exceeds maximum length" *)
| InvalidStatusCode         (* "invalid status code" *)
| StreamEnded               (* "Stream ended before reading enough data" *)
| MissingOption (field : string)         (* "<field> must be set" *)
| TransportError (msg : jsstring)       (* the error of an 'error' event *)
| ServerError (body : jsstring)         (* "server error: <body>" *)
| UnexpectedHeaderType (t : Z)          (* "unexpected header type: <t>" *)
| UnexpectedResponseStatus (s : Z)      (* "unexpected response status: <s>" *)
| DialFailed (msg : jsstring)           (* "failed to dial server: <msg>" *)
| ConnectFailed (msg : jsstring)        (* thrown by net.connect, tls.connect *)
| Aborted.                              (* reject(): the reason is undefined *)

Definition message (e : Error) : jsstring :=
  match e with
  | InvalidVersion => js "invalid version"
  | PayloadTooLarge => js "payload too large"
  | ReservedNonZero => js "reserved field must be zero"
  | InvalidHeaderSize => js "invalid header size"
  | InvalidRequestSize => js "invalid request size"
  | InvalidResponseSize => js "invalid response size"
  | InvalidMetricsSize => js "invalid metrics size"
  | InsufficientData => js "insufficient data"
  | InvalidProtocol => js "invalid protocol"
  | EmptyString => js "string field cannot be empty"
  | InvalidLengthField => js "invalid length field"
  | StringTooLong => js "string exceeds maximum length"
  | InvalidStatusCode => js "invalid status code"
  | StreamEnded => js "Stream ended before reading enough data"
  | MissingOption field => js field ++ js " must be set"
  | TransportError msg => msg
  | ServerError body => js "server error: " ++ body
  | UnexpectedHeaderType t => js "unexpected header type: " ++ js_of_number t
  | UnexpectedResponseStatus s =>
      js "unexpected response status: " ++ js_of_number s
  | DialFailed msg => js "failed to dial server: " ++ msg
  | ConnectFailed msg => msg
  | Aborted => []
  end.

Inductive result (A : Type) : Type :=
| Ok (a : A)
| Err (e : Error).

Arguments Ok {A} a.
Arguments Err {A} e.

Definition bind {A B : Type} (r : result A) (k : A -> result B) : result B :=
  match r with
  | Ok a => k a
  | Err e => Err e
  end.

Notation "x <- r ;; k" := (bind r (fun x => k))
  (at level 61, r at next level, right associativity).
Notation "r ;;; k" := (bind r (fun _ => k))
  (at level 61, right associativity).

(** ** Bytes and big-endian integers *)

Definition Buffer : Type := list Byte.byte.

Definition byte_val (b : Byte.byte) : Z := Z.of_N (Byte.to_N b).

(** [view.setUint8]: the value is taken modulo 256. *)
Definition to_byte (v : Z) : Byte.byte :=
  match Byte.of_N (Z.to_N (v mod 256)) with
  | Some b => b
  | None => Byte.x00
  end.

Definition buf_length (b : Buffer) : Z := Z.of_nat (List.length b).

(** [view.getUint8(off)].  Every read of the codec is preceded by a size
    guard, so the default is never reached there. *)
Definition getUint8 (b : Buffer) (off : nat) : Z :=
  byte_val (nth off b Byte.x00).

(** Big-endian value of a run of bytes. *)
Definition be_value (bs : Buffer) : Z :=
  fold_left (fun acc x => acc * 256 + byte_val x) bs 0.

(** The [w] big-endian bytes of [v]; [v] is taken modulo [256^w]
    ([setUint32], [setBigUint64]). *)
Fixpoint be_bytes (w : nat) (v : Z) : Buffer :=
  match w with
  | O => []
  | S w' => to_byte (v / 256 ^ Z.of_nat w') :: be_bytes w' v
  end.

(** [buf.subarray(start, end)]: clamped to the buffer. *)
Definition subarray (b : Buffer) (start stop : Z) : Buffer :=
  firstn (Z.to_nat (stop - start)) (skipn (Z.to_nat start) b).

Definition getUint32 (b : Buffer) (off : nat) : Z :=
  be_value (firstn 4 (skipn off b)).

Definition getBigUint64 (b : Buffer) (off : nat) : Z :=
  be_value (firstn 8 (skipn off b)).

(** ** UTF-8 ([Buffer.from], [Buffer.byteLength], [buf.toString])

    These three belong to the Node.js runtime, not to the repository; they
    are modelled as the runtime documents them.  Encoding replaces a
    surrogate that is not part of a pair by U+FFFD; decoding is the decoder
    of the Encoding Standard without byte-order-mark removal: each maximal
    ill-formed run becomes U+FFFD. *)

Definition is_high (u : Z) : bool := (0xD800 <=? u) && (u <=? 0xDBFF).
Definition is_low (u : Z) : bool := (0xDC00 <=? u) && (u <=? 0xDFFF).

Definition REPLACEMENT : Z := 0xFFFD.

Definition utf8_of_code_point (c : Z) : list Z :=
  if c <? 0x80 then [c]
  else if c <? 0x800 then [0xC0 + c / 64; 0x80 + c mod 64]
  else if c <? 0x10000 then
    [0xE0 + c / 4096; 0x80 + (c / 64) mod 64; 0x80 + c mod 64]
  else
    [0xF0 + c / 262144; 0x80 + (c / 4096) mod 64;
     0x80 + (c / 64) mod 64; 0x80 + c mod 64].

Definition pair_code_point (hi lo : Z) : Z :=
  0x10000 + (hi - 0xD800) * 0x400 + (lo - 0xDC00).

Definition units_of_code_point (c : Z) : jsstring :=
  if c <? 0x10000 then [c]
  else [0xD800 + (c - 0x10000) / 0x400; 0xDC00 + (c - 0x10000) mod 0x400].

Fixpoint utf8_units (s : jsstring) : list Z :=
  match s with
  | [] => []
  | u :: t =>
      if is_high u then
        match t with
        | l :: t' =>
            if is_low l
            then utf8_of_code_point (pair_code_point u l) ++ utf8_units t'
            else utf8_of_code_point REPLACEMENT ++ utf8_units t
        | [] => utf8_of_code_point REPLACEMENT
        end
      else if is_low u then utf8_of_code_point REPLACEMENT ++ utf8_units t
      else utf8_of_code_point u ++ utf8_units t
  end.

Definition utf8_encode (s : jsstring) : Buffer := map to_byte (utf8_units s).

Definition byteLength (s : jsstring) : Z := buf_length (utf8_encode s).

(** The decoder's state: the code point under construction, how many
    continuation bytes are still needed, and the bounds of the next one. *)
Record Utf8State : Type := {
  u_code_point : Z;
  u_needed : Z;
  u_lower : Z;
  u_upper : Z
}.

Definition utf8_idle : Utf8State :=
  {| u_code_point := 0; u_needed := 0; u_lower := 0x80; u_upper := 0xBF |}.

Definition utf8_lead (b : Z) : Utf8State * jsstring :=
  if b <=? 0x7F then (utf8_idle, [b])
  else if (0xC2 <=? b) && (b <=? 0xDF) then
    ({| u_code_point := b mod 32; u_needed := 1;
        u_lower := 0x80; u_upper := 0xBF |}, [])
  else if (0xE0 <=? b) && (b <=? 0xEF) then
    ({| u_code_point := b mod 16; u_needed := 2;
        u_lower := if b =? 0xE0 then 0xA0 else 0x80;
        u_upper := if b =? 0xED then 0x9F else 0xBF |}, [])
  else if (0xF0 <=? b) && (b <=? 0xF4) then
    ({| u_code_point := b mod 8; u_needed := 3;
        u_lower := if b =? 0xF0 then 0x90 else 0x80;
        u_upper := if b =? 0xF4 then 0x8F else 0xBF |}, [])
  else (utf8_idle, [REPLACEMENT]).

Definition utf8_step (st : Utf8State) (b : Z) : Utf8State * jsstring :=
  if u_needed st =? 0 then utf8_lead b
  else if (b <? u_lower st) || (u_upper st <? b) then
    let (st', out) := utf8_lead b in (st', REPLACEMENT :: out)
  else
    let c := u_code_point st * 64 + b mod 64 in
    if u_needed st =? 1 then (utf8_idle, units_of_code_point c)
    else ({| u_code_point := c; u_needed := u_needed st - 1;
             u_lower := 0x80; u_upper := 0xBF |}, []).

Fixpoint utf8_run (st : Utf8State) (bs : list Z) : jsstring :=
  match bs with
  | [] => if u_needed st =? 0 then [] else [REPLACEMENT]
  | b :: bs' => let (st', out) := utf8_step st b in out ++ utf8_run st' bs'
  end.

Definition utf8_decode (buf : Buffer) : jsstring :=
  utf8_run utf8_idle (map byte_val buf).

(** A string without unpaired surrogates, every unit a 16-bit value. *)
Fixpoint well_formed (s : jsstring) : bool :=
  match s with
  | [] => true
  | u :: t =>
      if is_high u then
        match t with
        | l :: t' => is_low l && well_formed t'
        | [] => false
        end
      else negb (is_low u) && (0 <=? u) && (u <? 0x10000) && well_formed t
  end.

(** ** 32-bit bitwise operators of JavaScript *)

Definition ToInt32 (x : Z) : Z := (x + 2 ^ 31) mod 2 ^ 32 - 2 ^ 31.

Definition js_and (a b : Z) : Z := Z.land (ToInt32 a) (ToInt32 b).
Definition js_or (a b : Z) : Z := Z.lor (ToInt32 a) (ToInt32 b).
Definition js_not (a : Z) : Z := Z.lnot (ToInt32 a).

(** ** The wire protocol ([src/proto/proto.ts]) *)

Definition VERSION : Z := 0x10.
Definition MAX_PAYLOAD_SIZE : Z := 1024 * 1024.
Definition MAX_STRING_LENGTH : Z := 4096.
Definition HEADER_SIZE : Z := 12.
Definition REQUEST_SIZE : Z := 5.
Definition RESPONSE_SIZE : Z := 13.
Definition METRICS_SIZE : Z := 36.

Module MessageType.
Definition Request : Z := 0x01.
Definition Response : Z := 0x02.
Definition Access : Z := 0x03.
Definition Ack : Z := 0x04.
Definition Metrics : Z := 0x05.
Definition End : Z := 0x06.
Definition Error : Z := 0xff.
End MessageType.

Definition FLAG_METRICS : Z := 0x01.

Module ProtoType.
Definition HTTP : Z := 0x01.
Definition TCP : Z := 0x02.
End ProtoType.

Module StatusCode.
Definition OK : Z := 0x01.
Definition NameTaken : Z := 0x03.
Definition UnsupportedProto : Z := 0x04.
End StatusCode.

Module Header.
Record t : Type := make {
  version : Z;
  type : Z;
  flags : Z;
  length : Z;
  reserved : Z
}.

(** [new Header(type, length)] *)
Definition new (type length : Z) : t :=
  {| version := VERSION; type := type; flags := 0;
     length := length; reserved := 0 |}.

Definition with_flags (h : t) (f : Z) : t :=
  {| version := version h; type := type h; flags := f;
     length := length h; reserved := reserved h |}.

Definition hasFlag (h : t) (flag : Z) : bool :=
  negb (js_and (flags h) flag =? 0).

Definition setFlag (h : t) (flag : Z) : t :=
  with_flags h (js_or (flags h) flag).

Definition clearFlag (h : t) (flag : Z) : t :=
  with_flags h (js_and (flags h) (js_not flag)).
End Header.

Module Request.
Record t : Type := make {
  proto : Z;
  nameLength : Z;
  name : jsstring
}.

Definition new (proto : Z) (name : jsstring) : t :=
  {| proto := proto; nameLength := byteLength name; name := name |}.
End Request.

Module Response.
Record t : Type := make {
  status : Z;
  ttlHours : Z;
  domainLength : Z;
  domain : jsstring
}.

Definition new (status ttlHours : Z) (domain : jsstring) : t :=
  {| status := status; ttlHours := ttlHours;
     domainLength := byteLength domain; domain := domain |}.
End Response.

Module Metrics.
Record t : Type := make {
  ingress : Z;
  egress : Z;
  uptime : Z;
  connectionCount : Z;
  activeConnections : Z
}.
End Metrics.

Definition validateHeader (header : Header.t) : result unit :=
  if negb (Header.version header =? VERSION) then Err InvalidVersion
  else if Header.length header >? MAX_PAYLOAD_SIZE then Err PayloadTooLarge
  else if negb (Header.reserved header =? 0) then Err ReservedNonZero
  else Ok tt.

Definition validateRequest (req : Request.t) : result unit :=
  if negb (Request.proto req =? ProtoType.HTTP)
     && negb (Request.proto req =? ProtoType.TCP)
  then Err InvalidProtocol
  else if (Z.of_nat (List.length (Request.name req)) =? 0)
          || (Request.nameLength req =? 0)
  then Err EmptyString
  else
    let actualLength := byteLength (Request.name req) in
    if negb (Request.nameLength req =? actualLength) then Err InvalidLengthField
    else if Request.nameLength req >? MAX_STRING_LENGTH then Err StringTooLong
    else Ok tt.

Definition validateResponse (resp : Response.t) : result unit :=
  if negb (Response.status resp =? StatusCode.OK)
     && negb (Response.status resp =? StatusCode.NameTaken)
     && negb (Response.status resp =? StatusCode.UnsupportedProto)
  then Err InvalidStatusCode
  else if Response.status resp =? StatusCode.OK then
    if (Z.of_nat (List.length (Response.domain resp)) =? 0)
       || (Response.domainLength resp =? 0)
    then Err EmptyString
    else
      let actualLength := byteLength (Response.domain resp) in
      if negb (Response.domainLength resp =? actualLength)
      then Err InvalidLengthField
      else if Response.domainLength resp >? MAX_STRING_LENGTH
      then Err StringTooLong
      else Ok tt
  else Ok tt.

Definition serializeHeader (header : Header.t) : result Buffer :=
  validateHeader header ;;;
  Ok ([to_byte (Header.version header);
       to_byte (Header.type header);
       to_byte (Header.flags header)]
      ++ be_bytes 8 (Header.length header)
      ++ [to_byte (Header.reserved header)]).

Definition deserializeHeader (buf : Buffer) : result Header.t :=
  if buf_length buf <? HEADER_SIZE then Err InvalidHeaderSize
  else
    let header :=
      {| Header.version := getUint8 buf 0;
         Header.type := getUint8 buf 1;
         Header.flags := getUint8 buf 2;
         Header.length := getBigUint64 buf 3;
         Header.reserved := getUint8 buf 11 |} in
    validateHeader header ;;;
    Ok header.

Definition serializeRequest (req : Request.t) : result Buffer :=
  validateRequest req ;;;
  let nameBytes := utf8_encode (Request.name req) in
  Ok ([to_byte (Request.proto req)]
      ++ be_bytes 4 (Request.nameLength req)
      ++ nameBytes).

Definition deserializeRequest (buf : Buffer) : result Request.t :=
  if buf_length buf <? REQUEST_SIZE then Err InvalidRequestSize
  else
    let proto := getUint8 buf 0 in
    let nameLength := getUint32 buf 1 in
    let expectedSize := REQUEST_SIZE + nameLength in
    if buf_length buf <? expectedSize then Err InsufficientData
    else
      let nameBytes := subarray buf REQUEST_SIZE (REQUEST_SIZE + nameLength) in
      let name := utf8_decode nameBytes in
      let req := Request.new proto name in
      validateRequest req ;;;
      Ok req.

Definition serializeResponse (resp : Response.t) : result Buffer :=
  validateResponse resp ;;;
  let domainBytes := utf8_encode (Response.domain resp) in
  Ok ([to_byte (Response.status resp)]
      ++ be_bytes 8 (Response.ttlHours resp)
      ++ be_bytes 4 (Response.domainLength resp)
      ++ domainBytes).

Definition deserializeResponse (buf : Buffer) : result Response.t :=
  if buf_length buf <? RESPONSE_SIZE then Err InvalidResponseSize
  else
    let status := getUint8 buf 0 in
    let ttlHours := getBigUint64 buf 1 in
    let domainLength := getUint32 buf 9 in
    let expectedSize := RESPONSE_SIZE + domainLength in
    if buf_length buf <? expectedSize then Err InsufficientData
    else
      let domainBytes :=
        subarray buf RESPONSE_SIZE (RESPONSE_SIZE + domainLength) in
      let domain := utf8_decode domainBytes in
      let resp := Response.new status ttlHours domain in
      validateResponse resp ;;;
      Ok resp.

Definition serializeMetrics (metrics : Metrics.t) : Buffer :=
  be_bytes 8 (Metrics.ingress metrics)
  ++ be_bytes 8 (Metrics.egress metrics)
  ++ be_bytes 8 (Metrics.uptime metrics)
  ++ be_bytes 8 (Metrics.connectionCount metrics)
  ++ be_bytes 4 (Metrics.activeConnections metrics).

Definition deserializeMetrics (buf : Buffer) : result Metrics.t :=
  if buf_length buf <? METRICS_SIZE then Err InvalidMetricsSize
  else
    Ok {| Metrics.ingress := getBigUint64 buf 0;
          Metrics.egress := getBigUint64 buf 8;
          Metrics.uptime := getBigUint64 buf 16;
          Metrics.connectionCount := getBigUint64 buf 24;
          Metrics.activeConnections := getUint32 buf 32 |}.

(** ** Readable streams

    The part of Node.js [stream.Readable] (paused mode) that [readN] relies
    on, as the runtime documents it: [read(size)] returns [size] bytes when
    that many are buffered; when fewer are buffered it returns [null], unless
    the stream has ended, in which case it returns what is left; [read(0)]
    always returns [null]; ['end'] is emitted once, when an ended stream has
    been drained. *)

Record Readable : Type := {
  rd_buffer : Buffer;        (* bytes received and not yet consumed *)
  rd_ended : bool;           (* the peer has finished writing *)
  rd_endEmitted : bool       (* 'end' has been emitted *)
}.

Definition fresh_stream : Readable :=
  {| rd_buffer := []; rd_ended := false; rd_endEmitted := false |}.

Definition is_nil {A : Type} (l : list A) : bool :=
  match l with
  | [] => true
  | _ :: _ => false
  end.

(** [stream.read(size)] *)
Definition stream_read (size : Z) (s : Readable)
  : option Buffer * Readable :=
  if size <=? 0 then (None, s)
  else if size <=? buf_length (rd_buffer s) then
    (Some (firstn (Z.to_nat size) (rd_buffer s)),
     {| rd_buffer := skipn (Z.to_nat size) (rd_buffer s);
        rd_ended := rd_ended s; rd_endEmitted := rd_endEmitted s |})
  else if rd_ended s && negb (is_nil (rd_buffer s)) then
    (Some (rd_buffer s),
     {| rd_buffer := [];
        rd_ended := rd_ended s; rd_endEmitted := rd_endEmitted s |})
  else (None, s).

(** What the peer and the transport do to a stream. *)
Inductive StreamEvent : Type :=
| Push (chunk : Buffer)      (* a chunk arrives; 'readable' *)
| Eof                        (* the peer ends the stream; 'readable', 'end' *)
| Fault (msg : jsstring).    (* 'error' *)

Definition deliver (ev : StreamEvent) (s : Readable) : Readable :=
  match ev with
  | Push chunk =>
      {| rd_buffer := rd_buffer s ++ chunk;
         rd_ended := rd_ended s; rd_endEmitted := rd_endEmitted s |}
  | Eof =>
      {| rd_buffer := rd_buffer s;
         rd_ended := true; rd_endEmitted := rd_endEmitted s |}
  | Fault _ => s
  end.

Definition end_due (s : Readable) : bool :=
  rd_ended s && is_nil (rd_buffer s) && negb (rd_endEmitted s).

Definition emit_end (s : Readable) : Readable :=
  {| rd_buffer := rd_buffer s; rd_ended := rd_ended s;
     rd_endEmitted := true |}.

(** The state of a promise. *)
Inductive Settled (A : Type) : Type :=
| Resolved (a : A)
| Rejected (e : Error)
| Pending.

Arguments Resolved {A} a.
Arguments Rejected {A} e.
Arguments Pending {A}.

(** ** The framed reader ([Client.readN]) *)

(** The [while] loop of [onReadable]: the result tells whether the promise
    was resolved, and gives the closure's [buf] and the stream afterwards.
    Every chunk [read] returns is non-empty, so the loop body runs at most
    once per buffered byte; [fuel] bounds it and is never used up
    ([onReadable_loop_fuel]). *)
Fixpoint onReadable_loop (fuel : nat) (n : Z) (buf : Buffer) (s : Readable)
  : bool * Buffer * Readable :=
  match fuel with
  | O => (false, buf, s)
  | S fuel' =>
      match stream_read (n - buf_length buf) s with
      | (None, s') => (false, buf, s')
      | (Some chunk, s') =>
          let buf' := buf ++ chunk in
          if buf_length buf' =? n then (true, buf', s')
          else onReadable_loop fuel' n buf' s'
      end
  end.

Definition onReadable (n : Z) (buf : Buffer) (s : Readable)
  : bool * Buffer * Readable :=
  onReadable_loop (S (List.length (rd_buffer s))) n buf s.

(** One run of the ['readable'] listener, followed by the ['end'] listener
    when the stream emits ['end']. *)
Definition on_readable_then_end (n : Z) (buf : Buffer) (s : Readable)
  : Settled Buffer * Buffer * Readable :=
  match onReadable n buf s with
  | (true, buf', s') => (Resolved buf', buf', s')
  | (false, buf', s') =>
      if end_due s' then (Rejected StreamEnded, buf', emit_end s')
      else (Pending, buf', s')
  end.

(** The listeners at work on the events that follow. *)
Fixpoint readN_listen (n : Z) (buf : Buffer) (s : Readable)
  (events : list StreamEvent) : Settled Buffer * Readable * list StreamEvent :=
  match events with
  | [] => (Pending, s, [])
  | Fault msg :: rest => (Rejected (TransportError msg), s, rest)
  | ev :: rest =>
      match on_readable_then_end n buf (deliver ev s) with
      | (Pending, buf', s') => readN_listen n buf' s' rest
      | (outcome, _, s') => (outcome, s', rest)
      end
  end.

(** [readN(stream, n)] on a stream in state [s] that will see [events]:
    the promise's fate, the stream afterwards and the events not yet seen. *)
Definition readN (n : Z) (s : Readable) (events : list StreamEvent)
  : Settled Buffer * Readable * list StreamEvent :=
  match on_readable_then_end n [] s with
  | (Pending, buf, s') => readN_listen n buf s' events
  | (outcome, _, s') => (outcome, s', events)
  end.

(** ** The client ([src/client.ts]) *)

Module Client.
Record t : Type := make {
  addr : jsstring;
  targetAddr : jsstring;
  withTLS : bool;
  proto : Z;
  name : jsstring;
  domain : jsstring;
  metrics : bool;
  session : bool          (* [this.session !== null] *)
}.

Definition with_domain (c : t) (d : jsstring) : t :=
  {| addr := addr c; targetAddr := targetAddr c; withTLS := withTLS c;
     proto := proto c; name := name c; domain := d; metrics := metrics c;
     session := session c |}.

Definition with_session (c : t) : t :=
  {| addr := addr c; targetAddr := targetAddr c; withTLS := withTLS c;
     proto := proto c; name := name c; domain := domain c;
     metrics := metrics c; session := true |}.
End Client.

Record ClientOptions : Type := {
  o_addr : jsstring;
  o_targetAddr : jsstring;
  o_withTLS : option bool;
  o_proto : Z;
  o_name : jsstring;
  o_metrics : option bool
}.

Definition or_false (o : option bool) : bool :=
  match o with
  | Some b => b
  | None => false
  end.

(** [new Client(options)] *)
Definition new_Client (options : ClientOptions) : result Client.t :=
  if is_nil (o_addr options) then Err (MissingOption "addr")
  else if is_nil (o_targetAddr options) then Err (MissingOption "targetAddr")
  else if is_nil (o_name options) then Err (MissingOption "name")
  else if o_proto options =? 0 then Err (MissingOption "proto")
  else Ok {| Client.addr := o_addr options;
             Client.targetAddr := o_targetAddr options;
             Client.withTLS := or_false (o_withTLS options);
             Client.proto := o_proto options;
             Client.name := o_name options;
             Client.domain := [];
             Client.metrics := or_false (o_metrics options);
             Client.session := false |}.

Definition getDomain (c : Client.t) : jsstring := Client.domain c.

Definition protoString (proto : Z) : jsstring :=
  if proto =? ProtoType.HTTP then js "https://"
  else if proto =? ProtoType.TCP then js "tcp:"
  else [].

(** What a method does to the world around it, in the order it does it. *)
Inductive Effect : Type :=
| ConsoleLog (line : jsstring)
| ConsoleDebug (line : jsstring)
| ConsoleError (line : jsstring) (e : Error)
| SessionOpen                          (* new Session(...), piped to conn *)
| StreamWrite (data : Buffer)          (* stream.write(data) *)
| AssignDomain (d : jsstring)          (* this.domain = d *)
| RenderMetrics                        (* renderMetrics(abort.signal, this) *)
| Abort                                (* abort.abort() *)
| ConnDestroy                          (* conn.destroy() *)
| StreamClose                          (* stream.close() *)
| SessionClose                         (* this.session?.close() *)
| HandleAccess                         (* this.handleAccess(stream) *)
| HandleMetrics (h : Header.t).        (* this.handleMetrics(header, stream) *)

Definition prettyPrint (level : jsstring) (args : list jsstring)
  : list Effect :=
  map (fun arg => ConsoleLog (js "wormhole [" ++ level ++ js "] " ++ arg))
    args.

(** How the multiplexed session ends after the handshake. *)
Inductive SessionFate : Type :=
| SessionStays                     (* neither 'close' nor 'error' so far *)
| SessionCloses                    (* 'close' *)
| SessionFails (msg : jsstring).   (* 'error' *)

(** The world of one asynchronous method: the client object, the stream the
    method reads, what the peer will deliver on it, how the session will
    end, the rendering of the expiry date (clock and locale), and the
    effects performed so far. *)
Record World : Type := {
  w_client : Client.t;
  w_stream : Readable;
  w_script : list StreamEvent;
  w_session : SessionFate;
  w_expiry : Z -> jsstring;
  w_trace : list Effect
}.

Definition Async (A : Type) : Type := World -> Settled A * World.

Definition ret {A : Type} (a : A) : Async A := fun w => (Resolved a, w).

Definition throw {A : Type} (e : Error) : Async A := fun w => (Rejected e, w).

Definition await {A B : Type} (m : Async A) (k : A -> Async B) : Async B :=
  fun w =>
    match m w with
    | (Resolved a, w') => k a w'
    | (Rejected e, w') => (Rejected e, w')
    | (Pending, w') => (Pending, w')
    end.

Definition try_catch {A : Type} (m : Async A) (handler : Error -> Async A)
  : Async A :=
  fun w =>
    match m w with
    | (Rejected e, w') => handler e w'
    | other => other
    end.

Definition lift {A : Type} (r : result A) : Async A :=
  match r with
  | Ok a => ret a
  | Err e => throw e
  end.

Definition this : Async Client.t := fun w => (Resolved (w_client w), w).

Definition perform (effects : list Effect) : Async unit :=
  fun w =>
    (Resolved tt,
     {| w_client := w_client w; w_stream := w_stream w;
        w_script := w_script w; w_session := w_session w;
        w_expiry := w_expiry w; w_trace := w_trace w ++ effects |}).

(** [this.domain = d] *)
Definition assign_domain (d : jsstring) : Async unit :=
  fun w =>
    (Resolved tt,
     {| w_client := Client.with_domain (w_client w) d; w_stream := w_stream w;
        w_script := w_script w; w_session := w_session w;
        w_expiry := w_expiry w; w_trace := w_trace w ++ [AssignDomain d] |}).

(** [this.session = new Session(true, yamuxConfig, ...)] and
    [this.session.pipe(conn).pipe(this.session)] *)
Definition open_session : Async unit :=
  fun w =>
    (Resolved tt,
     {| w_client := Client.with_session (w_client w); w_stream := w_stream w;
        w_script := w_script w; w_session := w_session w;
        w_expiry := w_expiry w; w_trace := w_trace w ++ [SessionOpen] |}).

(** [await this.readN(stream, n)] *)
Definition await_readN (n : Z) : Async Buffer :=
  fun w =>
    match readN n (w_stream w) (w_script w) with
    | (outcome, s', rest) =>
        (outcome,
         {| w_client := w_client w; w_stream := s'; w_script := rest;
            w_session := w_session w; w_expiry := w_expiry w;
            w_trace := w_trace w |})
    end.

Definition expiry_text (ttl : Z) : Async jsstring :=
  fun w => (Resolved (w_expiry w ttl), w).

(** The promise on the session's ['close'] and ['error'] events. *)
Definition session_end : Async unit :=
  fun w =>
    match w_session w with
    | SessionStays => (Pending, w)
    | SessionCloses => perform [Abort] w
    | SessionFails msg => (Rejected (TransportError msg), w)
    end.

Notation "x <~ m ;; k" := (await m (fun x => k))
  (at level 61, m at next level, right associativity).
Notation "m ;;~ k" := (await m (fun _ => k))
  (at level 61, right associativity).

Definition sendRequest : Async Header.t :=
  c <~ this ;;
  let request := Request.new (Client.proto c) (Client.name c) in
  serializedRequest <~ lift (serializeRequest request) ;;
  let header :=
    Header.new MessageType.Request (buf_length serializedRequest) in
  let header :=
    if Client.metrics c then Header.setFlag header FLAG_METRICS else header in
  serializedHeader <~ lift (serializeHeader header) ;;
  perform [StreamWrite serializedHeader; StreamWrite serializedRequest] ;;~
  headerBuf <~ await_readN HEADER_SIZE ;;
  lift (deserializeHeader headerBuf).

(** The [switch] of [handleConnection] on the status of the response, and
    what follows it. *)
Definition on_status (response : Response.t) : Async unit :=
  c <~ this ;;
  if Response.status response =? StatusCode.NameTaken then
    perform (prettyPrint (js "err")
      [js "subdomain '" ++ Client.name c ++ js "' is already in use"])
  else if Response.status response =? StatusCode.UnsupportedProto then
    perform (prettyPrint (js "err")
      [js "protocol '" ++ js_of_number (Client.proto c)
         ++ js "' is not supported"])
  else if Response.status response =? StatusCode.OK then
    assign_domain (Response.domain response) ;;~
    expiresAt <~ expiry_text (Response.ttlHours response) ;;
    perform (prettyPrint (js "inf")
      [js "tunnel created!";
       protoString (Client.proto c) ++ Response.domain response;
       js "tunnel expires at " ++ expiresAt]) ;;~
    (if Client.metrics c then perform [RenderMetrics] else ret tt) ;;~
    session_end
  else
    perform (prettyPrint (js "err")
      [js "unexpected response status: "
         ++ js_of_number (Response.status response)]) ;;~
    throw (UnexpectedResponseStatus (Response.status response)).

(** [handleConnection]; the world's stream is the control stream that
    [this.session.open()] returns. *)
Definition handleConnection : Async unit :=
  open_session ;;~
  responseHeader <~ sendRequest ;;
  if Header.type responseHeader =? MessageType.Error then
    errorBuf <~ await_readN (Header.length responseHeader) ;;
    throw (ServerError (utf8_decode errorBuf))
  else if negb (Header.type responseHeader =? MessageType.Response) then
    throw (UnexpectedHeaderType (Header.type responseHeader))
  else
    responseBuf <~ await_readN (Header.length responseHeader) ;;
    response <~ lift (deserializeResponse responseBuf) ;;
    on_status response.

(** [abort.abort()] is among [effects]. *)
Definition aborts (effects : list Effect) : bool :=
  existsb (fun e => match e with
                    | Abort => true
                    | _ => false
                    end) effects.

(** [run]: [dial] is [None] when [tls.connect] returns a socket and the
    socket connects, and [Some msg] when the socket reports an ['error'] of
    message [msg] instead.
    The listener [run] puts on the abort signal runs inside [abort.abort()]:
    when [handleConnection] aborts, on the ['close'] of the session, the
    listener destroys the connection and rejects the promise of [run] with
    no reason, before [handleConnection] returns and [resolve()] is called,
    which then has no effect.  An abort from outside, and an error of the
    socket once connected, are left out: they settle the promise only if
    they come first; so is an address that [tls.connect] refuses at once,
    after which nothing of [handleConnection] runs. *)
Definition run (dial : option jsstring) : Async unit :=
  match dial with
  | Some msg => throw (DialFailed msg)
  | None =>
      fun w =>
        match handleConnection w with
        | (outcome, w') =>
            if aborts (skipn (List.length (w_trace w)) (w_trace w'))
            then (Rejected Aborted, snd (perform [ConnDestroy] w'))
            else (outcome, w')
        end
  end.

(** [onNewStream], for one inbound stream; [handleAccess] and
    [handleMetrics] are started and not awaited. *)
Definition onNewStream : Async unit :=
  try_catch
    (headerBuf <~ await_readN HEADER_SIZE ;;
     header <~ lift (deserializeHeader headerBuf) ;;
     if Header.type header =? MessageType.Access then
       perform [HandleAccess]
     else if Header.type header =? MessageType.Metrics then
       perform [HandleMetrics header]
     else if Header.type header =? MessageType.End then
       c <~ this ;;
       perform ([StreamClose]
                ++ prettyPrint (js "inf") [js "tunnel timed out"]
                ++ (if Client.session c then [SessionClose] else []))
     else
       perform [ConsoleDebug (js "unexpected header type: "
                              ++ js_of_number (Header.type header));
                StreamClose])
    (fun err =>
       (if includes (message err) (js "EOF")
           || includes (message err) (js "closed")
        then perform [ConsoleDebug (js "stream connection closed")]
        else perform [ConsoleError (js "failed to read stream header:") err])
       ;;~ perform [StreamClose]).

(** ** The forwarder ([Client.forwardStream])

    The promise executor calls [net.connect] or [tls.connect] on the target
    address and then registers seven [once] listeners; what happens next is
    driven by the events of the inbound stream and of the local
    connection. *)

Inductive FwdEvent : Type :=
| LocalConnect                 (* localConn 'connect' *)
| StreamClosed                 (* stream 'close' *)
| StreamEnd                    (* stream 'end' *)
| StreamErrored (e : Error)    (* stream 'error' *)
| LocalClosed                  (* localConn 'close' *)
| LocalEnd                     (* localConn 'end' *)
| LocalErrored (e : Error).    (* localConn 'error' *)

(** The listener an event reaches. *)
Inductive Listener : Type :=
| OnConnect | OnStreamClose | OnStreamEnd | OnStreamError
| OnLocalClose | OnLocalEnd | OnLocalError.

Definition listener_of (ev : FwdEvent) : Listener :=
  match ev with
  | LocalConnect => OnConnect
  | StreamClosed => OnStreamClose
  | StreamEnd => OnStreamEnd
  | StreamErrored _ => OnStreamError
  | LocalClosed => OnLocalClose
  | LocalEnd => OnLocalEnd
  | LocalErrored _ => OnLocalError
  end.

Definition listener_eqb (a b : Listener) : bool :=
  match a, b with
  | OnConnect, OnConnect | OnStreamClose, OnStreamClose
  | OnStreamEnd, OnStreamEnd | OnStreamError, OnStreamError
  | OnLocalClose, OnLocalClose | OnLocalEnd, OnLocalEnd
  | OnLocalError, OnLocalError => true
  | _, _ => false
  end.

(** The calls the forwarder and its pipes make on the two halves. *)
Inductive Call : Type :=
| CallStreamClose      (* stream.close() *)
| CallStreamEnd        (* stream.end() *)
| CallLocalEnd.        (* localConn.end(), by stream.pipe(localConn) *)

Record Forward : Type := {
  isCleanedUp : bool;
  fw_promise : Settled unit;
  fw_piped : bool;                  (* the two pipes are in place *)
  fw_used : list Listener;          (* [once] listeners already consumed *)
  fw_calls : list Call              (* calls made so far, oldest first *)
}.

Definition forward_start : Forward :=
  {| isCleanedUp := false; fw_promise := Pending; fw_piped := false;
     fw_used := []; fw_calls := [] |}.

(** The closure [cleanup]; [has_close] is
    [typeof stream.close === "function"]. *)
Definition cleanup (has_close : bool) (err : option Error) (st : Forward)
  : Forward :=
  if isCleanedUp st then st
  else
    {| isCleanedUp := true;
       fw_promise :=
         match err with
         | Some e => Rejected e
         | None => Resolved tt
         end;
       fw_piped := fw_piped st;
       fw_used := fw_used st;
       fw_calls :=
         fw_calls st ++ [if has_close then CallStreamClose else CallStreamEnd]
    |}.

Definition call (c : Call) (st : Forward) : Forward :=
  {| isCleanedUp := isCleanedUp st; fw_promise := fw_promise st;
     fw_piped := fw_piped st; fw_used := fw_used st;
     fw_calls := fw_calls st ++ [c] |}.

Definition use (l : Listener) (st : Forward) : Forward :=
  {| isCleanedUp := isCleanedUp st; fw_promise := fw_promise st;
     fw_piped := fw_piped st; fw_used := l :: fw_used st;
     fw_calls := fw_calls st |}.

Definition connect_pipes (st : Forward) : Forward :=
  {| isCleanedUp := isCleanedUp st; fw_promise := fw_promise st;
     fw_piped := true; fw_used := fw_used st; fw_calls := fw_calls st |}.

(** One event.  A pipe ends its destination when its source emits ['end'],
    and at once when its source has emitted ['end'] before the pipe is set
    up; the pipes' listeners come after [cleanup], which was registered
    first. *)
Definition forward_step (has_close : bool) (st : Forward) (ev : FwdEvent)
  : Forward :=
  if existsb (listener_eqb (listener_of ev)) (fw_used st) then st
  else
    let st := use (listener_of ev) st in
    match ev with
    | LocalConnect =>
        let st := connect_pipes st in
        let st :=
          if existsb (listener_eqb OnStreamEnd) (fw_used st)
          then call CallLocalEnd st else st in
        if existsb (listener_eqb OnLocalEnd) (fw_used st)
        then call CallStreamEnd st else st
    | StreamClosed => cleanup has_close None st
    | StreamEnd =>
        let st := cleanup has_close None st in
        if fw_piped st then call CallLocalEnd st else st
    | StreamErrored e => cleanup has_close (Some e) st
    | LocalClosed => cleanup has_close None st
    | LocalEnd =>
        let st := cleanup has_close None st in
        if fw_piped st then call CallStreamEnd st else st
    | LocalErrored e => cleanup has_close (Some e) st
    end.

(** [s.split(":")] *)
Fixpoint split_at_colons (s : jsstring) : list jsstring :=
  match s with
  | [] => [[]]
  | u :: t =>
      if u =? 58 then [] :: split_at_colons t
      else
        match split_at_colons t with
        | piece :: pieces => (u :: piece) :: pieces
        | [] => [[u]]
        end
  end.

(** [const [host, port] = this.targetAddr.split(":")]; [port] is
    [undefined] when the address has no colon. *)
Definition target_host (c : Client.t) : jsstring :=
  nth 0 (split_at_colons (Client.targetAddr c)) [].

Definition target_port (c : Client.t) : option jsstring :=
  nth_error (split_at_colons (Client.targetAddr c)) 1.

(** The runtime's [tls.connect] (first argument [true]) and [net.connect],
    called with the host and with [Number(port)], as far as the caller sees
    them at once: [Some msg] when the call throws an error of that message,
    as Node.js does for a port that is not an integer between 0 and 65535;
    [None] when it returns a socket. *)
Definition Connect : Type := bool -> jsstring -> option jsstring
                             -> option jsstring.

(** [forwardStream]: the executor of its promise calls [connect] first; when
    that throws, the promise is rejected and no listener is registered. *)
Definition forwardStream (connect : Connect) (c : Client.t)
  (has_close : bool) (events : list FwdEvent) : Forward :=
  match connect (Client.withTLS c) (target_host c) (target_port c) with
  | Some msg =>
      {| isCleanedUp := false; fw_promise := Rejected (ConnectFailed msg);
         fw_piped := false; fw_used := []; fw_calls := [] |}
  | None => fold_left (forward_step has_close) events forward_start
  end.

(** The call of [connect] for the client [c] returns a socket. *)
Definition connects (connect : Connect) (c : Client.t) : Prop :=
  connect (Client.withTLS c) (target_host c) (target_port c) = None.

(** A runtime whose [connect] takes every port. *)
Definition connect_any : Connect := fun _ _ _ => None.

(** The inbound stream has been closed or ended by the forwarder. *)
Definition stream_half_closed (st : Forward) : bool :=
  existsb (fun c => match c with
                    | CallStreamClose | CallStreamEnd => true
                    | CallLocalEnd => false
                    end) (fw_calls st).

(** The local connection is closing: it reported ['close'], ['end'] or
    ['error'] itself, or a call has ended it. *)
Definition local_half_closed (st : Forward) : bool :=
  existsb (fun l => match l with
                    | OnLocalClose | OnLocalEnd | OnLocalError => true
                    | _ => false
                    end) (fw_used st)
  || existsb (fun c => match c with
                       | CallLocalEnd => true
                       | _ => false
                       end) (fw_calls st).

(** The number of times the forwarder has called [stream.close()]. *)
Definition close_calls (st : Forward) : nat :=
  List.length
    (filter (fun c => match c with
                      | CallStreamClose => true
                      | _ => false
                      end) (fw_calls st)).

(** What the first terminating event makes of the promise. *)
Definition verdict (ev : FwdEvent) : Settled unit :=
  match ev with
  | StreamErrored e | LocalErrored e => Rejected e
  | _ => Resolved tt
  end.

Definition terminating (ev : FwdEvent) : bool :=
  match ev with
  | LocalConnect => false
  | _ => true
  end.

(** ** Vocabulary of the properties *)

(** The twelve bytes that carry the fields of [h], written as
    [serializeHeader] writes them but without validating first. *)
Definition header_layout (h : Header.t) : Buffer :=
  [to_byte (Header.version h); to_byte (Header.type h);
   to_byte (Header.flags h)]
  ++ be_bytes 8 (Header.length h)
  ++ [to_byte (Header.reserved h)].

(** Every field fits the width it has on the wire. *)
Definition wire_header (h : Header.t) : Prop :=
  0 <= Header.version h < 256 /\ 0 <= Header.type h < 256 /\
  0 <= Header.flags h < 256 /\ 0 <= Header.length h < 2 ^ 64 /\
  0 <= Header.reserved h < 256.

Definition wire_metrics (m : Metrics.t) : Prop :=
  0 <= Metrics.ingress m < 2 ^ 64 /\ 0 <= Metrics.egress m < 2 ^ 64 /\
  0 <= Metrics.uptime m < 2 ^ 64 /\
  0 <= Metrics.connectionCount m < 2 ^ 64 /\
  0 <= Metrics.activeConnections m < 2 ^ 32.

(** The fields of a response fit the wire, its domain is well-formed text
    and its length field is the byte length of the domain. *)
Definition wire_response (p : Response.t) : Prop :=
  0 <= Response.ttlHours p < 2 ^ 64
  /\ well_formed (Response.domain p) = true
  /\ Response.domainLength p = byteLength (Response.domain p)
  /\ Response.domainLength p < 2 ^ 32.

(** A Unicode scalar value: a code point that is not a surrogate. *)
Definition scalar (c : Z) : Prop :=
  (0 <= c < 0xD800) \/ (0xE000 <= c < 0x110000).

(** A value of the 32-bit signed range, where the bitwise operators of
    JavaScript work. *)
Definition int32 (x : Z) : Prop := - 2 ^ 31 <= x < 2 ^ 31.

(** A stream that has not ended. *)
Definition open_stream (s : Readable) : Prop :=
  rd_ended s = false /\ rd_endEmitted s = false.

(** With what it has buffered and the chunks that arrive next, the stream
    holds exactly [bytes] for its reader. *)
Definition delivers (s : Readable) (events : list StreamEvent)
  (bytes : Buffer) : Prop :=
  open_stream s
  /\ exists chunks rest,
       events = map Push chunks ++ rest
       /\ rd_buffer s ++ List.concat chunks = bytes.

Definition outcome_of {A B C : Type} (r : Settled A * B * C) : Settled A :=
  fst (fst r).

(** The stream once its first [n] buffered bytes have been read. *)
Definition consume (n : Z) (s : Readable) : Readable :=
  {| rd_buffer := skipn (Z.to_nat n) (rd_buffer s);
     rd_ended := rd_ended s; rd_endEmitted := rd_endEmitted s |}.

(** An ended stream, drained, whose ['end'] has been emitted. *)
Definition finished_stream : Readable :=
  {| rd_buffer := []; rd_ended := true; rd_endEmitted := true |}.

(** The errors the specification files under ProtocolError: a malformed
    frame (every error of the codec) or an unexpected type or status. *)
Definition protocol_error (e : Error) : bool :=
  match e with
  | InvalidVersion | PayloadTooLarge | ReservedNonZero
  | InvalidHeaderSize | InvalidRequestSize | InvalidResponseSize
  | InvalidMetricsSize | InsufficientData | InvalidProtocol | EmptyString
  | InvalidLengthField | StringTooLong | InvalidStatusCode
  | UnexpectedHeaderType _ | UnexpectedResponseStatus _ => true
  | StreamEnded | MissingOption _ | TransportError _ | ServerError _
  | DialFailed _ | ConnectFailed _ | Aborted => false
  end.

(** The domains assigned to [this.domain] among some effects, in order. *)
Fixpoint assignments (effects : list Effect) : list jsstring :=
  match effects with
  | [] => []
  | AssignDomain d :: rest => d :: assignments rest
  | _ :: rest => assignments rest
  end.

(** The client's own registration request is valid, and the server answers
    on the control stream with a header of type Response followed by
    [payload], whatever comes after. *)
Definition handshake_reply (w : World) (payload : Buffer) : Prop :=
  validateRequest
    (Request.new (Client.proto (w_client w)) (Client.name (w_client w)))
  = Ok tt
  /\ 0 < buf_length payload
  /\ exists (hdr : Header.t) (extra : Buffer),
       validateHeader hdr = Ok tt /\ wire_header hdr
       /\ Header.type hdr = MessageType.Response
       /\ Header.length hdr = buf_length payload
       /\ delivers (w_stream w) (w_script w)
            (header_layout hdr ++ payload ++ extra).

(** The two frames [sendRequest] writes for a client. *)
Definition request_frames (c : Client.t) (head body : Buffer) : Prop :=
  serializeRequest (Request.new (Client.proto c) (Client.name c)) = Ok body
  /\ serializeHeader
       (let header := Header.new MessageType.Request (buf_length body) in
        if Client.metrics c then Header.setFlag header FLAG_METRICS
        else header) = Ok head.

(** A method that leaves [this.domain] alone. *)
Definition quietly {A : Type} (m : Async A) : Prop :=
  forall w : World,
    getDomain (w_client (snd (m w))) = getDomain (w_client w)
    /\ exists effects,
         w_trace (snd (m w)) = w_trace w ++ effects
         /\ assignments effects = [].

(** A method that assigns [this.domain] at most once, and then a domain
    that satisfies [P]. *)
Definition assigns_once {A : Type} (P : jsstring -> Prop) (m : Async A)
  : Prop :=
  forall w : World,
    exists effects,
      w_trace (snd (m w)) = w_trace w ++ effects
      /\ ((assignments effects = []
           /\ getDomain (w_client (snd (m w))) = getDomain (w_client w))
          \/ (exists d,
                P d /\ assignments effects = [d]
                /\ getDomain (w_client (snd (m w))) = d)).

(** A client named "alpha" for HTTP, and the world in which the server
    sends [chunks] on its control stream. *)
Definition alpha_client : Client.t :=
  {| Client.addr := js "wormhole.dyastin.dev:443";
     Client.targetAddr := js ":3000";
     Client.withTLS := false;
     Client.proto := ProtoType.HTTP;
     Client.name := js "alpha";
     Client.domain := [];
     Client.metrics := false;
     Client.session := false |}.

Definition alpha_world (chunks : list Buffer) : World :=
  {| w_client := alpha_client;
     w_stream := fresh_stream;
     w_script := map Push chunks;
     w_session := SessionStays;
     w_expiry := fun _ => [];
     w_trace := [] |}.

(** A Response header for [n] bytes of payload, cut in two chunks after its
    second byte. *)
Definition reply_header_chunks (n : Z) : list Buffer :=
  [[to_byte VERSION; to_byte MessageType.Response];
   [to_byte 0] ++ be_bytes 8 n ++ [to_byte 0]].

(** The payload of a NameTaken response, and the payload of scenario A of
    the specification: OK, 3600, "alpha.example". *)
Definition name_taken_payload : Buffer :=
  map to_byte [3; 0; 0; 0; 0; 0; 0; 0; 0; 0; 0; 0; 0].

Definition ok_payload : Buffer :=
  map to_byte [1; 0; 0; 0; 0; 0; 0; 14; 16; 0; 0; 0; 13]
  ++ utf8_encode (js "alpha.example").

(** One of the three header invariants is broken. *)
Definition header_violation (h : Header.t) : Prop :=
  Header.version h <> VERSION \/ Header.length h > MAX_PAYLOAD_SIZE
  \/ Header.reserved h <> 0.

Definition failed {A : Type} (r : result A) : Prop := exists e, r = Err e.

Definition fails_with {A : Type} (r : result A) (e : Error) : Prop :=
  r = Err e.

(** The errors that reject a buffer for its size. *)
Definition size_error {A : Type} (r : result A) : bool :=
  match r with
  | Err InvalidHeaderSize | Err InvalidRequestSize | Err InvalidResponseSize
  | Err InvalidMetricsSize | Err InsufficientData => true
  | _ => false
  end.

(** The size a buffer declares through its length field. *)
Definition declared_request_size (buf : Buffer) : Z :=
  REQUEST_SIZE + getUint32 buf 1.

Definition declared_response_size (buf : Buffer) : Z :=
  RESPONSE_SIZE + getUint32 buf 9.

Definition prefix (n : Z) (buf : Buffer) : Buffer := firstn (Z.to_nat n) buf.

(** ** The rest of the wire protocol *)

Definition calculateTunnelRequestSize (req : Request.t) : Z :=
  HEADER_SIZE + REQUEST_SIZE + byteLength (Request.name req).

Definition calculateTunnelResponseSize (resp : Response.t) : Z :=
  HEADER_SIZE + RESPONSE_SIZE + byteLength (Response.domain resp).

(** ** Access streams ([Client.handleAccess], [Client.sendAck]) *)

(** [sendAck]: the frame it writes to the stream. *)
Definition sendAck : result Buffer :=
  serializeHeader (Header.new MessageType.Ack 0).

(** [handleAccess] on an inbound stream, which as a yamux [Stream] has a
    [close] method: what it has written, the forwarder it awaits, and how
    often it has itself called [stream.close()] after the forwarder. *)
Record Access : Type := {
  ac_promise : Settled unit;
  ac_written : list Buffer;
  ac_forward : Forward;
  ac_closes : nat
}.

Definition handleAccess (connect : Connect) (c : Client.t)
  (events : list FwdEvent) : Access :=
  match sendAck with
  | Err e =>
      {| ac_promise := Rejected e; ac_written := [];
         ac_forward := forward_start; ac_closes := 0 |}
  | Ok serializedHeader =>
      let st := forwardStream connect c true events in
      {| ac_promise := fw_promise st;
         ac_written := [serializedHeader];
         ac_forward := st;
         ac_closes := match fw_promise st with
                      | Resolved _ => 1
                      | _ => 0
                      end |}
  end.

(** ** Metrics streams ([Client.handleMetrics])

    What [handleMetrics] passes to [this.emit("metrics", ...)] has the five
    fields of a [Metrics] record, and is modelled as one; the listeners are
    taken not to throw. *)

(** The test of the two [catch] blocks of the client on [err.message]. *)
Definition closed_or_eof (e : Error) : bool :=
  includes (message e) (js "EOF") || includes (message e) (js "closed").

(** The number of bytes of the chunks that some events deliver. *)
Fixpoint pushed (events : list StreamEvent) : nat :=
  match events with
  | [] => 0%nat
  | Push chunk :: rest => (List.length chunk + pushed rest)%nat
  | _ :: rest => pushed rest
  end.

(** The bytes a reader can still get: those buffered and those to come. *)
Definition pending_bytes (s : Readable) (events : list StreamEvent) : nat :=
  (List.length (rd_buffer s) + pushed events)%nat.

(** The first payload, whose length the dispatcher's header gives. *)
Definition first_metrics (header : Header.t) : Async Metrics.t :=
  metricsBuf <~ await_readN (Header.length header) ;;
  lift (deserializeMetrics metricsBuf).

(** One turn of the [while (true)] loop, up to its [emit]. *)
Definition next_metrics : Async Metrics.t :=
  headerBuf <~ await_readN HEADER_SIZE ;;
  h <~ lift (deserializeHeader headerBuf) ;;
  metricsBuf <~ await_readN (Header.length h) ;;
  lift (deserializeMetrics metricsBuf).

(** The loop, with the records emitted so far.  A turn that completes has
    taken twelve bytes or more from the stream, so the bytes still to come
    bound the number of turns; [fuel] is that bound and is never used up
    ([metrics_loop_fuel]). *)
Fixpoint metrics_loop (fuel : nat) (emitted : list Metrics.t) (w : World)
  : Settled unit * list Metrics.t * World :=
  match fuel with
  | O => (Pending, emitted, w)
  | S fuel' =>
      match next_metrics w with
      | (Resolved metrics, w') => metrics_loop fuel' (emitted ++ [metrics]) w'
      | (Rejected e, w') => (Rejected e, emitted, w')
      | (Pending, w') => (Pending, emitted, w')
      end
  end.

(** [handleMetrics(header, stream)]: the promise, the records emitted, and
    the world afterwards.  The [catch] block returns in one branch and falls
    through in the other; the [finally] block closes the stream. *)
Definition handleMetrics (header : Header.t) (w : World)
  : Settled unit * list Metrics.t * World :=
  let '(outcome, emitted, w') :=
    match first_metrics header w with
    | (Resolved metrics, w1) =>
        metrics_loop (S (pending_bytes (w_stream w1) (w_script w1)))
          [metrics] w1
    | (Rejected e, w1) => (Rejected e, [], w1)
    | (Pending, w1) => (Pending, [], w1)
    end in
  match outcome with
  | Pending => (Pending, emitted, w')
  | Rejected err =>
      (if closed_or_eof err then Resolved tt else Resolved tt,
       emitted, snd (perform [StreamClose] w'))
  | Resolved _ => (Resolved tt, emitted, snd (perform [StreamClose] w'))
  end.

(** ** More vocabulary *)

(** The record whose fields are those of [m] reduced to their wire
    widths. *)
Definition wrap_metrics (m : Metrics.t) : Metrics.t :=
  {| Metrics.ingress := Metrics.ingress m mod 2 ^ 64;
     Metrics.egress := Metrics.egress m mod 2 ^ 64;
     Metrics.uptime := Metrics.uptime m mod 2 ^ 64;
     Metrics.connectionCount := Metrics.connectionCount m mod 2 ^ 64;
     Metrics.activeConnections := Metrics.activeConnections m mod 2 ^ 32 |}.

(** The decoder's invariant: the bytes still expected can only complete a
    scalar value. *)
Definition utf8_state_ok (st : Utf8State) : Prop :=
  u_needed st = 0
  \/ (u_needed st = 1 /\ 0x80 <= u_lower st /\ u_upper st <= 0xBF
      /\ ((0 <= u_code_point st /\ u_code_point st < 864)
          \/ (896 <= u_code_point st /\ u_code_point st < 17408)))
  \/ (u_needed st = 2 /\ 0x80 <= u_lower st /\ u_upper st <= 0xBF
      /\ ((0 <= u_code_point st * 64 + (u_lower st - 0x80)
           /\ u_code_point st * 64 + (u_upper st - 0x80) < 864)
          \/ (896 <= u_code_point st * 64 + (u_lower st - 0x80)
              /\ u_code_point st * 64 + (u_upper st - 0x80) < 17408)))
  \/ (u_needed st = 3 /\ 0x80 <= u_lower st /\ u_upper st <= 0xBF
      /\ 14 <= u_code_point st * 64 + (u_lower st - 0x80)
      /\ u_code_point st * 64 + (u_upper st - 0x80) <= 271).

(** The open stream [s] holds [bytes] for its reader, with what it has
    buffered and the chunks that arrive before the events [rest]. *)
Definition delivers_then (s : Readable) (events : list StreamEvent)
  (bytes : Buffer) (rest : list StreamEvent) : Prop :=
  open_stream s
  /\ exists chunks,
       events = map Push chunks ++ rest
       /\ rd_buffer s ++ List.concat chunks = bytes.

(** The stream [s] with [bytes] added to its buffer. *)
Definition buffering (s : Readable) (bytes : Buffer) : Readable :=
  {| rd_buffer := rd_buffer s ++ bytes;
     rd_ended := rd_ended s; rd_endEmitted := rd_endEmitted s |}.

(** The client's own registration request is valid, and the server answers
    on the control stream with the header [hdr] followed by [rest]. *)
Definition control_reply (w : World) (hdr : Header.t) (rest : Buffer)
  : Prop :=
  validateRequest
    (Request.new (Client.proto (w_client w)) (Client.name (w_client w)))
  = Ok tt
  /\ validateHeader hdr = Ok tt /\ wire_header hdr
  /\ delivers (w_stream w) (w_script w) (header_layout hdr ++ rest).



Definition used (l : Listener) (st : Forward) : bool :=
  existsb (listener_eqb l) (fw_used st).

(** The record that the first thirty-six bytes of a payload carry. *)
Definition metrics_of (payload : Buffer) : Metrics.t :=
  {| Metrics.ingress := getBigUint64 payload 0;
     Metrics.egress := getBigUint64 payload 8;
     Metrics.uptime := getBigUint64 payload 16;
     Metrics.connectionCount := getBigUint64 payload 24;
     Metrics.activeConnections := getUint32 payload 32 |}.

(** A frame of a metrics stream: a valid header of whatever type, and a
    payload of the length it declares, long enough for a record. *)
Definition metrics_frame (frame : Header.t * Buffer) : Prop :=
  validateHeader (fst frame) = Ok tt /\ wire_header (fst frame)
  /\ Header.length (fst frame) = buf_length (snd frame)
  /\ METRICS_SIZE <= buf_length (snd frame).

Definition frame_bytes (frame : Header.t * Buffer) : Buffer :=
  header_layout (fst frame) ++ snd frame.

(** ** The handshake response of a run *)

(** The control stream of [w] brings a header of type Response and then a
    payload of the length that header declares, which decodes to
    [response]: the response that [handleConnection] reads in [w]. *)
Definition handshake_response (w : World) (response : Response.t) : Prop :=
  exists headerBuf hdr s1 ev1 payload s2 ev2,
    readN HEADER_SIZE (w_stream w) (w_script w) = (Resolved headerBuf, s1, ev1)
    /\ deserializeHeader headerBuf = Ok hdr
    /\ Header.type hdr = MessageType.Response
    /\ readN (Header.length hdr) s1 ev1 = (Resolved payload, s2, ev2)
    /\ deserializeResponse payload = Ok response.

(** [run] gets as far as a handshake response of status OK: the dial
    succeeds, the client's own request is valid, and the response read from
    the control stream is [response], of status OK. *)
Definition registers (dial : option jsstring) (w : World)
  (response : Response.t) : Prop :=
  dial = None
  /\ validateRequest
       (Request.new (Client.proto (w_client w)) (Client.name (w_client w)))
     = Ok tt
  /\ handshake_response w response
  /\ Response.status response = StatusCode.OK.

(** The payload OK, 3600, "beta.example", and the world of a client [c]
    that has performed [trace] so far, in which the server sends [chunks] on
    the control stream and the session then closes. *)
Definition beta_payload : Buffer :=
  map to_byte [1; 0; 0; 0; 0; 0; 0; 14; 16; 0; 0; 0; 12]
  ++ utf8_encode (js "beta.example").

Definition closing_world (c : Client.t) (trace : list Effect)
  (chunks : list Buffer) : World :=
  {| w_client := c;
     w_stream := fresh_stream;
     w_script := map Push chunks;
     w_session := SessionCloses;
     w_expiry := fun _ => [];
     w_trace := trace |}.

(** A runtime whose [connect] refuses a port that is [undefined], which
    [Number] turns into [NaN], and takes any other. *)
Definition connect_with_port : Connect :=
  fun _ _ port =>
    match port with
    | None => Some (js "ERR_SOCKET_BAD_PORT")
    | Some _ => None
    end.

(** The client "alpha" with a target address that has no port. *)
Definition portless_client : Client.t :=
  {| Client.addr := js "wormhole.dyastin.dev:443";
     Client.targetAddr := js "localhost";
     Client.withTLS := false;
     Client.proto := ProtoType.HTTP;
     Client.name := js "alpha";
     Client.domain := [];
     Client.metrics := false;
     Client.session := false |}.

(** Linear arithmetic with division and remainder by constants. *)
Ltac arith := Z.div_mod_to_equations; lia.

(** * Properties *)

(** ** Bytes and big-endian integers *)

Lemma byte_val_range (b : Byte.byte) : 0 <= byte_val b < 256.
Proof.
  unfold byte_val. pose proof (Byte.to_N_bounded b) as H.
  split; [apply N2Z.is_nonneg|]. lia.
Qed.

Lemma byte_val_to_byte (v : Z) : byte_val (to_byte v) = v mod 256.
Proof.
  unfold to_byte, byte_val.
  assert (Hr : 0 <= v mod 256 < 256) by (apply Z.mod_pos_bound; lia).
  destruct (Byte.of_N (Z.to_N (v mod 256))) as [b|] eqn:E.
  - apply Byte.to_of_N in E. rewrite E. lia.
  - apply Byte.of_N_None_iff in E. lia.
Qed.

Lemma byte_val_to_byte_small (v : Z) :
  0 <= v < 256 -> byte_val (to_byte v) = v.
Proof. intro H. rewrite byte_val_to_byte. apply Z.mod_small, H. Qed.

Lemma to_byte_byte_val (b : Byte.byte) : to_byte (byte_val b) = b.
Proof.
  unfold to_byte. pose proof (byte_val_range b) as H.
  rewrite Z.mod_small by exact H.
  unfold byte_val. rewrite N2Z.id, Byte.of_to_N. reflexivity.
Qed.

Lemma buf_length_app (a b : Buffer) :
  buf_length (a ++ b) = buf_length a + buf_length b.
Proof. unfold buf_length. rewrite length_app. lia. Qed.

Lemma buf_length_nonneg (b : Buffer) : 0 <= buf_length b.
Proof. unfold buf_length. lia. Qed.

Lemma be_bytes_length (w : nat) (v : Z) : List.length (be_bytes w v) = w.
Proof. induction w as [|w IH]; simpl; [reflexivity | now rewrite IH]. Qed.

Lemma buf_length_be_bytes (w : nat) (v : Z) :
  buf_length (be_bytes w v) = Z.of_nat w.
Proof. unfold buf_length. now rewrite be_bytes_length. Qed.

Lemma be_value_acc (bs : Buffer) (acc : Z) :
  fold_left (fun a x => a * 256 + byte_val x) bs acc
  = acc * 256 ^ Z.of_nat (List.length bs) + be_value bs.
Proof.
  unfold be_value. revert acc.
  induction bs as [|b bs IH]; intro acc.
  - simpl. lia.
  - cbn [fold_left List.length]. rewrite IH, (IH (0 * 256 + byte_val b)).
    rewrite Nat2Z.inj_succ, Z.pow_succ_r by lia. ring.
Qed.

Lemma be_value_cons (b : Byte.byte) (bs : Buffer) :
  be_value (b :: bs)
  = byte_val b * 256 ^ Z.of_nat (List.length bs) + be_value bs.
Proof.
  unfold be_value at 1. cbn [fold_left]. rewrite be_value_acc. ring.
Qed.

Lemma be_value_range (bs : Buffer) :
  0 <= be_value bs < 256 ^ Z.of_nat (List.length bs).
Proof.
  induction bs as [|b bs IH].
  - cbn. lia.
  - rewrite be_value_cons. cbn [List.length].
    rewrite Nat2Z.inj_succ, Z.pow_succ_r by lia.
    pose proof (byte_val_range b). nia.
Qed.

(** Reading back what a big-endian setter wrote gives the value modulo the
    field's width. *)
Lemma be_value_be_bytes (w : nat) (v : Z) :
  be_value (be_bytes w v) = v mod 256 ^ Z.of_nat w.
Proof.
  induction w as [|w IH].
  - cbn. now rewrite Z.mod_1_r.
  - cbn [be_bytes]. rewrite be_value_cons, be_bytes_length, IH.
    rewrite byte_val_to_byte, Nat2Z.inj_succ, Z.pow_succ_r by lia.
    assert (Hp : 0 < 256 ^ Z.of_nat w) by (apply Z.pow_pos_nonneg; lia).
    rewrite (Z.mul_comm 256), Z.rem_mul_r by lia. ring.
Qed.

Lemma be_value_be_bytes_small (w : nat) (v : Z) :
  0 <= v < 256 ^ Z.of_nat w -> be_value (be_bytes w v) = v.
Proof. intro H. rewrite be_value_be_bytes. apply Z.mod_small, H. Qed.

Lemma firstn_be_bytes (w : nat) (v : Z) (rest : Buffer) :
  firstn w (be_bytes w v ++ rest) = be_bytes w v.
Proof.
  rewrite firstn_app, be_bytes_length, Nat.sub_diag, firstn_0, app_nil_r.
  apply firstn_all2. rewrite be_bytes_length. lia.
Qed.

Lemma skipn_be_bytes (w : nat) (v : Z) (rest : Buffer) :
  skipn w (be_bytes w v ++ rest) = rest.
Proof.
  rewrite skipn_app, be_bytes_length, Nat.sub_diag.
  rewrite skipn_all2 by (rewrite be_bytes_length; lia). reflexivity.
Qed.

#[global] Arguments be_bytes : simpl never.

(** ** Reading the fields of a buffer *)

Lemma getUint8_at (pre : Buffer) (x : Byte.byte) (rest : Buffer) (off : nat) :
  List.length pre = off -> getUint8 (pre ++ x :: rest) off = byte_val x.
Proof.
  intros <-. unfold getUint8. rewrite app_nth2 by lia.
  now rewrite Nat.sub_diag.
Qed.

Lemma skipn_at {A : Type} (pre rest : list A) (off : nat) :
  List.length pre = off -> skipn off (pre ++ rest) = rest.
Proof.
  intros <-. rewrite skipn_app, Nat.sub_diag, skipn_all2 by lia. reflexivity.
Qed.

Lemma getUint32_at (pre : Buffer) (v : Z) (rest : Buffer) (off : nat) :
  List.length pre = off ->
  getUint32 (pre ++ be_bytes 4 v ++ rest) off = v mod 2 ^ 32.
Proof.
  intro H. unfold getUint32.
  rewrite (skipn_at _ _ _ H), firstn_be_bytes, be_value_be_bytes.
  reflexivity.
Qed.

Lemma getBigUint64_at (pre : Buffer) (v : Z) (rest : Buffer) (off : nat) :
  List.length pre = off ->
  getBigUint64 (pre ++ be_bytes 8 v ++ rest) off = v mod 2 ^ 64.
Proof.
  intro H. unfold getBigUint64.
  rewrite (skipn_at _ _ _ H), firstn_be_bytes, be_value_be_bytes.
  reflexivity.
Qed.

Lemma subarray_at (pre mid rest : Buffer) (start stop : Z) :
  Z.of_nat (List.length pre) = start ->
  Z.of_nat (List.length mid) = stop - start ->
  subarray (pre ++ mid ++ rest) start stop = mid.
Proof.
  intros H1 H2. unfold subarray.
  rewrite skipn_at by lia.
  rewrite firstn_app.
  replace (Z.to_nat (stop - start)) with (List.length mid) by lia.
  rewrite Nat.sub_diag, firstn_0, app_nil_r. apply firstn_all2. lia.
Qed.

Lemma getUint32_range (buf : Buffer) (off : nat) :
  0 <= getUint32 buf off < 2 ^ 32.
Proof.
  unfold getUint32.
  pose proof (be_value_range (firstn 4 (skipn off buf))) as H.
  assert (Hl : (List.length (firstn 4 (skipn off buf)) <= 4)%nat)
    by (rewrite length_firstn; lia).
  assert (256 ^ Z.of_nat (List.length (firstn 4 (skipn off buf))) <= 256 ^ 4)
    by (apply Z.pow_le_mono_r; lia).
  lia.
Qed.

Lemma getBigUint64_range (buf : Buffer) (off : nat) :
  0 <= getBigUint64 buf off < 2 ^ 64.
Proof.
  unfold getBigUint64.
  pose proof (be_value_range (firstn 8 (skipn off buf))) as H.
  assert (Hl : (List.length (firstn 8 (skipn off buf)) <= 8)%nat)
    by (rewrite length_firstn; lia).
  assert (256 ^ Z.of_nat (List.length (firstn 8 (skipn off buf))) <= 256 ^ 8)
    by (apply Z.pow_le_mono_r; lia).
  lia.
Qed.

Lemma getUint8_range (buf : Buffer) (off : nat) : 0 <= getUint8 buf off < 256.
Proof. apply byte_val_range. Qed.

(** Reads that stay inside a prefix do not see what follows it. *)
Lemma getUint8_prefix (n : Z) (buf : Buffer) (off : nat) :
  Z.of_nat off < n -> getUint8 (prefix n buf) off = getUint8 buf off.
Proof.
  intro H. unfold getUint8, prefix. rewrite nth_firstn.
  destruct (Nat.ltb_spec off (Z.to_nat n)); [reflexivity | lia].
Qed.

Lemma firstn_skipn_prefix (k off : nat) (n : Z) (buf : Buffer) :
  Z.of_nat (off + k) <= n ->
  firstn k (skipn off (prefix n buf)) = firstn k (skipn off buf).
Proof.
  intro H. unfold prefix.
  rewrite skipn_firstn_comm, firstn_firstn.
  f_equal. lia.
Qed.

Lemma getUint32_prefix (n : Z) (buf : Buffer) (off : nat) :
  Z.of_nat off + 4 <= n -> getUint32 (prefix n buf) off = getUint32 buf off.
Proof.
  intro H. unfold getUint32. now rewrite firstn_skipn_prefix by lia.
Qed.

Lemma getBigUint64_prefix (n : Z) (buf : Buffer) (off : nat) :
  Z.of_nat off + 8 <= n ->
  getBigUint64 (prefix n buf) off = getBigUint64 buf off.
Proof.
  intro H. unfold getBigUint64. now rewrite firstn_skipn_prefix by lia.
Qed.

Lemma subarray_prefix (n : Z) (buf : Buffer) (start stop : Z) :
  0 <= start <= stop -> stop <= n ->
  subarray (prefix n buf) start stop = subarray buf start stop.
Proof.
  intros H1 H2. unfold subarray. apply firstn_skipn_prefix. lia.
Qed.

Lemma buf_length_prefix (n : Z) (buf : Buffer) :
  0 <= n <= buf_length buf -> buf_length (prefix n buf) = n.
Proof.
  unfold buf_length, prefix. intro H. rewrite length_firstn. lia.
Qed.

(** ** The validators *)

Lemma validateHeader_ok (h : Header.t) :
  validateHeader h = Ok tt <->
  Header.version h = VERSION /\ Header.length h <= MAX_PAYLOAD_SIZE
  /\ Header.reserved h = 0.
Proof.
  unfold validateHeader.
  destruct (Z.eqb_spec (Header.version h) VERSION) as [Hv|Hv]; cbn [negb].
  - destruct (Z.gtb_spec (Header.length h) MAX_PAYLOAD_SIZE) as [Hl|Hl].
    + split; [discriminate | lia].
    + destruct (Z.eqb_spec (Header.reserved h) 0) as [Hr|Hr]; cbn [negb].
      * split; [intros _; repeat split; assumption || lia | reflexivity].
      * split; [discriminate | tauto].
  - split; [discriminate | tauto].
Qed.

Lemma validateHeader_error (h : Header.t) (e : Error) :
  validateHeader h = Err e <->
  (e = InvalidVersion /\ Header.version h <> VERSION)
  \/ (e = PayloadTooLarge /\ Header.version h = VERSION
      /\ Header.length h > MAX_PAYLOAD_SIZE)
  \/ (e = ReservedNonZero /\ Header.version h = VERSION
      /\ Header.length h <= MAX_PAYLOAD_SIZE /\ Header.reserved h <> 0).
Proof.
  unfold validateHeader.
  destruct (Z.eqb_spec (Header.version h) VERSION) as [Hv|Hv]; cbn [negb].
  - destruct (Z.gtb_spec (Header.length h) MAX_PAYLOAD_SIZE) as [Hl|Hl].
    + split.
      * intro H. injection H as <-. right. left.
        repeat split; lia || assumption.
      * intros [[_ H]|[[-> _]|[_ H]]]; [contradiction | reflexivity | lia].
    + destruct (Z.eqb_spec (Header.reserved h) 0) as [Hr|Hr]; cbn [negb].
      * split; [discriminate |].
        intros [[_ H]|[[_ H]|[_ H]]]; [contradiction | lia | tauto].
      * split.
        -- intro H. injection H as <-. right. right.
           repeat split; lia || assumption.
        -- intros [[_ H]|[[_ H]|[-> _]]]; [contradiction | lia | reflexivity].
  - split.
    + intro H. injection H as <-. left. split; [reflexivity | assumption].
    + intros [[-> _]|[[_ [H _]]|[_ [H _]]]]; [reflexivity | contradiction..].
Qed.

Lemma validateHeader_failed (h : Header.t) :
  failed (validateHeader h) <-> header_violation h.
Proof.
  unfold failed, header_violation. split.
  - intros [e H]. apply validateHeader_error in H.
    destruct H as [[_ H]|[[_ [_ H]]|[_ [_ [_ H]]]]]; tauto.
  - intro H.
    destruct (validateHeader h) as [[]|e] eqn:E; [|now exists e].
    apply validateHeader_ok in E. destruct H as [H|[H|H]]; lia.
Qed.

Lemma serializeHeader_validate (h : Header.t) :
  serializeHeader h = (validateHeader h ;;; Ok (header_layout h)).
Proof. reflexivity. Qed.

(** ** Headers on the wire *)

Lemma header_layout_length (h : Header.t) : buf_length (header_layout h) = 12.
Proof.
  unfold header_layout.
  rewrite !buf_length_app, buf_length_be_bytes. reflexivity.
Qed.

Lemma header_layout_fields (h : Header.t) :
  getUint8 (header_layout h) 0 = Header.version h mod 256
  /\ getUint8 (header_layout h) 1 = Header.type h mod 256
  /\ getUint8 (header_layout h) 2 = Header.flags h mod 256
  /\ getBigUint64 (header_layout h) 3 = Header.length h mod 2 ^ 64
  /\ getUint8 (header_layout h) 11 = Header.reserved h mod 256.
Proof.
  unfold header_layout. repeat split.
  - apply byte_val_to_byte.
  - apply byte_val_to_byte.
  - apply byte_val_to_byte.
  - apply getBigUint64_at. reflexivity.
  - rewrite app_assoc, <- byte_val_to_byte. apply getUint8_at.
    rewrite length_app, be_bytes_length. reflexivity.
Qed.

(** Decoding the layout of a header whose fields fit the wire validates that
    very header. *)
Lemma deserializeHeader_layout (h : Header.t) :
  wire_header h ->
  deserializeHeader (header_layout h) = (validateHeader h ;;; Ok h).
Proof.
  intros (Hv & Ht & Hf & Hl & Hr).
  unfold deserializeHeader. rewrite header_layout_length.
  change (12 <? HEADER_SIZE) with false. cbv iota.
  destruct (header_layout_fields h) as (-> & -> & -> & -> & ->).
  rewrite !Z.mod_small by assumption.
  now destruct h.
Qed.

Lemma deserializeHeader_prefix (buf : Buffer) :
  HEADER_SIZE <= buf_length buf ->
  deserializeHeader buf = deserializeHeader (prefix HEADER_SIZE buf).
Proof.
  intro H. unfold deserializeHeader.
  rewrite buf_length_prefix by (unfold HEADER_SIZE in *; lia).
  rewrite !getUint8_prefix, getBigUint64_prefix by (unfold HEADER_SIZE; lia).
  destruct (Z.ltb_spec (buf_length buf) HEADER_SIZE); [lia | reflexivity].
Qed.

Lemma deserializeRequest_prefix (buf : Buffer) :
  declared_request_size buf <= buf_length buf ->
  deserializeRequest buf
  = deserializeRequest (prefix (declared_request_size buf) buf).
Proof.
  unfold declared_request_size. intro H.
  pose proof (getUint32_range buf 1) as Hr.
  unfold deserializeRequest.
  rewrite buf_length_prefix by (unfold REQUEST_SIZE in *; lia).
  rewrite getUint8_prefix, getUint32_prefix by (unfold REQUEST_SIZE; lia).
  rewrite subarray_prefix by (unfold REQUEST_SIZE; lia).
  destruct (Z.ltb_spec (buf_length buf) REQUEST_SIZE);
    [unfold REQUEST_SIZE in *; lia|].
  destruct (Z.ltb_spec (REQUEST_SIZE + getUint32 buf 1) REQUEST_SIZE);
    [lia|].
  rewrite Z.ltb_irrefl.
  destruct (Z.ltb_spec (buf_length buf) (REQUEST_SIZE + getUint32 buf 1));
    [lia | reflexivity].
Qed.

Lemma deserializeResponse_prefix (buf : Buffer) :
  declared_response_size buf <= buf_length buf ->
  deserializeResponse buf
  = deserializeResponse (prefix (declared_response_size buf) buf).
Proof.
  unfold declared_response_size. intro H.
  pose proof (getUint32_range buf 9) as Hr.
  unfold deserializeResponse.
  rewrite buf_length_prefix by (unfold RESPONSE_SIZE in *; lia).
  rewrite getUint8_prefix, getUint32_prefix, getBigUint64_prefix
    by (unfold RESPONSE_SIZE; lia).
  rewrite subarray_prefix by (unfold RESPONSE_SIZE; lia).
  destruct (Z.ltb_spec (buf_length buf) RESPONSE_SIZE);
    [unfold RESPONSE_SIZE in *; lia|].
  destruct (Z.ltb_spec (RESPONSE_SIZE + getUint32 buf 9) RESPONSE_SIZE);
    [lia|].
  rewrite Z.ltb_irrefl.
  destruct (Z.ltb_spec (buf_length buf) (RESPONSE_SIZE + getUint32 buf 9));
    [lia | reflexivity].
Qed.

Lemma deserializeMetrics_prefix (buf : Buffer) :
  METRICS_SIZE <= buf_length buf ->
  deserializeMetrics buf = deserializeMetrics (prefix METRICS_SIZE buf).
Proof.
  intro H. unfold deserializeMetrics.
  rewrite buf_length_prefix by (unfold METRICS_SIZE in *; lia).
  rewrite !getBigUint64_prefix, getUint32_prefix by (unfold METRICS_SIZE; lia).
  destruct (Z.ltb_spec (buf_length buf) METRICS_SIZE); [lia | reflexivity].
Qed.

Lemma validateHeader_not_size (h : Header.t) :
  size_error (validateHeader h ;;; Ok h) = false.
Proof.
  unfold validateHeader.
  repeat match goal with |- context [if ?c then _ else _] => destruct c end;
    reflexivity.
Qed.

Lemma validateRequest_not_size (r : Request.t) :
  size_error (validateRequest r ;;; Ok r) = false.
Proof.
  unfold validateRequest.
  repeat match goal with |- context [if ?c then _ else _] => destruct c end;
    reflexivity.
Qed.

Lemma validateResponse_not_size (r : Response.t) :
  size_error (validateResponse r ;;; Ok r) = false.
Proof.
  unfold validateResponse.
  repeat match goal with |- context [if ?c then _ else _] => destruct c end;
    reflexivity.
Qed.

(** C8.  Every deserializer accepts a buffer longer than the size its
    encoding declares and ignores the bytes after it: on a buffer at least as
    long as the declared size (12 for a header, 5 + nameLength for a request,
    13 + domainLength for a response, 36 for metrics) it returns what it
    returns on the prefix of exactly that size; and it rejects a buffer for
    its size exactly when the buffer is strictly shorter than that. *)
Theorem deserializers_ignore_trailing_bytes (buf : Buffer) :
  (HEADER_SIZE <= buf_length buf ->
   deserializeHeader buf = deserializeHeader (prefix HEADER_SIZE buf))
  /\ (declared_request_size buf <= buf_length buf ->
      deserializeRequest buf
      = deserializeRequest (prefix (declared_request_size buf) buf))
  /\ (declared_response_size buf <= buf_length buf ->
      deserializeResponse buf
      = deserializeResponse (prefix (declared_response_size buf) buf))
  /\ (METRICS_SIZE <= buf_length buf ->
      deserializeMetrics buf = deserializeMetrics (prefix METRICS_SIZE buf))
  /\ size_error (deserializeHeader buf) = (buf_length buf <? HEADER_SIZE)
  /\ size_error (deserializeRequest buf)
     = (buf_length buf <? declared_request_size buf)
  /\ size_error (deserializeResponse buf)
     = (buf_length buf <? declared_response_size buf)
  /\ size_error (deserializeMetrics buf) = (buf_length buf <? METRICS_SIZE).
Proof.
  split; [apply deserializeHeader_prefix|].
  split; [apply deserializeRequest_prefix|].
  split; [apply deserializeResponse_prefix|].
  split; [apply deserializeMetrics_prefix|].
  split; [|split; [|split]].
  - unfold deserializeHeader.
    destruct (buf_length buf <? HEADER_SIZE); [reflexivity|].
    apply validateHeader_not_size.
  - unfold deserializeRequest, declared_request_size.
    pose proof (getUint32_range buf 1) as Hr.
    destruct (Z.ltb_spec (buf_length buf) REQUEST_SIZE) as [H|H].
    + transitivity true; [reflexivity | symmetry; apply Z.ltb_lt; lia].
    + destruct (buf_length buf <? REQUEST_SIZE + getUint32 buf 1);
        [reflexivity|]. apply validateRequest_not_size.
  - unfold deserializeResponse, declared_response_size.
    pose proof (getUint32_range buf 9) as Hr.
    destruct (Z.ltb_spec (buf_length buf) RESPONSE_SIZE) as [H|H].
    + transitivity true; [reflexivity | symmetry; apply Z.ltb_lt; lia].
    + destruct (buf_length buf <? RESPONSE_SIZE + getUint32 buf 9);
        [reflexivity|]. apply validateResponse_not_size.
  - unfold deserializeMetrics.
    destruct (buf_length buf <? METRICS_SIZE); reflexivity.
Qed.

(** A request for the name "ab" followed by two stray bytes decodes as the
    seven bytes of the request do. *)
Lemma deserializers_ignore_trailing_bytes_witness :
  let buf := map to_byte [2; 0; 0; 0; 2; 97; 98; 255; 255] in
  deserializeRequest buf = deserializeRequest (prefix 7 buf)
  /\ deserializeRequest buf = Ok (Request.new 2 [97; 98]).
Proof.
  intro buf. split.
  - apply (proj1 (proj2 (deserializers_ignore_trailing_bytes buf))).
    vm_compute. discriminate.
  - vm_compute. reflexivity.
Defined.

Lemma validate_then_errors {A : Type} (h : Header.t) (x : A) :
  let r := validateHeader h ;;; Ok x in
  (failed r <-> header_violation h)
  /\ (fails_with r InvalidVersion <-> Header.version h <> VERSION)
  /\ (fails_with r PayloadTooLarge <->
      Header.version h = VERSION /\ Header.length h > MAX_PAYLOAD_SIZE)
  /\ (fails_with r ReservedNonZero <->
      Header.version h = VERSION /\ Header.length h <= MAX_PAYLOAD_SIZE
      /\ Header.reserved h <> 0).
Proof.
  intro r. split.
  - rewrite <- validateHeader_failed. unfold failed, r.
    destruct (validateHeader h) as [[]|e]; cbn.
    + split; intros [e H]; discriminate.
    + split; intros _; now exists e.
  - unfold fails_with, r, validateHeader.
    destruct (Z.eqb_spec (Header.version h) VERSION) as [Hv|Hv];
      [destruct (Z.gtb_spec (Header.length h) MAX_PAYLOAD_SIZE) as [Hl|Hl];
       [|destruct (Z.eqb_spec (Header.reserved h) 0) as [Hr0|Hr0]]|];
      cbn [negb bind];
      repeat split; intros; try congruence; try lia.
Qed.

(** C2, as the code has it.  [serializeHeader h] fails exactly when one of
    the three header invariants is broken, and so does [deserializeHeader] on
    the twelve bytes that carry the fields of [h].  The checks run in the
    order version, length, reserved, and the first broken one names the
    error: [InvalidVersion] when the version is not 0x10; [PayloadTooLarge]
    when the version is right and the length exceeds 1048576;
    [ReservedNonZero] when version and length are right and reserved is not
    zero.  Twelve bytes or more whose first byte is not 0x10 always fail with
    [InvalidVersion]. *)
Theorem header_framing_errors (h : Header.t) :
  (failed (serializeHeader h) <-> header_violation h)
  /\ (fails_with (serializeHeader h) InvalidVersion <->
      Header.version h <> VERSION)
  /\ (fails_with (serializeHeader h) PayloadTooLarge <->
      Header.version h = VERSION /\ Header.length h > MAX_PAYLOAD_SIZE)
  /\ (fails_with (serializeHeader h) ReservedNonZero <->
      Header.version h = VERSION /\ Header.length h <= MAX_PAYLOAD_SIZE
      /\ Header.reserved h <> 0)
  /\ (wire_header h ->
      let r := deserializeHeader (header_layout h) in
      (failed r <-> header_violation h)
      /\ (fails_with r InvalidVersion <-> Header.version h <> VERSION)
      /\ (fails_with r PayloadTooLarge <->
          Header.version h = VERSION /\ Header.length h > MAX_PAYLOAD_SIZE)
      /\ (fails_with r ReservedNonZero <->
          Header.version h = VERSION /\ Header.length h <= MAX_PAYLOAD_SIZE
          /\ Header.reserved h <> 0))
  /\ (forall buf : Buffer,
        HEADER_SIZE <= buf_length buf -> getUint8 buf 0 <> VERSION ->
        fails_with (deserializeHeader buf) InvalidVersion).
Proof.
  pose proof (validate_then_errors h (header_layout h)) as Hs.
  cbv zeta in Hs. rewrite <- serializeHeader_validate in Hs.
  destruct Hs as (H1 & H2 & H3 & H4).
  repeat (split; [assumption|]).
  split.
  - intro Hw. rewrite (deserializeHeader_layout h Hw).
    apply validate_then_errors.
  - intros buf Hlen Hv. unfold fails_with, deserializeHeader.
    destruct (Z.ltb_spec (buf_length buf) HEADER_SIZE); [lia|].
    unfold validateHeader. cbn [Header.version].
    destruct (Z.eqb_spec (getUint8 buf 0) VERSION); [contradiction|].
    reflexivity.
Qed.

(** A header of version 0x10 whose length is one past the limit: encoding
    it and decoding its twelve bytes both fail with [PayloadTooLarge]. *)
Lemma header_framing_errors_witness :
  let h := Header.make 16 4 0 1048577 0 in
  fails_with (serializeHeader h) PayloadTooLarge
  /\ fails_with (deserializeHeader (header_layout h)) PayloadTooLarge.
Proof.
  intro h.
  destruct (header_framing_errors h) as (_ & _ & Hs & _ & Hd & _).
  split.
  - apply Hs. vm_compute. split; reflexivity.
  - assert (Hw : wire_header h) by (vm_compute; intuition discriminate).
    destruct (Hd Hw) as (_ & _ & Hp & _).
    apply Hp. vm_compute. split; reflexivity.
Defined.

(** C2 as stated fails: a header with a wrong version and a non-zero
    reserved field is refused for its version, not for its reserved field. *)
Lemma reserved_error_hidden_by_version :
  let h := Header.make 17 1 0 0 1 in
  Header.reserved h <> 0
  /\ serializeHeader h = Err InvalidVersion
  /\ serializeHeader h <> Err ReservedNonZero.
Proof.
  cbv zeta. repeat split; vm_compute; discriminate || reflexivity.
Qed.

(** ** Responses *)

Lemma deserializeResponse_empty_domain (buf : Buffer) :
  RESPONSE_SIZE <= buf_length buf -> getUint32 buf 9 = 0 ->
  deserializeResponse buf
  = (let resp := Response.new (getUint8 buf 0) (getBigUint64 buf 1) [] in
     validateResponse resp ;;; Ok resp).
Proof.
  intros Hlen Hdl. unfold deserializeResponse. rewrite Hdl.
  destruct (Z.ltb_spec (buf_length buf) RESPONSE_SIZE); [lia|].
  destruct (Z.ltb_spec (buf_length buf) (RESPONSE_SIZE + 0)); [lia|].
  reflexivity.
Qed.

Lemma validateResponse_when_ok (resp : Response.t) :
  Response.status resp = StatusCode.OK ->
  (validateResponse resp = Ok tt <->
   Response.domain resp <> [] /\ Response.domainLength resp <> 0
   /\ Response.domainLength resp = byteLength (Response.domain resp)
   /\ Response.domainLength resp <= MAX_STRING_LENGTH).
Proof.
  intros Hs. unfold validateResponse. rewrite Hs.
  change (negb (StatusCode.OK =? StatusCode.OK)
          && negb (StatusCode.OK =? StatusCode.NameTaken)
          && negb (StatusCode.OK =? StatusCode.UnsupportedProto))
    with false.
  change (StatusCode.OK =? StatusCode.OK) with true. cbv iota.
  destruct (Response.domain resp) as [|u t] eqn:Ed.
  - cbn [List.length Z.of_nat Z.eqb orb]. split; [discriminate|].
    intros (H & _). now contradiction H.
  - replace (Z.of_nat (List.length (u :: t)) =? 0) with false
      by (symmetry; apply Z.eqb_neq; cbn [List.length]; lia).
    cbn [orb].
    destruct (Z.eqb_spec (Response.domainLength resp) 0) as [H0|H0].
    + split; [discriminate | tauto].
    + destruct (Z.eqb_spec (Response.domainLength resp)
                  (byteLength (u :: t))) as [H1|H1]; cbn [negb].
      * destruct (Z.gtb_spec (Response.domainLength resp) MAX_STRING_LENGTH).
        -- split; [discriminate | lia].
        -- split; [intros _; repeat split; try assumption; discriminate
                  | reflexivity].
      * split; [discriminate | tauto].
Qed.

(** C5.  [validateResponse], and with it [serializeResponse] and
    [deserializeResponse], accepts a response of status NameTaken with an
    empty domain and rejects a response of status OK with an empty domain;
    the checks on [domain] and [domainLength] (non-empty, agreement with the
    byte length, at most 4096) decide the outcome when the status is OK and
    play no part otherwise. *)
Theorem response_validation_is_conditional :
  (forall ttl dl : Z,
     validateResponse (Response.make StatusCode.NameTaken ttl dl []) = Ok tt)
  /\ (forall ttl dl : Z,
        exists buf,
          serializeResponse (Response.make StatusCode.NameTaken ttl dl [])
          = Ok buf)
  /\ (forall buf : Buffer,
        RESPONSE_SIZE <= buf_length buf ->
        getUint8 buf 0 = StatusCode.NameTaken -> getUint32 buf 9 = 0 ->
        deserializeResponse buf
        = Ok (Response.make StatusCode.NameTaken (getBigUint64 buf 1) 0 []))
  /\ (forall ttl dl : Z,
        validateResponse (Response.make StatusCode.OK ttl dl [])
        = Err EmptyString)
  /\ (forall ttl dl : Z,
        serializeResponse (Response.make StatusCode.OK ttl dl [])
        = Err EmptyString)
  /\ (forall buf : Buffer,
        RESPONSE_SIZE <= buf_length buf ->
        getUint8 buf 0 = StatusCode.OK -> getUint32 buf 9 = 0 ->
        deserializeResponse buf = Err EmptyString)
  /\ (forall (resp : Response.t) (dl : Z) (d : jsstring),
        Response.status resp <> StatusCode.OK ->
        validateResponse resp
        = validateResponse
            (Response.make (Response.status resp) (Response.ttlHours resp)
               dl d))
  /\ (forall resp : Response.t,
        Response.status resp = StatusCode.OK ->
        (validateResponse resp = Ok tt <->
         Response.domain resp <> [] /\ Response.domainLength resp <> 0
         /\ Response.domainLength resp = byteLength (Response.domain resp)
         /\ Response.domainLength resp <= MAX_STRING_LENGTH)).
Proof.
  split; [reflexivity|].
  split; [intros ttl dl; eexists; reflexivity|].
  split.
  { intros buf Hlen Hs Hdl.
    rewrite deserializeResponse_empty_domain by assumption.
    rewrite Hs. reflexivity. }
  split; [reflexivity|].
  split; [reflexivity|].
  split.
  { intros buf Hlen Hs Hdl.
    rewrite deserializeResponse_empty_domain by assumption.
    rewrite Hs. reflexivity. }
  split.
  { intros resp dl d Hs. unfold validateResponse.
    cbn [Response.status Response.ttlHours Response.domainLength
         Response.domain].
    destruct (Z.eqb_spec (Response.status resp) StatusCode.OK);
      [contradiction | reflexivity]. }
  exact validateResponse_when_ok.
Qed.

(** The thirteen bytes of a NameTaken response with no domain are accepted;
    the same bytes with status OK are refused. *)
Lemma response_validation_is_conditional_witness :
  deserializeResponse (map to_byte [3; 0; 0; 0; 0; 0; 0; 0; 0; 0; 0; 0; 0])
  = Ok (Response.make StatusCode.NameTaken 0 0 [])
  /\ deserializeResponse (map to_byte [1; 0; 0; 0; 0; 0; 0; 0; 0; 0; 0; 0; 0])
     = Err EmptyString.
Proof.
  destruct response_validation_is_conditional
    as (_ & _ & Hacc & _ & _ & Hrej & _).
  split.
  - apply (Hacc (map to_byte [3; 0; 0; 0; 0; 0; 0; 0; 0; 0; 0; 0; 0]));
      vm_compute; reflexivity || discriminate.
  - apply (Hrej (map to_byte [1; 0; 0; 0; 0; 0; 0; 0; 0; 0; 0; 0; 0]));
      vm_compute; reflexivity || discriminate.
Defined.

(** ** UTF-8: decoding an encoding *)

Lemma utf8_lead_1 (b : Z) :
  b <= 0x7F -> utf8_lead b = (utf8_idle, [b]).
Proof.
  intro H. unfold utf8_lead.
  destruct (Z.leb_spec b 0x7F); [reflexivity | lia].
Qed.

Lemma utf8_lead_2 (b : Z) :
  0xC2 <= b <= 0xDF ->
  utf8_lead b
  = ({| u_code_point := b mod 32; u_needed := 1;
        u_lower := 0x80; u_upper := 0xBF |}, []).
Proof.
  intro H. unfold utf8_lead.
  destruct (Z.leb_spec b 0x7F); [lia|].
  destruct (Z.leb_spec 0xC2 b); [|lia].
  destruct (Z.leb_spec b 0xDF); [reflexivity | lia].
Qed.

Lemma utf8_lead_3 (b : Z) :
  0xE0 <= b <= 0xEF ->
  utf8_lead b
  = ({| u_code_point := b mod 16; u_needed := 2;
        u_lower := if b =? 0xE0 then 0xA0 else 0x80;
        u_upper := if b =? 0xED then 0x9F else 0xBF |}, []).
Proof.
  intro H. unfold utf8_lead.
  destruct (Z.leb_spec b 0x7F); [lia|].
  destruct (Z.leb_spec 0xC2 b); [|lia].
  destruct (Z.leb_spec b 0xDF); [lia|]. cbn [andb].
  destruct (Z.leb_spec 0xE0 b); [|lia].
  destruct (Z.leb_spec b 0xEF); [reflexivity | lia].
Qed.

Lemma utf8_lead_4 (b : Z) :
  0xF0 <= b <= 0xF4 ->
  utf8_lead b
  = ({| u_code_point := b mod 8; u_needed := 3;
        u_lower := if b =? 0xF0 then 0x90 else 0x80;
        u_upper := if b =? 0xF4 then 0x8F else 0xBF |}, []).
Proof.
  intro H. unfold utf8_lead.
  destruct (Z.leb_spec b 0x7F); [lia|].
  destruct (Z.leb_spec 0xC2 b); [|lia].
  destruct (Z.leb_spec b 0xDF); [lia|]. cbn [andb].
  destruct (Z.leb_spec 0xE0 b); [|lia].
  destruct (Z.leb_spec b 0xEF); [lia|]. cbn [andb].
  destruct (Z.leb_spec 0xF0 b); [|lia].
  destruct (Z.leb_spec b 0xF4); [reflexivity | lia].
Qed.

Lemma utf8_step_continue (c need lo hi b : Z) :
  need <> 0 -> lo <= b <= hi ->
  utf8_step {| u_code_point := c; u_needed := need;
               u_lower := lo; u_upper := hi |} b
  = if need =? 1 then (utf8_idle, units_of_code_point (c * 64 + b mod 64))
    else ({| u_code_point := c * 64 + b mod 64; u_needed := need - 1;
             u_lower := 0x80; u_upper := 0xBF |}, []).
Proof.
  intros Hn Hb. unfold utf8_step.
  cbn [u_needed u_lower u_upper u_code_point].
  destruct (Z.eqb_spec need 0); [contradiction|].
  destruct (Z.ltb_spec b lo); [lia|].
  destruct (Z.ltb_spec hi b); [lia|]. reflexivity.
Qed.

Lemma utf8_run_idle_cons (b : Z) (bs : list Z) :
  utf8_run utf8_idle (b :: bs)
  = (let (st, out) := utf8_lead b in out ++ utf8_run st bs).
Proof. reflexivity. Qed.

Lemma utf8_run_cons (st : Utf8State) (b : Z) (bs : list Z) :
  utf8_run st (b :: bs)
  = (let (st', out) := utf8_step st b in out ++ utf8_run st' bs).
Proof. reflexivity. Qed.

(** The decoder reads back the bytes of one scalar value. *)
Lemma utf8_run_code_point (c : Z) (rest : list Z) :
  scalar c ->
  utf8_run utf8_idle (utf8_of_code_point c ++ rest)
  = units_of_code_point c ++ utf8_run utf8_idle rest.
Proof.
  intro Hc. unfold utf8_of_code_point.
  destruct (Z.ltb_spec c 0x80) as [H1|H1].
  { cbn [app]. rewrite utf8_run_idle_cons, utf8_lead_1 by lia.
    unfold units_of_code_point.
    destruct (Z.ltb_spec c 0x10000); [reflexivity | lia]. }
  destruct (Z.ltb_spec c 0x800) as [H2|H2].
  { cbn [app]. rewrite utf8_run_idle_cons, utf8_lead_2 by arith.
    cbn [app]. rewrite utf8_run_cons, utf8_step_continue by arith.
    change (1 =? 1) with true. cbv iota.
    replace ((0xC0 + c / 64) mod 32 * 64 + (0x80 + c mod 64) mod 64) with c
      by arith.
    reflexivity. }
  destruct (Z.ltb_spec c 0x10000) as [H3|H3].
  { cbn [app]. rewrite utf8_run_idle_cons, utf8_lead_3 by arith.
    cbn [app]. rewrite utf8_run_cons, utf8_step_continue.
    2: lia.
    2: { unfold scalar in Hc.
         destruct (Z.eqb_spec (0xE0 + c / 4096) 0xE0);
           destruct (Z.eqb_spec (0xE0 + c / 4096) 0xED); arith. }
    change (2 =? 1) with false. cbv iota. cbn [app].
    rewrite utf8_run_cons, utf8_step_continue by arith.
    change (2 - 1 =? 1) with true. cbv iota.
    replace (((0xE0 + c / 4096) mod 16 * 64 + (0x80 + (c / 64) mod 64) mod 64)
             * 64 + (0x80 + c mod 64) mod 64) with c by arith.
    reflexivity. }
  assert (H4 : c < 0x110000) by (unfold scalar in Hc; lia).
  cbn [app]. rewrite utf8_run_idle_cons, utf8_lead_4 by arith.
  cbn [app]. rewrite utf8_run_cons, utf8_step_continue.
  2: lia.
  2: { destruct (Z.eqb_spec (0xF0 + c / 262144) 0xF0);
         destruct (Z.eqb_spec (0xF0 + c / 262144) 0xF4); arith. }
  change (3 =? 1) with false. cbv iota. cbn [app].
  rewrite utf8_run_cons, utf8_step_continue by arith.
  change (3 - 1 =? 1) with false. cbv iota. cbn [app].
  rewrite utf8_run_cons, utf8_step_continue by arith.
  change (3 - 1 - 1 =? 1) with true. cbv iota.
  replace ((((0xF0 + c / 262144) mod 8 * 64
             + (0x80 + (c / 4096) mod 64) mod 64) * 64
            + (0x80 + (c / 64) mod 64) mod 64) * 64
           + (0x80 + c mod 64) mod 64) with c by arith.
  reflexivity.
Qed.

Lemma utf8_of_code_point_bytes (c : Z) :
  0 <= c < 0x110000 ->
  Forall (fun b => 0 <= b < 256) (utf8_of_code_point c).
Proof.
  intro Hc. unfold utf8_of_code_point.
  destruct (Z.ltb_spec c 0x80); [|destruct (Z.ltb_spec c 0x800);
    [|destruct (Z.ltb_spec c 0x10000)]];
    repeat constructor; arith.
Qed.

Lemma units_of_pair (hi lo : Z) :
  is_high hi = true -> is_low lo = true ->
  units_of_code_point (pair_code_point hi lo) = [hi; lo]
  /\ scalar (pair_code_point hi lo).
Proof.
  unfold is_high, is_low, pair_code_point, units_of_code_point, scalar.
  intros Hh Hl.
  apply andb_prop in Hh. destruct Hh as [Hh1 Hh2].
  apply andb_prop in Hl. destruct Hl as [Hl1 Hl2].
  apply Z.leb_le in Hh1, Hh2, Hl1, Hl2.
  split; [|lia].
  destruct (Z.ltb_spec (0x10000 + (hi - 0xD800) * 0x400 + (lo - 0xDC00))
              0x10000); [lia|].
  f_equal; [|f_equal]; arith.
Qed.

Lemma units_of_bmp (u : Z) :
  0 <= u < 0x10000 -> units_of_code_point u = [u].
Proof.
  intro H. unfold units_of_code_point.
  destruct (Z.ltb_spec u 0x10000); [reflexivity | lia].
Qed.

Lemma not_surrogate_scalar (u : Z) :
  is_high u = false -> is_low u = false -> 0 <= u < 0x10000 -> scalar u.
Proof.
  unfold is_high, is_low, scalar. intros Hh Hl Hr.
  destruct (Z.leb_spec 0xD800 u); destruct (Z.leb_spec u 0xDBFF);
    destruct (Z.leb_spec 0xDC00 u); destruct (Z.leb_spec u 0xDFFF);
    cbn in Hh, Hl; try discriminate; lia.
Qed.

(** Decoding the encoding of a well-formed string gives the string back,
    and the encoding consists of bytes. *)
Lemma utf8_units_well_formed (n : nat) :
  forall s : jsstring,
    (List.length s <= n)%nat -> well_formed s = true ->
    utf8_run utf8_idle (utf8_units s) = s
    /\ Forall (fun b => 0 <= b < 256) (utf8_units s).
Proof.
  induction n as [|n IH]; intros s Hlen Hwf.
  - destruct s; [split; [reflexivity | constructor] | cbn in Hlen; lia].
  - destruct s as [|u t]; [split; [reflexivity | constructor]|].
    cbn [well_formed utf8_units] in *.
    destruct (is_high u) eqn:Hh.
    + destruct t as [|l t']; [discriminate|].
      apply andb_prop in Hwf. destruct Hwf as [Hl Hwf]. rewrite Hl.
      destruct (units_of_pair u l Hh Hl) as [Hu Hs].
      destruct (IH t') as [IH1 IH2]; [cbn in Hlen; lia | assumption |].
      split.
      * rewrite utf8_run_code_point, Hu, IH1 by assumption. reflexivity.
      * apply Forall_app. split; [|assumption].
        apply utf8_of_code_point_bytes. unfold scalar in Hs. lia.
    + destruct (is_low u) eqn:Hl; [discriminate|]. cbn [negb andb] in Hwf.
      apply andb_prop in Hwf. destruct Hwf as [Hr Hwf].
      apply andb_prop in Hr. destruct Hr as [Hr1 Hr2].
      apply Z.leb_le in Hr1. apply Z.ltb_lt in Hr2.
      destruct (IH t) as [IH1 IH2]; [cbn in Hlen; lia | assumption |].
      split.
      * rewrite utf8_run_code_point, units_of_bmp, IH1
          by (lia || now apply not_surrogate_scalar).
        reflexivity.
      * apply Forall_app. split; [|assumption].
        apply utf8_of_code_point_bytes. lia.
Qed.

Lemma map_byte_val_to_byte (l : list Z) :
  Forall (fun b => 0 <= b < 256) l -> map byte_val (map to_byte l) = l.
Proof.
  induction 1 as [|b l Hb _ IH]; [reflexivity|].
  cbn [map]. now rewrite byte_val_to_byte_small, IH.
Qed.

Lemma utf8_decode_encode (s : jsstring) :
  well_formed s = true -> utf8_decode (utf8_encode s) = s.
Proof.
  intro H.
  destruct (utf8_units_well_formed (List.length s) s (le_n _) H) as [H1 H2].
  unfold utf8_decode, utf8_encode.
  now rewrite map_byte_val_to_byte.
Qed.

(** ** Round trips *)

Lemma validateRequest_ok (r : Request.t) :
  validateRequest r = Ok tt ->
  (Request.proto r = ProtoType.HTTP \/ Request.proto r = ProtoType.TCP)
  /\ Request.nameLength r = byteLength (Request.name r)
  /\ 0 < Request.nameLength r <= MAX_STRING_LENGTH.
Proof.
  unfold validateRequest.
  destruct (Z.eqb_spec (Request.proto r) ProtoType.HTTP) as [Hh|Hh];
    destruct (Z.eqb_spec (Request.proto r) ProtoType.TCP) as [Ht|Ht];
    cbn [negb andb]; try discriminate;
    (destruct (Z.of_nat (List.length (Request.name r)) =? 0);
     [discriminate|];
     destruct (Z.eqb_spec (Request.nameLength r) 0) as [H0|H0];
     [discriminate|]; cbn [orb];
     destruct (Z.eqb_spec (Request.nameLength r)
                 (byteLength (Request.name r))) as [Hl|Hl];
     [|discriminate]; cbn [negb];
     destruct (Z.gtb_spec (Request.nameLength r) MAX_STRING_LENGTH);
     [discriminate|]; intros _;
     pose proof (buf_length_nonneg (utf8_encode (Request.name r)));
     unfold byteLength in *; repeat split; try tauto; lia).
Qed.

Lemma header_round_trip (h : Header.t) :
  validateHeader h = Ok tt -> wire_header h ->
  (buf <- serializeHeader h ;; deserializeHeader buf) = Ok h.
Proof.
  intros Hv Hw. rewrite serializeHeader_validate, Hv. cbn [bind].
  now rewrite deserializeHeader_layout, Hv.
Qed.

Lemma request_round_trip (r : Request.t) :
  validateRequest r = Ok tt -> well_formed (Request.name r) = true ->
  (buf <- serializeRequest r ;; deserializeRequest buf) = Ok r.
Proof.
  intros Hv Hwf.
  destruct (validateRequest_ok r Hv) as (Hp & Hl & Hr).
  unfold serializeRequest. rewrite Hv. cbn [bind].
  set (buf := [to_byte (Request.proto r)]
              ++ be_bytes 4 (Request.nameLength r)
              ++ utf8_encode (Request.name r)).
  assert (Hlen : buf_length buf = REQUEST_SIZE + Request.nameLength r).
  { unfold buf. rewrite !buf_length_app, buf_length_be_bytes.
    fold (byteLength (Request.name r)). rewrite <- Hl.
    unfold REQUEST_SIZE, buf_length. cbn [List.length]. lia. }
  assert (Hproto : getUint8 buf 0 = Request.proto r).
  { unfold buf. cbn [app]. unfold getUint8. cbn [nth].
    apply byte_val_to_byte_small.
    unfold ProtoType.HTTP, ProtoType.TCP in Hp. lia. }
  assert (Hnl : getUint32 buf 1 = Request.nameLength r).
  { unfold buf. rewrite getUint32_at by reflexivity.
    apply Z.mod_small. unfold MAX_STRING_LENGTH in Hr. lia. }
  assert (Hname : subarray buf REQUEST_SIZE
                    (REQUEST_SIZE + Request.nameLength r)
                  = utf8_encode (Request.name r)).
  { unfold buf. rewrite app_assoc.
    rewrite <- (app_nil_r (utf8_encode (Request.name r))) at 1.
    apply subarray_at.
    - rewrite length_app, be_bytes_length. reflexivity.
    - rewrite Hl. unfold byteLength, buf_length. lia. }
  unfold deserializeRequest. rewrite Hlen, Hproto, Hnl, Hname.
  destruct (Z.ltb_spec (REQUEST_SIZE + Request.nameLength r) REQUEST_SIZE);
    [lia|].
  rewrite Z.ltb_irrefl, utf8_decode_encode by assumption.
  assert (E : Request.new (Request.proto r) (Request.name r) = r).
  { unfold Request.new. rewrite <- Hl. now destruct r. }
  rewrite E, Hv. reflexivity.
Qed.

Lemma response_round_trip (p : Response.t) :
  validateResponse p = Ok tt -> wire_response p ->
  (buf <- serializeResponse p ;; deserializeResponse buf) = Ok p.
Proof.
  intros Hv (Httl & Hwf & Hl & Hr).
  assert (Hst : 0 <= Response.status p < 256).
  { revert Hv. unfold validateResponse.
    destruct (Z.eqb_spec (Response.status p) StatusCode.OK) as [->|];
      [intros _; unfold StatusCode.OK; lia|].
    destruct (Z.eqb_spec (Response.status p) StatusCode.NameTaken) as [->|];
      [intros _; unfold StatusCode.NameTaken; lia|].
    destruct (Z.eqb_spec (Response.status p) StatusCode.UnsupportedProto)
      as [->|]; [intros _; unfold StatusCode.UnsupportedProto; lia|].
    discriminate. }
  pose proof (buf_length_nonneg (utf8_encode (Response.domain p))) as Hnn.
  fold (byteLength (Response.domain p)) in Hnn.
  unfold serializeResponse. rewrite Hv. cbn [bind].
  set (buf := [to_byte (Response.status p)]
              ++ be_bytes 8 (Response.ttlHours p)
              ++ be_bytes 4 (Response.domainLength p)
              ++ utf8_encode (Response.domain p)).
  assert (Hlen : buf_length buf = RESPONSE_SIZE + Response.domainLength p).
  { unfold buf. rewrite !buf_length_app, !buf_length_be_bytes.
    fold (byteLength (Response.domain p)). rewrite <- Hl.
    unfold RESPONSE_SIZE, buf_length. cbn [List.length]. lia. }
  assert (Hstatus : getUint8 buf 0 = Response.status p).
  { unfold buf. cbn [app]. unfold getUint8. cbn [nth].
    now apply byte_val_to_byte_small. }
  assert (Httl' : getBigUint64 buf 1 = Response.ttlHours p).
  { unfold buf. rewrite getBigUint64_at by reflexivity.
    now apply Z.mod_small. }
  assert (Hdl : getUint32 buf 9 = Response.domainLength p).
  { unfold buf. rewrite (app_assoc [_] (be_bytes 8 _)).
    rewrite getUint32_at
      by (rewrite length_app, be_bytes_length; reflexivity).
    apply Z.mod_small. lia. }
  assert (Hdom : subarray buf RESPONSE_SIZE
                   (RESPONSE_SIZE + Response.domainLength p)
                 = utf8_encode (Response.domain p)).
  { unfold buf. rewrite (app_assoc (be_bytes 8 _)), (app_assoc [_]).
    rewrite <- (app_nil_r (utf8_encode (Response.domain p))) at 1.
    apply subarray_at.
    - rewrite !length_app, !be_bytes_length. reflexivity.
    - rewrite Hl. unfold byteLength, buf_length. lia. }
  unfold deserializeResponse. rewrite Hlen, Hstatus, Httl', Hdl, Hdom.
  destruct (Z.ltb_spec (RESPONSE_SIZE + Response.domainLength p)
              RESPONSE_SIZE); [lia|].
  rewrite Z.ltb_irrefl, utf8_decode_encode by assumption.
  assert (E : Response.new (Response.status p) (Response.ttlHours p)
                (Response.domain p) = p).
  { unfold Response.new. rewrite <- Hl. now destruct p. }
  rewrite E, Hv. reflexivity.
Qed.

Lemma getBigUint64_head (v : Z) (rest : Buffer) :
  getBigUint64 (be_bytes 8 v ++ rest) 0 = v mod 2 ^ 64.
Proof. exact (getBigUint64_at [] v rest 0 eq_refl). Qed.

Lemma metrics_round_trip (m : Metrics.t) :
  wire_metrics m -> deserializeMetrics (serializeMetrics m) = Ok m.
Proof.
  intros (Hi & He & Hu & Hc & Ha).
  unfold deserializeMetrics, serializeMetrics.
  set (i := be_bytes 8 (Metrics.ingress m)).
  set (e := be_bytes 8 (Metrics.egress m)).
  set (u := be_bytes 8 (Metrics.uptime m)).
  set (c := be_bytes 8 (Metrics.connectionCount m)).
  set (a := be_bytes 4 (Metrics.activeConnections m)).
  assert (Li : List.length i = 8%nat) by apply be_bytes_length.
  assert (Le : List.length e = 8%nat) by apply be_bytes_length.
  assert (Lu : List.length u = 8%nat) by apply be_bytes_length.
  assert (Lc : List.length c = 8%nat) by apply be_bytes_length.
  assert (H0 : getBigUint64 (i ++ e ++ u ++ c ++ a) 0 = Metrics.ingress m).
  { unfold i. rewrite getBigUint64_head. now apply Z.mod_small. }
  assert (H8 : getBigUint64 (i ++ e ++ u ++ c ++ a) 8 = Metrics.egress m).
  { unfold e. rewrite getBigUint64_at by assumption. now apply Z.mod_small. }
  assert (H16 : getBigUint64 (i ++ e ++ u ++ c ++ a) 16 = Metrics.uptime m).
  { rewrite (app_assoc i e). unfold u.
    rewrite getBigUint64_at by (rewrite length_app, Li, Le; reflexivity).
    now apply Z.mod_small. }
  assert (H24 : getBigUint64 (i ++ e ++ u ++ c ++ a) 24
                = Metrics.connectionCount m).
  { rewrite (app_assoc e u), (app_assoc i (e ++ u)). unfold c.
    rewrite getBigUint64_at
      by (rewrite !length_app, Li, Le, Lu; reflexivity).
    now apply Z.mod_small. }
  assert (H32 : getUint32 (i ++ e ++ u ++ c ++ a) 32
                = Metrics.activeConnections m).
  { rewrite (app_assoc u c), (app_assoc e (u ++ c)),
      (app_assoc i (e ++ u ++ c)).
    rewrite <- (app_nil_r a). unfold a.
    rewrite getUint32_at
      by (rewrite !length_app, Li, Le, Lu, Lc; reflexivity).
    now apply Z.mod_small. }
  rewrite H0, H8, H16, H24, H32.
  rewrite !buf_length_app. unfold buf_length.
  rewrite Li, Le, Lu, Lc. unfold a. rewrite be_bytes_length.
  change (Z.of_nat 8 + (Z.of_nat 8 + (Z.of_nat 8 + (Z.of_nat 8 + Z.of_nat 4)))
          <? METRICS_SIZE) with false. cbv iota.
  now destruct m.
Qed.

(** C1, as the code has it.  Deserializing the serialization of a value
    gives the value back for: a header that passes [validateHeader] and whose
    fields fit their wire widths; a request that passes [validateRequest]
    and whose name has no unpaired surrogate; a response that passes
    [validateResponse], whose [ttlHours] fits 64 bits, whose domain has no
    unpaired surrogate and whose [domainLength] is the byte length of the
    domain; a metrics record whose counters fit their wire widths. *)
Theorem codec_round_trip :
  (forall h : Header.t,
     validateHeader h = Ok tt -> wire_header h ->
     (buf <- serializeHeader h ;; deserializeHeader buf) = Ok h)
  /\ (forall r : Request.t,
        validateRequest r = Ok tt -> well_formed (Request.name r) = true ->
        (buf <- serializeRequest r ;; deserializeRequest buf) = Ok r)
  /\ (forall p : Response.t,
        validateResponse p = Ok tt -> wire_response p ->
        (buf <- serializeResponse p ;; deserializeResponse buf) = Ok p)
  /\ (forall m : Metrics.t,
        wire_metrics m -> deserializeMetrics (serializeMetrics m) = Ok m).
Proof.
  split; [exact header_round_trip|].
  split; [exact request_round_trip|].
  split; [exact response_round_trip | exact metrics_round_trip].
Qed.

(** The four values of the repository's unit tests. *)
Lemma codec_round_trip_witness :
  (let h := Header.new MessageType.Ack 420 in
   (buf <- serializeHeader h ;; deserializeHeader buf) = Ok h)
  /\ (let r := Request.new ProtoType.TCP (js "hello") in
      (buf <- serializeRequest r ;; deserializeRequest buf) = Ok r)
  /\ (let p := Response.new StatusCode.OK 60000 (js "test.com") in
      (buf <- serializeResponse p ;; deserializeResponse buf) = Ok p)
  /\ (let m := Metrics.make 420 69 20000 111 222 in
      deserializeMetrics (serializeMetrics m) = Ok m).
Proof.
  destruct codec_round_trip as (Hh & Hr & Hp & Hm).
  split; [|split; [|split]]; cbv zeta.
  - apply Hh; [reflexivity|]. vm_compute. intuition discriminate.
  - apply Hr; reflexivity.
  - apply Hp; [reflexivity|]. vm_compute. intuition discriminate.
  - apply Hm. vm_compute. intuition discriminate.
Defined.

(** C1 as stated fails: each of these values passes its validator (metrics
    have none) and does not come back from a round trip.
    - [new Header(Ack, -1n)]: the length is written as 2^64 - 1, which
      [deserializeHeader] refuses.
    - a header after [setFlag(0x100)], and a header of type 260: flags and
      type are written modulo 256.
    - [new Request(TCP, "\uD800")]: the unpaired surrogate is encoded as
      U+FFFD, so another name comes back.
    - a NameTaken response with [domainLength] 5 and no domain: the buffer
      is five bytes short of what it declares.
    - [new Response(NameTaken, -1n, "")]: [ttlHours] comes back as
      2^64 - 1.
    - [new Metrics(-1n, 0n, 0n, 0n, 2 ** 32)]: the counter comes back as
      2^64 - 1 and the number of active connections as 0. *)
Lemma round_trip_fails_outside_the_wire_ranges :
  (let h := Header.new MessageType.Ack (-1) in
   validateHeader h = Ok tt
   /\ (buf <- serializeHeader h ;; deserializeHeader buf)
      = Err PayloadTooLarge)
  /\ (let h := Header.setFlag (Header.new MessageType.Ack 0) 0x100 in
      validateHeader h = Ok tt
      /\ (buf <- serializeHeader h ;; deserializeHeader buf)
         = Ok (Header.new MessageType.Ack 0)
      /\ Header.new MessageType.Ack 0 <> h)
  /\ (let h := Header.new 260 0 in
      validateHeader h = Ok tt
      /\ (buf <- serializeHeader h ;; deserializeHeader buf)
         = Ok (Header.new MessageType.Ack 0)
      /\ Header.new MessageType.Ack 0 <> h)
  /\ (let r := Request.new ProtoType.TCP [0xD800] in
      validateRequest r = Ok tt
      /\ (buf <- serializeRequest r ;; deserializeRequest buf)
         = Ok (Request.new ProtoType.TCP [0xFFFD])
      /\ Request.new ProtoType.TCP [0xFFFD] <> r)
  /\ (let p := Response.make StatusCode.NameTaken 0 5 [] in
      validateResponse p = Ok tt
      /\ (buf <- serializeResponse p ;; deserializeResponse buf)
         = Err InsufficientData)
  /\ (let p := Response.new StatusCode.NameTaken (-1) [] in
      validateResponse p = Ok tt
      /\ (buf <- serializeResponse p ;; deserializeResponse buf)
         = Ok (Response.new StatusCode.NameTaken (2 ^ 64 - 1) [])
      /\ Response.new StatusCode.NameTaken (2 ^ 64 - 1) [] <> p)
  /\ (let m := Metrics.make (-1) 0 0 0 (2 ^ 32) in
      deserializeMetrics (serializeMetrics m)
      = Ok (Metrics.make (2 ^ 64 - 1) 0 0 0 0)
      /\ Metrics.make (2 ^ 64 - 1) 0 0 0 0 <> m).
Proof.
  cbv zeta. repeat split; try (vm_compute; reflexivity);
    vm_compute; discriminate.
Qed.

(** [deserializeHeader] does not look at the type: whatever the type byte
    [t] and the flags byte [f], twelve bytes with version 0x10, a length
    within the limit and a zero reserved byte decode to a header of type
    [t]. *)
Lemma deserializeHeader_any_type (t f : Byte.byte) (len : Z) :
  0 <= len <= MAX_PAYLOAD_SIZE ->
  deserializeHeader
    ([to_byte VERSION; t; f] ++ be_bytes 8 len ++ [to_byte 0])
  = Ok (Header.make VERSION (byte_val t) (byte_val f) len 0).
Proof.
  intro Hlen.
  pose proof (byte_val_range t) as Ht. pose proof (byte_val_range f) as Hf.
  assert (Hw : wire_header
                 (Header.make VERSION (byte_val t) (byte_val f) len 0)).
  { unfold wire_header, VERSION, MAX_PAYLOAD_SIZE in *.
    cbn [Header.version Header.type Header.flags Header.length
         Header.reserved]. lia. }
  pose proof (deserializeHeader_layout _ Hw) as H.
  unfold header_layout in H.
  cbn [Header.version Header.type Header.flags Header.length
       Header.reserved] in H.
  rewrite !to_byte_byte_val in H. rewrite H.
  unfold validateHeader.
  cbn [Header.version Header.length Header.reserved].
  rewrite Z.eqb_refl. cbn [negb].
  destruct (Z.gtb_spec len MAX_PAYLOAD_SIZE); [lia | reflexivity].
Qed.

(** ** The 32-bit operators *)

Lemma ToInt32_range (x : Z) : int32 (ToInt32 x).
Proof.
  unfold int32, ToInt32.
  change (2 ^ 31) with 2147483648. change (2 ^ 32) with 4294967296. arith.
Qed.

Lemma ToInt32_small (x : Z) : int32 x -> ToInt32 x = x.
Proof.
  unfold int32, ToInt32.
  change (2 ^ 31) with 2147483648. change (2 ^ 32) with 4294967296.
  intro H. arith.
Qed.

Lemma int32_shiftr (x : Z) :
  int32 x <-> Z.shiftr x 31 = 0 \/ Z.shiftr x 31 = -1.
Proof.
  rewrite Z.shiftr_div_pow2 by lia. unfold int32.
  change (2 ^ 31) with 2147483648. split; intro H; arith.
Qed.

Lemma int32_lor (a b : Z) : int32 a -> int32 b -> int32 (Z.lor a b).
Proof.
  rewrite !int32_shiftr, Z.shiftr_lor.
  intros [-> | ->] [-> | ->]; cbn; tauto.
Qed.

Lemma int32_land (a b : Z) : int32 a -> int32 b -> int32 (Z.land a b).
Proof.
  rewrite !int32_shiftr, Z.shiftr_land.
  intros [-> | ->] [-> | ->]; cbn; tauto.
Qed.

Lemma int32_lnot (a : Z) : int32 a -> int32 (Z.lnot a).
Proof. unfold int32, Z.lnot. lia. Qed.

Lemma ToInt32_low_bits (x i : Z) :
  0 <= i < 32 -> Z.testbit (ToInt32 x) i = Z.testbit x i.
Proof.
  intro Hi.
  rewrite <- (Z.mod_pow2_bits_low (ToInt32 x) 32 i) by lia.
  rewrite <- (Z.mod_pow2_bits_low x 32 i) by lia.
  f_equal. unfold ToInt32.
  change (2 ^ 31) with 2147483648. change (2 ^ 32) with 4294967296. arith.
Qed.

(** Above bit 31 a 32-bit value repeats its sign bit. *)
Lemma int32_high_bits (x i : Z) :
  int32 x -> 31 <= i -> Z.testbit x i = Z.testbit x 31.
Proof.
  intros Hx Hi.
  replace i with ((i - 31) + 31) by lia.
  rewrite <- (Z.shiftr_spec x 31 (i - 31)) by lia.
  change (Z.testbit x 31) with (Z.testbit x (0 + 31)).
  rewrite <- (Z.shiftr_spec x 31 0) by lia.
  apply int32_shiftr in Hx. destruct Hx as [-> | ->].
  - now rewrite !Z.bits_0.
  - now rewrite !Z.bits_m1 by lia.
Qed.

Lemma nonzero_has_bit (x : Z) :
  x <> 0 -> exists i, 0 <= i /\ Z.testbit x i = true.
Proof.
  intro Hx. destruct (Z.lt_trichotomy x 0) as [Hn|[H0|Hp]].
  - apply Z.bits_iff_neg_ex in Hn. destruct Hn as [k Hk].
    exists (Z.max 0 (k + 1)). split; [lia|]. apply Hk. lia.
  - contradiction.
  - exists (Z.log2 x). split; [apply Z.log2_nonneg | now apply Z.bit_log2].
Qed.

Lemma js_and_bits (a b : Z) :
  js_and a b <> 0 <->
  exists i, 0 <= i < 32 /\ Z.testbit a i = true /\ Z.testbit b i = true.
Proof.
  unfold js_and. split.
  - intro H. apply nonzero_has_bit in H. destruct H as (i & Hi & Hb).
    rewrite Z.land_spec in Hb. apply andb_prop in Hb. destruct Hb as [Ha Hb].
    destruct (Z.lt_ge_cases i 32) as [Hlt|Hge].
    + exists i. rewrite !ToInt32_low_bits in * by lia.
      repeat split; lia || assumption.
    + exists 31.
      rewrite (int32_high_bits _ i (ToInt32_range a)) in Ha by lia.
      rewrite (int32_high_bits _ i (ToInt32_range b)) in Hb by lia.
      rewrite !ToInt32_low_bits in * by lia. repeat split; lia || assumption.
  - intros (i & Hi & Ha & Hb) H0.
    assert (Hbit : Z.testbit (Z.land (ToInt32 a) (ToInt32 b)) i = true).
    { rewrite Z.land_spec, !ToInt32_low_bits by lia. now rewrite Ha, Hb. }
    rewrite H0, Z.bits_0 in Hbit. discriminate.
Qed.

Lemma land_lnot_fixed (a f : Z) :
  Z.land a (Z.lnot f) = a <-> Z.land a f = 0.
Proof.
  split; intro H.
  - rewrite <- H, <- Z.land_assoc, (Z.land_comm (Z.lnot f)),
      Z.land_lnot_diag. apply Z.land_0_r.
  - rewrite <- (Z.land_m1_r a) at 2.
    rewrite <- (Z.lor_lnot_diag f), Z.land_lor_distr_r, H. reflexivity.
Qed.

Lemma set_then_clear_flags (a f : Z) :
  js_and (js_or a f) (js_not f) = js_and a (js_not f).
Proof.
  unfold js_and, js_or, js_not.
  rewrite (ToInt32_small (Z.lor _ _))
    by (apply int32_lor; apply ToInt32_range).
  rewrite Z.land_lor_distr_l.
  rewrite (ToInt32_small (Z.lnot _))
    by (apply int32_lnot, ToInt32_range).
  rewrite Z.land_lnot_diag. apply Z.lor_0_r.
Qed.

Lemma with_flags_same (h : Header.t) (x : Z) :
  Header.with_flags h x = h <-> x = Header.flags h.
Proof.
  destruct h as [v t fl l r]. unfold Header.with_flags. cbn. split.
  - intro H. now injection H.
  - now intros ->.
Qed.

(** C3, as the code has it.  [setFlag(f)] is idempotent.  [clearFlag(f)]
    after [setFlag(f)] leaves the flags that [clearFlag(f)] alone would
    leave, that is the flags with the bits of [f] cleared; for flags in the
    32-bit range this is the state before [setFlag(f)] exactly when
    [hasFlag(f)] was false then.  [hasFlag(f)] is true exactly when the flags
    and [f] share one of the 32 low bits, that is when [(flags & f) != 0]. *)
Theorem flag_algebra (h : Header.t) (f : Z) :
  Header.setFlag (Header.setFlag h f) f = Header.setFlag h f
  /\ Header.clearFlag (Header.setFlag h f) f = Header.clearFlag h f
  /\ (int32 (Header.flags h) ->
      (Header.clearFlag (Header.setFlag h f) f = h <->
       Header.hasFlag h f = false))
  /\ (Header.hasFlag h f = true <->
      exists i, 0 <= i < 32 /\ Z.testbit (Header.flags h) i = true
                /\ Z.testbit f i = true)
  /\ (int32 (Header.flags h) -> int32 f ->
      (Header.hasFlag h f = true <-> Z.land (Header.flags h) f <> 0)).
Proof.
  assert (Hhas : Header.hasFlag h f = true <-> js_and (Header.flags h) f <> 0).
  { unfold Header.hasFlag.
    destruct (Z.eqb_spec (js_and (Header.flags h) f) 0) as [E|E]; cbn [negb].
    - split; [discriminate | contradiction].
    - split; [intros _; exact E | reflexivity]. }
  split; [|split; [|split; [|split]]].
  - unfold Header.setFlag, Header.with_flags.
    cbn [Header.version Header.type Header.flags Header.length
         Header.reserved].
    f_equal. unfold js_or.
    rewrite (ToInt32_small (Z.lor _ _))
      by (apply int32_lor; apply ToInt32_range).
    now rewrite <- Z.lor_assoc, Z.lor_diag.
  - unfold Header.clearFlag, Header.setFlag, Header.with_flags.
    cbn [Header.version Header.type Header.flags Header.length
         Header.reserved].
    f_equal. apply set_then_clear_flags.
  - intro Hr.
    assert (E : Header.clearFlag (Header.setFlag h f) f
                = Header.with_flags h
                    (js_and (js_or (Header.flags h) f) (js_not f)))
      by reflexivity.
    rewrite E. clear E.
    rewrite with_flags_same, set_then_clear_flags.
    unfold js_and at 1, js_not.
    rewrite (ToInt32_small (Z.lnot _)) by (apply int32_lnot, ToInt32_range).
    rewrite (ToInt32_small (Header.flags h)) by assumption.
    rewrite land_lnot_fixed.
    rewrite <- (ToInt32_small (Header.flags h)) at 1 by assumption.
    fold (js_and (Header.flags h) f).
    unfold Header.hasFlag.
    destruct (Z.eqb_spec (js_and (Header.flags h) f) 0); cbn [negb];
      split; intros; congruence.
  - rewrite Hhas. apply js_and_bits.
  - intros Hr Hf. rewrite Hhas. unfold js_and.
    now rewrite !ToInt32_small by assumption.
Qed.

(** On a fresh header, setting and then clearing the metrics flag restores
    the flags; the flag was not set before. *)
Lemma flag_algebra_witness :
  let h := Header.new MessageType.Ack 0 in
  Header.clearFlag (Header.setFlag h FLAG_METRICS) FLAG_METRICS = h.
Proof.
  intro h.
  destruct (flag_algebra h FLAG_METRICS) as (_ & _ & H & _).
  apply H; [vm_compute; intuition discriminate | reflexivity].
Defined.

(** C3 as stated fails: when the flag is already set, [clearFlag] after
    [setFlag] does not return to the state before [setFlag]. *)
Lemma clearFlag_after_setFlag_loses_a_set_flag :
  let h := Header.setFlag (Header.new MessageType.Ack 0) FLAG_METRICS in
  Header.flags h = 1
  /\ Header.flags
       (Header.clearFlag (Header.setFlag h FLAG_METRICS) FLAG_METRICS) = 0
  /\ Header.clearFlag (Header.setFlag h FLAG_METRICS) FLAG_METRICS <> h.
Proof.
  cbv zeta. repeat split; try (vm_compute; reflexivity).
  vm_compute. discriminate.
Qed.

(** ** The framed reader *)

Lemma buf_length_firstn (n : Z) (b : Buffer) :
  0 <= n <= buf_length b -> buf_length (firstn (Z.to_nat n) b) = n.
Proof. apply buf_length_prefix. Qed.

(** On a stream that has not ended, [read(n)] gives all [n] bytes or
    nothing, so the listener resolves in one go or leaves [buf] empty. *)
Lemma onReadable_open (n : Z) (s : Readable) :
  rd_ended s = false -> 0 < n ->
  onReadable n [] s
  = if n <=? buf_length (rd_buffer s)
    then (true, firstn (Z.to_nat n) (rd_buffer s), consume n s)
    else (false, [], s).
Proof.
  intros He Hn. unfold onReadable. cbn [onReadable_loop].
  unfold stream_read. change (buf_length []) with 0. rewrite Z.sub_0_r.
  destruct (Z.leb_spec n 0); [lia|].
  destruct (Z.leb_spec n (buf_length (rd_buffer s))) as [Hle|Hgt].
  - cbn [app]. rewrite buf_length_firstn by lia.
    rewrite Z.eqb_refl. reflexivity.
  - rewrite He. reflexivity.
Qed.

Lemma on_readable_then_end_open (n : Z) (s : Readable) :
  rd_ended s = false -> 0 < n ->
  on_readable_then_end n [] s
  = if n <=? buf_length (rd_buffer s)
    then (Resolved (firstn (Z.to_nat n) (rd_buffer s)),
          firstn (Z.to_nat n) (rd_buffer s), consume n s)
    else (Pending, [], s).
Proof.
  intros He Hn. unfold on_readable_then_end.
  rewrite onReadable_open by assumption.
  destruct (n <=? buf_length (rd_buffer s)); [reflexivity|].
  unfold end_due. rewrite He. reflexivity.
Qed.

Lemma firstn_app_enough {A : Type} (n : nat) (l1 l2 : list A) :
  (n <= List.length l1)%nat -> firstn n (l1 ++ l2) = firstn n l1.
Proof.
  intro H. rewrite firstn_app.
  replace (n - List.length l1)%nat with 0%nat by lia.
  now rewrite firstn_0, app_nil_r.
Qed.

Lemma skipn_app_enough {A : Type} (n : nat) (l1 l2 : list A) :
  (n <= List.length l1)%nat -> skipn n (l1 ++ l2) = skipn n l1 ++ l2.
Proof.
  intro H. rewrite skipn_app.
  replace (n - List.length l1)%nat with 0%nat by lia. reflexivity.
Qed.

Lemma readN_listen_delivers (n : Z) (chunks : list Buffer) :
  forall (s : Readable) (rest : list StreamEvent),
    open_stream s -> 0 < n ->
    buf_length (rd_buffer s) < n ->
    n <= buf_length (rd_buffer s ++ List.concat chunks) ->
    exists s' events',
      readN_listen n [] s (map Push chunks ++ rest)
      = (Resolved (firstn (Z.to_nat n) (rd_buffer s ++ List.concat chunks)),
         s', events')
      /\ delivers s' events'
           (skipn (Z.to_nat n) (rd_buffer s ++ List.concat chunks)).
Proof.
  induction chunks as [|c chunks IH]; intros s rest Hopen Hn Hlt Hge.
  - cbn [List.concat] in Hge. rewrite app_nil_r in Hge. lia.
  - cbn [map app readN_listen List.concat].
    set (s1 := deliver (Push c) s).
    assert (Hopen1 : open_stream s1) by exact Hopen.
    rewrite on_readable_then_end_open by (apply Hopen1 || assumption).
    change (rd_buffer s1) with (rd_buffer s ++ c).
    rewrite (app_assoc (rd_buffer s) c).
    destruct (Z.leb_spec n (buf_length (rd_buffer s ++ c))) as [Hle|Hgt].
    + exists (consume n s1), (map Push chunks ++ rest).
      assert (Hnat : (Z.to_nat n <= List.length (rd_buffer s ++ c))%nat)
        by (unfold buf_length in Hle; lia).
      rewrite (firstn_app_enough _ (rd_buffer s ++ c) (List.concat chunks))
        by assumption.
      split; [reflexivity|].
      split; [exact Hopen1|].
      exists chunks, rest. split; [reflexivity|].
      cbn [consume rd_buffer]. change (rd_buffer s1) with (rd_buffer s ++ c).
      now rewrite (skipn_app_enough _ (rd_buffer s ++ c) (List.concat chunks)).
    + apply (IH s1 rest Hopen1 Hn Hgt).
      change (rd_buffer s1) with (rd_buffer s ++ c).
      now rewrite <- app_assoc.
Qed.

(** The framed reader for [n >= 1]: when the stream holds at least [n] bytes
    for its reader, in whatever chunks, [readN] resolves with the first [n]
    of them, and the bytes after these are all still held by the stream. *)
Lemma readN_exact (n : Z) (s : Readable) (events : list StreamEvent)
  (bytes : Buffer) :
  delivers s events bytes -> 0 < n <= buf_length bytes ->
  exists s' events',
    readN n s events = (Resolved (firstn (Z.to_nat n) bytes), s', events')
    /\ delivers s' events' (skipn (Z.to_nat n) bytes).
Proof.
  intros (Hopen & chunks & rest & -> & <-) Hn.
  unfold readN.
  rewrite on_readable_then_end_open by (apply Hopen || lia).
  destruct (Z.leb_spec n (buf_length (rd_buffer s))) as [Hle|Hgt].
  - exists (consume n s), (map Push chunks ++ rest).
    assert (Hnat : (Z.to_nat n <= List.length (rd_buffer s))%nat)
      by (unfold buf_length in Hle; lia).
    rewrite firstn_app_enough by assumption. split; [reflexivity|].
    split; [exact Hopen|].
    exists chunks, rest. split; [reflexivity|].
    cbn [consume rd_buffer]. now rewrite skipn_app_enough.
  - apply readN_listen_delivers; assumption || lia.
Qed.

Lemma onReadable_at_eof (n : Z) (b : Buffer) (emitted : bool) :
  0 < n -> buf_length b < n ->
  onReadable n []
    {| rd_buffer := b; rd_ended := true; rd_endEmitted := emitted |}
  = (false, b,
     {| rd_buffer := []; rd_ended := true; rd_endEmitted := emitted |}).
Proof.
  intros Hn Hlt. unfold onReadable. cbn [rd_buffer].
  destruct b as [|x b'].
  - cbn [List.length onReadable_loop]. unfold stream_read.
    cbn [rd_buffer rd_ended]. change (buf_length []) with 0.
    rewrite Z.sub_0_r.
    destruct (Z.leb_spec n 0); [lia|]. reflexivity.
  - cbn [List.length onReadable_loop]. unfold stream_read at 1.
    cbn [rd_buffer rd_ended rd_endEmitted]. change (buf_length []) with 0.
    rewrite Z.sub_0_r.
    destruct (Z.leb_spec n 0); [lia|].
    destruct (Z.leb_spec n (buf_length (x :: b'))); [lia|].
    cbn [is_nil negb andb app].
    destruct (Z.eqb_spec (buf_length (x :: b')) n); [lia|].
    unfold stream_read. cbn [rd_buffer rd_ended rd_endEmitted].
    destruct (Z.leb_spec (n - buf_length (x :: b')) 0); [lia|].
    change (buf_length []) with 0.
    destruct (Z.leb_spec (n - buf_length (x :: b')) 0); [lia|].
    reflexivity.
Qed.

Lemma readN_listen_eof (n : Z) (chunks : list Buffer) :
  forall (s : Readable) (rest : list StreamEvent),
    open_stream s -> 0 < n ->
    buf_length (rd_buffer s ++ List.concat chunks) < n ->
    readN_listen n [] s (map Push chunks ++ Eof :: rest)
    = (Rejected StreamEnded, finished_stream, rest).
Proof.
  induction chunks as [|c chunks IH]; intros s rest Hopen Hn Hlt.
  - cbn [List.concat] in Hlt. rewrite app_nil_r in Hlt.
    cbn [map app readN_listen]. destruct s as [b e m].
    destruct Hopen as [He Hm]. cbn in He, Hm. subst e m.
    unfold on_readable_then_end. cbn [deliver rd_buffer rd_endEmitted].
    rewrite onReadable_at_eof by assumption. reflexivity.
  - cbn [map app readN_listen List.concat].
    set (s1 := deliver (Push c) s).
    assert (Hopen1 : open_stream s1) by exact Hopen.
    assert (Hlt1 : buf_length (rd_buffer s1 ++ List.concat chunks) < n).
    { change (rd_buffer s1) with (rd_buffer s ++ c).
      now rewrite <- app_assoc. }
    rewrite on_readable_then_end_open by (apply Hopen1 || assumption).
    destruct (Z.leb_spec n (buf_length (rd_buffer s1))) as [Hle|Hgt].
    + rewrite buf_length_app in Hlt1.
      pose proof (buf_length_nonneg (List.concat chunks)). lia.
    + now apply IH.
Qed.

(** The framed reader at the end of the stream: when the stream ends after
    fewer than [n] bytes, [readN] has consumed them and rejects with "Stream
    ended before reading enough data". *)
Lemma readN_eof (n : Z) (s : Readable) (chunks : list Buffer)
  (rest : list StreamEvent) :
  open_stream s -> 0 < n ->
  buf_length (rd_buffer s ++ List.concat chunks) < n ->
  readN n s (map Push chunks ++ Eof :: rest)
  = (Rejected StreamEnded, finished_stream, rest).
Proof.
  intros Hopen Hn Hlt. unfold readN.
  rewrite on_readable_then_end_open by (apply Hopen || assumption).
  destruct (Z.leb_spec n (buf_length (rd_buffer s))) as [Hle|Hgt].
  - rewrite buf_length_app in Hlt.
    pose proof (buf_length_nonneg (List.concat chunks)). lia.
  - now apply readN_listen_eof.
Qed.

(** An error of the stream rejects [readN] with that error. *)
Lemma readN_fault (n : Z) (s : Readable) (msg : jsstring)
  (rest : list StreamEvent) :
  open_stream s -> 0 < n -> buf_length (rd_buffer s) < n ->
  readN n s (Fault msg :: rest) = (Rejected (TransportError msg), s, rest).
Proof.
  intros Hopen Hn Hlt. unfold readN.
  rewrite on_readable_then_end_open by (apply Hopen || assumption).
  destruct (Z.leb_spec n (buf_length (rd_buffer s))); [lia | reflexivity].
Qed.

(** With nothing to read, [read(0)] is [null] and the loop ends at once. *)
Lemma onReadable_nothing_wanted (n : Z) (buf : Buffer) (s : Readable) :
  n <= buf_length buf -> onReadable n buf s = (false, buf, s).
Proof.
  intro H. unfold onReadable. cbn [onReadable_loop]. unfold stream_read.
  destruct (Z.leb_spec (n - buf_length buf) 0); [reflexivity | lia].
Qed.

Lemma readN_listen_zero (events : list StreamEvent) :
  forall (buf : Buffer) (s : Readable) (out : Buffer),
    outcome_of (readN_listen 0 buf s events) <> Resolved out.
Proof.
  induction events as [|ev events IH]; intros buf s out.
  - discriminate.
  - destruct ev as [c| |msg]; cbn [readN_listen]; [| |discriminate];
      unfold on_readable_then_end;
      rewrite onReadable_nothing_wanted by apply buf_length_nonneg;
      (destruct (end_due _); [discriminate | apply IH]).
Qed.

(** C4 at [n = 0].  [readN(stream, 0)] never resolves: [read(0)] returns
    [null], so the length test inside the loop is never reached.  The promise
    stays pending while the stream is open or holds unread bytes, and is
    rejected when the stream ends drained.  The claim has it resolve with
    the empty buffer. *)
Theorem readN_of_zero_bytes :
  (forall (s : Readable) (events : list StreamEvent) (out : Buffer),
     outcome_of (readN 0 s events) <> Resolved out)
  /\ outcome_of (readN 0 fresh_stream []) = Pending
  /\ outcome_of (readN 0 fresh_stream [Push [Byte.x01]; Eof]) = Pending
  /\ outcome_of (readN 0 fresh_stream [Eof]) = Rejected StreamEnded.
Proof.
  split; [|repeat split].
  intros s events out. unfold readN, on_readable_then_end.
  rewrite onReadable_nothing_wanted by apply buf_length_nonneg.
  destruct (end_due s); [discriminate | apply readN_listen_zero].
Qed.

Lemma stream_read_shrinks (size : Z) (s s' : Readable) (chunk : Buffer) :
  stream_read size s = (Some chunk, s') ->
  (List.length (rd_buffer s') < List.length (rd_buffer s))%nat.
Proof.
  unfold stream_read.
  destruct (Z.leb_spec size 0); [discriminate|].
  destruct (Z.leb_spec size (buf_length (rd_buffer s))) as [Hle|Hgt].
  - intro E. injection E as _ <-. cbn [rd_buffer].
    rewrite length_skipn. unfold buf_length in Hle. lia.
  - destruct (rd_ended s); [|discriminate].
    destruct (rd_buffer s) as [|x b]; [discriminate|].
    intro E. injection E as _ <-. cbn. lia.
Qed.

(** The bound of [onReadable] on its loop is never reached: more fuel
    changes nothing. *)
Lemma onReadable_loop_fuel (fuel : nat) :
  forall (n : Z) (buf : Buffer) (s : Readable) (more : nat),
    (List.length (rd_buffer s) < fuel)%nat ->
    onReadable_loop (fuel + more) n buf s = onReadable_loop fuel n buf s.
Proof.
  induction fuel as [|fuel IH]; intros n buf s more Hlt; [lia|].
  cbn [Nat.add onReadable_loop].
  destruct (stream_read (n - buf_length buf) s) as [[chunk|] s'] eqn:E;
    [|reflexivity].
  destruct (buf_length (buf ++ chunk) =? n); [reflexivity|].
  apply IH. apply stream_read_shrinks in E. lia.
Qed.

(** ** The handshake *)

Lemma await_readN_exact (n : Z) (w : World) (bytes : Buffer) :
  delivers (w_stream w) (w_script w) bytes -> 0 < n <= buf_length bytes ->
  exists w',
    await_readN n w = (Resolved (firstn (Z.to_nat n) bytes), w')
    /\ w_client w' = w_client w /\ w_trace w' = w_trace w
    /\ w_session w' = w_session w /\ w_expiry w' = w_expiry w
    /\ delivers (w_stream w') (w_script w') (skipn (Z.to_nat n) bytes).
Proof.
  intros Hd Hn.
  destruct (readN_exact n _ _ _ Hd Hn) as (s' & ev' & Hr & Hd').
  unfold await_readN. rewrite Hr.
  eexists. split; [reflexivity|]. cbn. repeat split; apply Hd'.
Qed.

Lemma request_frames_exist (c : Client.t) :
  validateRequest (Request.new (Client.proto c) (Client.name c)) = Ok tt ->
  exists head body, request_frames c head body.
Proof.
  intro Hv. unfold request_frames.
  destruct (validateRequest_ok _ Hv) as (_ & _ & Hr).
  cbn [Request.new Request.nameLength Request.name] in Hr.
  unfold serializeRequest. rewrite Hv. cbn [bind].
  cbn [Request.new Request.proto Request.nameLength Request.name].
  set (body := [to_byte (Client.proto c)] ++ _).
  assert (Hlen : buf_length body <= MAX_PAYLOAD_SIZE).
  { unfold body. rewrite !buf_length_app, buf_length_be_bytes.
    fold (byteLength (Client.name c)).
    change (buf_length [to_byte (Client.proto c)]) with 1.
    unfold MAX_STRING_LENGTH, MAX_PAYLOAD_SIZE in *. lia. }
  pose (header :=
          let header := Header.new MessageType.Request (buf_length body) in
          if Client.metrics c then Header.setFlag header FLAG_METRICS
          else header).
  assert (Hvalid : validateHeader header = Ok tt).
  { apply validateHeader_ok. unfold header. cbv zeta.
    destruct (Client.metrics c); repeat split; exact Hlen. }
  exists (header_layout header), body. split; [reflexivity|].
  fold header.
  rewrite serializeHeader_validate, Hvalid. reflexivity.
Qed.

Lemma Ok_inj {A : Type} (a b : A) : Ok a = Ok b -> a = b.
Proof. congruence. Qed.

Lemma request_frames_unique (c : Client.t) (head body head' body' : Buffer) :
  request_frames c head body -> request_frames c head' body' ->
  head = head' /\ body = body'.
Proof.
  intros [Hb Hh] [Hb' Hh']. rewrite Hb in Hb'. apply Ok_inj in Hb'.
  subst body'. rewrite Hh in Hh'. apply Ok_inj in Hh'. now subst.
Qed.

Lemma header_layout_nat_length (h : Header.t) :
  List.length (header_layout h) = 12%nat.
Proof.
  pose proof (header_layout_length h) as H. unfold buf_length in H. lia.
Qed.

Lemma firstn_header_layout (h : Header.t) (rest : Buffer) :
  firstn 12 (header_layout h ++ rest) = header_layout h.
Proof.
  rewrite firstn_app_enough by (rewrite header_layout_nat_length; lia).
  apply firstn_all2. rewrite header_layout_nat_length. lia.
Qed.

Lemma skipn_header_layout (h : Header.t) (rest : Buffer) :
  skipn 12 (header_layout h ++ rest) = rest.
Proof. apply skipn_at, header_layout_nat_length. Qed.

Lemma sendRequest_reply (w : World) (payload : Buffer) :
  handshake_reply w payload ->
  exists hdr extra head body w1,
    sendRequest w = (Resolved hdr, w1)
    /\ Header.type hdr = MessageType.Response
    /\ Header.length hdr = buf_length payload
    /\ validateHeader hdr = Ok tt
    /\ request_frames (w_client w) head body
    /\ w_client w1 = w_client w
    /\ w_trace w1 = w_trace w ++ [StreamWrite head; StreamWrite body]
    /\ w_session w1 = w_session w /\ w_expiry w1 = w_expiry w
    /\ delivers (w_stream w1) (w_script w1) (payload ++ extra).
Proof.
  intros (Hv & Hpos & hdr & extra & Hvh & Hwh & Hty & Hlen & Hd).
  destruct (request_frames_exist _ Hv) as (head & body & Hb & Hh).
  exists hdr, extra, head, body.
  unfold sendRequest, await, this. rewrite Hb. cbn [lift ret].
  cbv zeta in Hh. rewrite Hh. cbn [lift ret].
  unfold perform. cbv beta iota.
  set (w0 := {| w_client := w_client w; w_stream := w_stream w;
                w_script := w_script w; w_session := w_session w;
                w_expiry := w_expiry w;
                w_trace := w_trace w ++ [StreamWrite head; StreamWrite body]
             |}).
  destruct (await_readN_exact HEADER_SIZE w0
              (header_layout hdr ++ payload ++ extra))
    as (w1 & Hr & Hc & Ht & Hs & He & Hd1).
  { exact Hd. }
  { rewrite buf_length_app, header_layout_length.
    pose proof (buf_length_nonneg (payload ++ extra)).
    unfold HEADER_SIZE. lia. }
  rewrite Hr.
  change (Z.to_nat HEADER_SIZE) with 12%nat in *.
  rewrite firstn_header_layout. rewrite skipn_header_layout in Hd1.
  rewrite deserializeHeader_layout, Hvh by assumption.
  exists w1. cbn [bind lift ret].
  rewrite Hc, Ht, Hs, He. repeat split; try assumption; apply Hd1.
Qed.

Lemma handshake_reply_session (w : World) (payload : Buffer) :
  handshake_reply w payload ->
  handshake_reply (snd (open_session w)) payload.
Proof. intro H. exact H. Qed.

(** After a reply of type Response, [handleConnection] has opened the
    session and written its two frames, and goes on with the decoding of
    the payload. *)
Lemma handleConnection_reply (w : World) (payload : Buffer) :
  handshake_reply w payload ->
  exists head body w2,
    request_frames (w_client w) head body
    /\ w_client w2 = Client.with_session (w_client w)
    /\ w_trace w2
       = w_trace w ++ [SessionOpen; StreamWrite head; StreamWrite body]
    /\ w_session w2 = w_session w /\ w_expiry w2 = w_expiry w
    /\ handleConnection w
       = (response <~ lift (deserializeResponse payload) ;;
          on_status response) w2.
Proof.
  intro H. apply handshake_reply_session in H.
  set (w0 := snd (open_session w)) in *.
  destruct (sendRequest_reply w0 payload H)
    as (hdr & extra & head & body & w1 & Hs & Hty & Hlen & Hvh & Hf
        & Hc & Ht & Hse & He & Hd).
  destruct H as (_ & Hpos & _).
  destruct (await_readN_exact (Header.length hdr) w1 (payload ++ extra) Hd)
    as (w2 & Hr & Hc2 & Ht2 & Hs2 & He2 & _).
  { rewrite Hlen, buf_length_app.
    pose proof (buf_length_nonneg extra). lia. }
  exists head, body, w2.
  split; [exact Hf|].
  split; [rewrite Hc2, Hc; reflexivity|].
  split.
  { rewrite Ht2, Ht. unfold w0. cbn [open_session snd w_trace].
    now rewrite <- app_assoc. }
  split; [rewrite Hs2, Hse; reflexivity|].
  split; [rewrite He2, He; reflexivity|].
  unfold handleConnection. unfold await at 1.
  change (open_session w) with (Resolved tt, w0). cbv iota.
  unfold await at 1. rewrite Hs, Hty.
  change (MessageType.Response =? MessageType.Error) with false.
  change (negb (MessageType.Response =? MessageType.Response)) with false.
  cbv iota. unfold await at 1. rewrite Hr.
  replace (firstn (Z.to_nat (Header.length hdr)) (payload ++ extra))
    with payload; [reflexivity|].
  rewrite Hlen. unfold buf_length. rewrite Nat2Z.id.
  rewrite firstn_app_enough, firstn_all by lia. reflexivity.
Qed.

Lemma validateResponse_error_kind (p : Response.t) (e : Error) :
  validateResponse p = Err e -> protocol_error e = true.
Proof.
  unfold validateResponse.
  repeat match goal with |- context [if ?c then _ else _] => destruct c end;
    intro H; try discriminate; injection H as <-; reflexivity.
Qed.

(** Whatever [deserializeResponse] refuses, it refuses as a malformed
    frame. *)
Lemma deserializeResponse_error_kind (buf : Buffer) (e : Error) :
  deserializeResponse buf = Err e -> protocol_error e = true.
Proof.
  unfold deserializeResponse.
  destruct (buf_length buf <? RESPONSE_SIZE);
    [intro H; injection H as <-; reflexivity|].
  destruct (buf_length buf <? RESPONSE_SIZE + getUint32 buf 9);
    [intro H; injection H as <-; reflexivity|].
  cbv zeta.
  destruct (validateResponse _) as [[]|e'] eqn:E; cbn [bind];
    [discriminate|].
  intro H. injection H as <-. eapply validateResponse_error_kind, E.
Qed.

Lemma deserializeResponse_status (buf : Buffer) (p : Response.t) :
  deserializeResponse buf = Ok p ->
  Response.status p = getUint8 buf 0
  /\ (Response.status p = StatusCode.OK
      \/ Response.status p = StatusCode.NameTaken
      \/ Response.status p = StatusCode.UnsupportedProto)
  /\ validateResponse p = Ok tt.
Proof.
  unfold deserializeResponse.
  destruct (buf_length buf <? RESPONSE_SIZE); [discriminate|].
  destruct (buf_length buf <? RESPONSE_SIZE + getUint32 buf 9);
    [discriminate|].
  cbv zeta.
  destruct (validateResponse _) as [[]|e'] eqn:E; cbn [bind];
    [|discriminate].
  intro H. injection H as <-. split; [reflexivity|]. split; [|exact E].
  revert E. unfold validateResponse.
  cbn [Response.new Response.status].
  destruct (Z.eqb_spec (getUint8 buf 0) StatusCode.OK); [tauto|].
  destruct (Z.eqb_spec (getUint8 buf 0) StatusCode.NameTaken); [tauto|].
  destruct (Z.eqb_spec (getUint8 buf 0) StatusCode.UnsupportedProto);
    [tauto|].
  discriminate.
Qed.


Lemma aborts_prettyPrint (level : jsstring) (args : list jsstring) :
  aborts (prettyPrint level args) = false.
Proof. induction args as [|a args IH]; [reflexivity | exact IH]. Qed.

(** [run] once the dial has succeeded: the outcome of [handleConnection],
    unless it has aborted. *)
Lemma run_by_trace (w w' : World) (o : Settled unit)
  (effects : list Effect) :
  handleConnection w = (o, w') ->
  w_trace w' = w_trace w ++ effects ->
  run None w
  = if aborts effects
    then (Rejected Aborted, snd (perform [ConnDestroy] w'))
    else (o, w').
Proof.
  intros E Ht. cbn [run]. rewrite E, Ht.
  now rewrite (skipn_at (w_trace w) effects (List.length (w_trace w))).
Qed.

Lemma run_calm (w w' : World) (o : Settled unit) (effects : list Effect) :
  handleConnection w = (o, w') ->
  w_trace w' = w_trace w ++ effects ->
  aborts effects = false ->
  run None w = (o, w').
Proof.
  intros E Ht Ha. rewrite (run_by_trace w w' o effects E Ht), Ha.
  reflexivity.
Qed.

(** C6.  When the reply to the registration is a response of status
    NameTaken or UnsupportedProto, [run] writes one line to the console,
    "wormhole [err] subdomain '<name>' is already in use" or "wormhole [err]
    protocol '<proto>' is not supported", and resolves, and the client
    object is as it was when the session had been opened: no domain has been
    assigned.  When the status byte of the reply is none of OK, NameTaken,
    UnsupportedProto, [run] is rejected with the error of
    [deserializeResponse], which is a protocol error, and nothing is written
    to the console. *)
Theorem registration_outcomes (w : World) (payload : Buffer) :
  handshake_reply w payload ->
  (forall response : Response.t,
     deserializeResponse payload = Ok response ->
     Response.status response = StatusCode.NameTaken ->
     exists head body w',
       run None w = (Resolved tt, w')
       /\ request_frames (w_client w) head body
       /\ w_client w' = Client.with_session (w_client w)
       /\ getDomain (w_client w') = getDomain (w_client w)
       /\ w_trace w'
          = w_trace w
            ++ [SessionOpen; StreamWrite head; StreamWrite body;
                ConsoleLog (js "wormhole [err] subdomain '"
                            ++ Client.name (w_client w)
                            ++ js "' is already in use")])
  /\ (forall response : Response.t,
        deserializeResponse payload = Ok response ->
        Response.status response = StatusCode.UnsupportedProto ->
        exists head body w',
          run None w = (Resolved tt, w')
          /\ request_frames (w_client w) head body
          /\ w_client w' = Client.with_session (w_client w)
          /\ getDomain (w_client w') = getDomain (w_client w)
          /\ w_trace w'
             = w_trace w
               ++ [SessionOpen; StreamWrite head; StreamWrite body;
                   ConsoleLog (js "wormhole [err] protocol '"
                               ++ js_of_number (Client.proto (w_client w))
                               ++ js "' is not supported")])
  /\ (getUint8 payload 0 <> StatusCode.OK ->
      getUint8 payload 0 <> StatusCode.NameTaken ->
      getUint8 payload 0 <> StatusCode.UnsupportedProto ->
      exists e head body w',
        run None w = (Rejected e, w')
        /\ deserializeResponse payload = Err e
        /\ protocol_error e = true
        /\ request_frames (w_client w) head body
        /\ w_client w' = Client.with_session (w_client w)
        /\ getDomain (w_client w') = getDomain (w_client w)
        /\ w_trace w'
           = w_trace w ++ [SessionOpen; StreamWrite head; StreamWrite body]).
Proof.
  intro H.
  destruct (handleConnection_reply w payload H)
    as (head & body & w2 & Hf & Hc & Ht & _ & _ & Hrun).
  split; [|split].
  - intros response Hd Hs. exists head, body.
    unfold await at 1 in Hrun. rewrite Hd in Hrun. cbn [lift ret] in Hrun.
    unfold on_status, await, this in Hrun. rewrite Hs in Hrun.
    change (StatusCode.NameTaken =? StatusCode.NameTaken) with true in Hrun.
    cbv iota in Hrun. unfold perform in Hrun. rewrite Hc, Ht in Hrun.
    eexists. split.
    { eapply run_calm;
        [exact Hrun | cbn [w_trace]; rewrite <- app_assoc; reflexivity
        | reflexivity]. }
    cbn [w_client w_trace]. rewrite <- app_assoc.
    split; [exact Hf|]. repeat split; reflexivity.
  - intros response Hd Hs. exists head, body.
    unfold await at 1 in Hrun. rewrite Hd in Hrun. cbn [lift ret] in Hrun.
    unfold on_status, await, this in Hrun. rewrite Hs in Hrun.
    change (StatusCode.UnsupportedProto =? StatusCode.NameTaken) with false
      in Hrun.
    change (StatusCode.UnsupportedProto =? StatusCode.UnsupportedProto)
      with true in Hrun.
    cbv iota in Hrun. unfold perform in Hrun. rewrite Hc, Ht in Hrun.
    eexists. split.
    { eapply run_calm;
        [exact Hrun | cbn [w_trace]; rewrite <- app_assoc; reflexivity
        | reflexivity]. }
    cbn [w_client w_trace]. rewrite <- app_assoc.
    split; [exact Hf|]. repeat split; reflexivity.
  - intros H1 H3 H4.
    destruct (deserializeResponse payload) as [p|e] eqn:Hd.
    + apply deserializeResponse_status in Hd.
      destruct Hd as (Hs & [Ho|[Ho|Ho]] & _); congruence.
    + exists e, head, body, w2. unfold await in Hrun.
      cbn [lift throw] in Hrun.
      split; [apply (run_calm _ _ _ _ Hrun Ht); reflexivity|].
      split; [reflexivity|].
      split; [eapply deserializeResponse_error_kind, Hd|].
      split; [exact Hf|]. split; [assumption|].
      split; [now rewrite Hc | assumption].
Qed.

Lemma alpha_world_reply (payload : Buffer) :
  0 < buf_length payload <= MAX_PAYLOAD_SIZE ->
  handshake_reply
    (alpha_world (reply_header_chunks (buf_length payload) ++ [payload]))
    payload.
Proof.
  intro Hlen. split; [reflexivity|]. split; [lia|].
  exists (Header.new MessageType.Response (buf_length payload)), [].
  split.
  { apply validateHeader_ok.
    cbn [Header.new Header.version Header.length Header.reserved].
    split; [reflexivity|]. split; [lia | reflexivity]. }
  split.
  { unfold wire_header, MAX_PAYLOAD_SIZE in *.
    cbn [Header.new Header.version Header.type Header.flags Header.length
         Header.reserved].
    unfold VERSION, MessageType.Response. lia. }
  split; [reflexivity|]. split; [reflexivity|].
  split; [split; reflexivity|].
  exists (reply_header_chunks (buf_length payload) ++ [payload]), []. split.
  - now rewrite app_nil_r.
  - cbn [alpha_world w_stream fresh_stream rd_buffer app].
    unfold reply_header_chunks. cbn [List.concat app].
    rewrite !app_nil_r. unfold header_layout.
    cbn [Header.new Header.version Header.type Header.flags Header.length
         Header.reserved app].
    now rewrite <- app_assoc.
Qed.

(** The server answers NameTaken, its header cut in two chunks: [run]
    resolves, having told the user on the console. *)
Lemma registration_outcomes_witness :
  let result :=
    run None (alpha_world (reply_header_chunks 13 ++ [name_taken_payload]))
  in
  fst result = Resolved tt
  /\ w_trace (snd result)
     = [SessionOpen;
        StreamWrite (map to_byte [16; 1; 0; 0; 0; 0; 0; 0; 0; 0; 10; 0]);
        StreamWrite (map to_byte [1; 0; 0; 0; 5; 97; 108; 112; 104; 97]);
        ConsoleLog (js "wormhole [err] subdomain 'alpha' is already in use")].
Proof.
  assert (Hlen : 0 < buf_length name_taken_payload <= MAX_PAYLOAD_SIZE)
    by (vm_compute; split; [reflexivity | discriminate]).
  destruct (registration_outcomes
              (alpha_world (reply_header_chunks 13 ++ [name_taken_payload]))
              name_taken_payload
              (alpha_world_reply name_taken_payload Hlen))
    as (Hn & _ & _).
  destruct (Hn (Response.make StatusCode.NameTaken 0 0 []) eq_refl eq_refl)
    as (head & body & w' & Hrun & Hf & _ & _ & Ht).
  destruct (request_frames_unique alpha_client head body
              (map to_byte [16; 1; 0; 0; 0; 0; 0; 0; 0; 0; 10; 0])
              (map to_byte [1; 0; 0; 0; 5; 97; 108; 112; 104; 97]) Hf)
    as [-> ->]; [split; reflexivity|].
  cbv zeta. rewrite Hrun. split; [reflexivity | exact Ht].
Defined.

(** ** Who writes [this.domain] *)

Lemma assignments_app (a b : list Effect) :
  assignments (a ++ b) = assignments a ++ assignments b.
Proof.
  induction a as [|e a IH]; [reflexivity|].
  destruct e; cbn [app assignments]; rewrite IH; reflexivity.
Qed.

Lemma assignments_prettyPrint (level : jsstring) (args : list jsstring) :
  assignments (prettyPrint level args) = [].
Proof. induction args as [|a args IH]; [reflexivity | exact IH]. Qed.

Lemma quietly_ret {A : Type} (a : A) : quietly (ret a).
Proof.
  intro w. split; [reflexivity|]. exists []. now rewrite app_nil_r.
Qed.

Lemma quietly_throw {A : Type} (e : Error) : quietly (@throw A e).
Proof.
  intro w. split; [reflexivity|]. exists []. now rewrite app_nil_r.
Qed.

Lemma quietly_lift {A : Type} (r : result A) : quietly (lift r).
Proof. destruct r; [apply quietly_ret | apply quietly_throw]. Qed.

Lemma quietly_this : quietly this.
Proof.
  intro w. split; [reflexivity|]. exists []. now rewrite app_nil_r.
Qed.

Lemma quietly_expiry_text (ttl : Z) : quietly (expiry_text ttl).
Proof.
  intro w. split; [reflexivity|]. exists []. now rewrite app_nil_r.
Qed.

Lemma quietly_perform (effects : list Effect) :
  assignments effects = [] -> quietly (perform effects).
Proof. intros H w. split; [reflexivity|]. now exists effects. Qed.

Lemma quietly_await_readN (n : Z) : quietly (await_readN n).
Proof.
  intro w. unfold await_readN.
  destruct (readN n (w_stream w) (w_script w)) as [[o s'] rest].
  split; [reflexivity|]. exists []. cbn. now rewrite app_nil_r.
Qed.

Lemma quietly_open_session : quietly open_session.
Proof. intro w. split; [reflexivity|]. now exists [SessionOpen]. Qed.

Lemma quietly_session_end : quietly session_end.
Proof.
  intro w. unfold session_end. destruct (w_session w).
  - split; [reflexivity|]. exists []. now rewrite app_nil_r.
  - now apply quietly_perform.
  - split; [reflexivity|]. exists []. now rewrite app_nil_r.
Qed.

Lemma quietly_await {A B : Type} (m : Async A) (k : A -> Async B) :
  quietly m -> (forall a, quietly (k a)) -> quietly (await m k).
Proof.
  intros Hm Hk w. unfold await.
  destruct (Hm w) as (Hc & eff & Ht & Ha).
  destruct (m w) as [[a|e|] w1]; cbn [snd] in *.
  - destruct (Hk a w1) as (Hc' & eff' & Ht' & Ha').
    split; [congruence|]. exists (eff ++ eff').
    rewrite Ht', Ht, app_assoc, assignments_app, Ha, Ha'. now split.
  - split; [assumption|]. now exists eff.
  - split; [assumption|]. now exists eff.
Qed.

Lemma quietly_if {A : Type} (b : bool) (m1 m2 : Async A) :
  quietly m1 -> quietly m2 -> quietly (if b then m1 else m2).
Proof. now destruct b. Qed.

Lemma quietly_sendRequest : quietly sendRequest.
Proof.
  unfold sendRequest.
  apply quietly_await; [apply quietly_this | intro c].
  apply quietly_await; [apply quietly_lift | intro body].
  apply quietly_await; [apply quietly_lift | intro head].
  apply quietly_await; [now apply quietly_perform | intros _].
  apply quietly_await; [apply quietly_await_readN | intro buf].
  apply quietly_lift.
Qed.

Lemma assigns_once_quietly {A : Type} (P : jsstring -> Prop) (m : Async A) :
  quietly m -> assigns_once P m.
Proof.
  intros Hm w. destruct (Hm w) as (Hc & eff & Ht & Ha).
  exists eff. split; [assumption|]. left. now split.
Qed.

Lemma assigns_once_weaken {A : Type} (P Q : jsstring -> Prop) (m : Async A) :
  (forall d, P d -> Q d) -> assigns_once P m -> assigns_once Q m.
Proof.
  intros HPQ Hm w. destruct (Hm w) as (eff & Ht & [Hq|(d & Hp & Hd)]).
  - exists eff. split; [assumption|]. now left.
  - exists eff. split; [assumption|]. right. exists d.
    split; [now apply HPQ | assumption].
Qed.

Lemma assigns_once_await {A B : Type} (P : jsstring -> Prop)
  (m : Async A) (k : A -> Async B) :
  quietly m -> (forall a, assigns_once P (k a)) -> assigns_once P (await m k).
Proof.
  intros Hm Hk w. unfold await.
  destruct (Hm w) as (Hc & eff & Ht & Ha).
  destruct (m w) as [[a|e|] w1]; cbn [snd] in *.
  - destruct (Hk a w1) as (eff' & Ht' & Hcases).
    exists (eff ++ eff'). rewrite Ht', Ht, app_assoc. split; [reflexivity|].
    rewrite Hc in Hcases. rewrite assignments_app, Ha. exact Hcases.
  - exists eff. split; [assumption|]. left. now split.
  - exists eff. split; [assumption|]. left. now split.
Qed.

Lemma assigns_once_assign {B : Type} (P : jsstring -> Prop) (d : jsstring)
  (k : Async B) :
  P d -> quietly k -> assigns_once P (assign_domain d ;;~ k).
Proof.
  intros Hp Hk w. unfold await, assign_domain.
  set (w1 := {| w_client := Client.with_domain (w_client w) d;
                w_stream := w_stream w; w_script := w_script w;
                w_session := w_session w; w_expiry := w_expiry w;
                w_trace := w_trace w ++ [AssignDomain d] |}).
  destruct (Hk w1) as (Hc & eff & Ht & Ha).
  exists ([AssignDomain d] ++ eff). rewrite Ht, app_assoc.
  split; [reflexivity|]. right. exists d.
  split; [assumption|]. split; [|exact Hc].
  cbn [app assignments]. now rewrite Ha.
Qed.

Lemma assigns_once_on_status (response : Response.t) :
  assigns_once
    (fun d => Response.status response = StatusCode.OK
              /\ d = Response.domain response)
    (on_status response).
Proof.
  unfold on_status.
  apply assigns_once_await; [apply quietly_this | intro c].
  destruct (Response.status response =? StatusCode.NameTaken).
  { apply assigns_once_quietly, quietly_perform, assignments_prettyPrint. }
  destruct (Response.status response =? StatusCode.UnsupportedProto).
  { apply assigns_once_quietly, quietly_perform, assignments_prettyPrint. }
  destruct (Z.eqb_spec (Response.status response) StatusCode.OK) as [Hs|Hs].
  - apply assigns_once_assign; [now split|].
    apply quietly_await; [apply quietly_expiry_text | intro text].
    apply quietly_await;
      [apply quietly_perform, assignments_prettyPrint | intros _].
    apply quietly_await; [|intros _; apply quietly_session_end].
    apply quietly_if; [now apply quietly_perform | apply quietly_ret].
  - apply assigns_once_quietly.
    apply quietly_await;
      [apply quietly_perform, assignments_prettyPrint | intros _].
    apply quietly_throw.
Qed.

(** Up to its first read, [handleConnection] opens the session and writes
    the two frames of the request. *)
Lemma handleConnection_writes (w : World) :
  validateRequest
    (Request.new (Client.proto (w_client w)) (Client.name (w_client w)))
  = Ok tt ->
  exists head body,
    request_frames (w_client w) head body
    /\ forall A (k : Header.t -> Async A),
         (open_session ;;~ responseHeader <~ sendRequest ;; k responseHeader)
           w
         = (headerBuf <~ await_readN HEADER_SIZE ;;
            responseHeader <~ lift (deserializeHeader headerBuf) ;;
            k responseHeader)
             {| w_client := Client.with_session (w_client w);
                w_stream := w_stream w; w_script := w_script w;
                w_session := w_session w; w_expiry := w_expiry w;
                w_trace := w_trace w
                           ++ [SessionOpen; StreamWrite head;
                               StreamWrite body] |}.
Proof.
  intro Hv.
  destruct (request_frames_exist _ Hv) as (head & body & Hb & Hh).
  exists head, body. split; [split; assumption|]. intros A k.
  unfold await at 1.
  change (open_session w) with (Resolved tt, snd (open_session w)).
  cbv iota. unfold await at 1, sendRequest, await at 1, this.
  change (w_client (snd (open_session w)))
    with (Client.with_session (w_client w)).
  change (Client.proto (Client.with_session (w_client w)))
    with (Client.proto (w_client w)).
  change (Client.name (Client.with_session (w_client w)))
    with (Client.name (w_client w)).
  change (Client.metrics (Client.with_session (w_client w)))
    with (Client.metrics (w_client w)).
  unfold await at 1. rewrite Hb. cbn [lift ret].
  unfold await at 1. cbv zeta in Hh. rewrite Hh. cbn [lift ret].
  unfold await at 1, perform, open_session. cbn [snd w_trace w_client
    w_stream w_script w_session w_expiry].
  rewrite <- app_assoc. cbn [app].
  unfold await.
  destruct (await_readN HEADER_SIZE _) as [[buf|e|] w1]; reflexivity.
Qed.

Lemma assigns_once_handleConnection :
  assigns_once
    (fun d => exists buf response,
                deserializeResponse buf = Ok response
                /\ Response.status response = StatusCode.OK
                /\ d = Response.domain response)
    handleConnection.
Proof.
  unfold handleConnection.
  apply assigns_once_await; [apply quietly_open_session | intros _].
  apply assigns_once_await; [apply quietly_sendRequest | intro hdr].
  destruct (Header.type hdr =? MessageType.Error).
  { apply assigns_once_quietly.
    apply quietly_await; [apply quietly_await_readN | intro buf].
    apply quietly_throw. }
  destruct (negb (Header.type hdr =? MessageType.Response)).
  { apply assigns_once_quietly, quietly_throw. }
  apply assigns_once_await; [apply quietly_await_readN | intro buf].
  destruct (deserializeResponse buf) as [response|e] eqn:Hd.
  - unfold await at 1. cbn [lift ret].
    eapply assigns_once_weaken; [|apply assigns_once_on_status].
    intros d (Hs & Hdom). now exists buf, response.
  - intro w. unfold await. cbn [lift throw snd].
    exists []. rewrite app_nil_r. split; [reflexivity|]. left. now split.
Qed.

(** What [run] adds to [handleConnection]: nothing to the client, and at
    most [conn.destroy()] to the effects. *)
Lemma run_world (w : World) :
  w_client (snd (run None w)) = w_client (snd (handleConnection w))
  /\ exists tail,
       w_trace (snd (run None w))
       = w_trace (snd (handleConnection w)) ++ tail
       /\ assignments tail = [].
Proof.
  cbn [run]. destruct (handleConnection w) as [o w'].
  destruct (aborts _); cbn [snd perform w_client w_trace].
  - split; [reflexivity|]. now exists [ConnDestroy].
  - split; [reflexivity|]. exists []. now rewrite app_nil_r.
Qed.

Lemma on_status_ok (response : Response.t) (w : World) :
  Response.status response = StatusCode.OK ->
  getDomain (w_client (snd (on_status response w)))
  = Response.domain response.
Proof.
  intro Hs.
  destruct (assigns_once_on_status response w)
    as (eff & Ht & [[Ha Hc]|(d & [_ ->] & _ & Hc)]); [|exact Hc].
  exfalso. revert Ht Ha. unfold on_status, await at 1, this. rewrite Hs.
  change (StatusCode.OK =? StatusCode.NameTaken) with false.
  change (StatusCode.OK =? StatusCode.UnsupportedProto) with false.
  change (StatusCode.OK =? StatusCode.OK) with true. cbv iota.
  set (k := expiresAt <~ expiry_text _ ;; _).
  assert (Hk : quietly k).
  { unfold k.
    apply quietly_await; [apply quietly_expiry_text | intro text].
    apply quietly_await;
      [apply quietly_perform, assignments_prettyPrint | intros _].
    apply quietly_await; [|intros _; apply quietly_session_end].
    apply quietly_if; [now apply quietly_perform | apply quietly_ret]. }
  unfold await at 1, assign_domain.
  set (w1 := Build_World _ _ _ _ _ _).
  destruct (Hk w1) as (_ & eff' & Ht' & _).
  rewrite Ht'. unfold w1. cbn [w_trace]. rewrite <- app_assoc.
  intros Ht Ha. apply app_inv_head in Ht. subst eff. discriminate.
Qed.

Lemma on_status_not_ok (response : Response.t) (w : World) :
  Response.status response <> StatusCode.OK ->
  getDomain (w_client (snd (on_status response w))) = getDomain (w_client w).
Proof.
  intro Hs.
  destruct (assigns_once_on_status response w)
    as (eff & Ht & [[Ha Hc]|(d & [Hok _] & _)]);
    [exact Hc | contradiction].
Qed.

(** The switch on the status, by cases: what it assigns. *)
Lemma on_status_assigns (response : Response.t) (w : World) :
  exists effects,
    w_trace (snd (on_status response w)) = w_trace w ++ effects
    /\ ((Response.status response <> StatusCode.OK
         /\ assignments effects = []
         /\ getDomain (w_client (snd (on_status response w)))
            = getDomain (w_client w))
        \/ (Response.status response = StatusCode.OK
            /\ assignments effects = [Response.domain response]
            /\ getDomain (w_client (snd (on_status response w)))
               = Response.domain response)).
Proof.
  destruct (assigns_once_on_status response w)
    as (eff & Ht & [[Ha Hc]|(d & [Hs ->] & Ha & Hc)]);
    exists eff; (split; [exact Ht|]).
  - left. split; [|now split].
    intro Hs. pose proof (on_status_ok response w Hs) as Hd.
    revert Ht Ha. unfold on_status, await at 1, this. rewrite Hs.
    change (StatusCode.OK =? StatusCode.NameTaken) with false.
    change (StatusCode.OK =? StatusCode.UnsupportedProto) with false.
    change (StatusCode.OK =? StatusCode.OK) with true. cbv iota.
    set (k := expiresAt <~ expiry_text _ ;; _).
    assert (Hk : quietly k).
    { unfold k.
      apply quietly_await; [apply quietly_expiry_text | intro text].
      apply quietly_await;
        [apply quietly_perform, assignments_prettyPrint | intros _].
      apply quietly_await; [|intros _; apply quietly_session_end].
      apply quietly_if; [now apply quietly_perform | apply quietly_ret]. }
    unfold await at 1, assign_domain.
    set (w1 := Build_World _ _ _ _ _ _).
    destruct (Hk w1) as (_ & eff' & Ht' & _).
    rewrite Ht'. unfold w1. cbn [w_trace]. rewrite <- app_assoc.
    intros Ht Ha. apply app_inv_head in Ht. subst eff. discriminate.
  - right. now repeat split.
Qed.

Lemma handshake_response_unique (w : World) (r1 r2 : Response.t) :
  handshake_response w r1 -> handshake_response w r2 -> r1 = r2.
Proof.
  intros (hb & h & s1 & e1 & p & s2 & e2 & R1 & D1 & _ & R2 & D2)
         (hb' & h' & s1' & e1' & p' & s2' & e2' & R1' & D1' & _ & R2' & D2').
  rewrite R1 in R1'. injection R1' as <- <- <-.
  rewrite D1 in D1'. injection D1' as <-.
  rewrite R2 in R2'. injection R2' as <- _ _.
  rewrite D2 in D2'. now injection D2'.
Qed.

Lemma handleConnection_invalid_request (w : World) (e : Error) :
  validateRequest
    (Request.new (Client.proto (w_client w)) (Client.name (w_client w)))
  = Err e ->
  handleConnection w = (Rejected e, snd (open_session w)).
Proof.
  intro Hv. unfold handleConnection. unfold await at 1.
  change (open_session w) with (Resolved tt, snd (open_session w)).
  cbv iota. unfold await at 1.
  unfold sendRequest, await at 1, this.
  change (w_client (snd (open_session w)))
    with (Client.with_session (w_client w)).
  change (Client.proto (Client.with_session (w_client w)))
    with (Client.proto (w_client w)).
  change (Client.name (Client.with_session (w_client w)))
    with (Client.name (w_client w)).
  unfold serializeRequest. rewrite Hv. reflexivity.
Qed.

(** [handleConnection] with a valid request assigns [this.domain] exactly
    when the response it reads from the control stream has status OK, and
    then once, the domain of that response. *)
Lemma handleConnection_assigns (w : World) :
  validateRequest
    (Request.new (Client.proto (w_client w)) (Client.name (w_client w)))
  = Ok tt ->
  exists o w' effects,
    handleConnection w = (o, w')
    /\ w_trace w' = w_trace w ++ effects
    /\ (((forall response, handshake_response w response ->
                           Response.status response <> StatusCode.OK)
         /\ assignments effects = []
         /\ getDomain (w_client w') = getDomain (w_client w))
        \/ (exists response,
              handshake_response w response
              /\ Response.status response = StatusCode.OK
              /\ assignments effects = [Response.domain response]
              /\ getDomain (w_client w') = Response.domain response)).
Proof.
  intro Hv.
  destruct (handleConnection_writes w Hv) as (head & body & _ & Hrun).
  unfold handleConnection. rewrite Hrun. clear Hrun.
  set (w0 := Build_World _ _ _ _ _ _).
  assert (Hquiet : forall (m : Async unit) (w1 : World),
             quietly m ->
             w_trace w1
             = w_trace w ++ [SessionOpen; StreamWrite head; StreamWrite body] ->
             getDomain (w_client w1) = getDomain (w_client w) ->
             exists o w' effects,
               m w1 = (o, w')
               /\ w_trace w' = w_trace w ++ effects
               /\ assignments effects = []
               /\ getDomain (w_client w') = getDomain (w_client w)).
  { intros m w1 Hm Ht Hc. destruct (Hm w1) as (Hc' & eff & Ht' & Ha).
    destruct (m w1) as [o w']. cbn [snd] in *.
    exists o, w', ([SessionOpen; StreamWrite head; StreamWrite body] ++ eff).
    split; [reflexivity|].
    split; [now rewrite Ht', Ht, <- app_assoc|].
    split; [rewrite assignments_app, Ha; reflexivity | congruence]. }
  unfold await at 1, await_readN.
  cbn [w0 w_stream w_script w_client w_session w_expiry w_trace].
  destruct (readN HEADER_SIZE (w_stream w) (w_script w))
    as [[[headerBuf|e|] s1] ev1] eqn:R1.
  2,3: do 3 eexists; split; [reflexivity|]; split; [reflexivity|]; left;
       (split; [|split; reflexivity]);
       intros response (hb & h & s1' & e1' & p & s2 & e2 & R1' & _);
       rewrite R1 in R1'; discriminate.
  set (w1 := Build_World _ _ _ _ _ _).
  unfold await at 1.
  destruct (deserializeHeader headerBuf) as [hdr|e] eqn:D1;
    cbn [lift ret throw].
  2: { do 3 eexists. split; [reflexivity|]. split; [reflexivity|]. left.
       split; [|split; reflexivity].
       intros response (hb & h & s1' & e1' & p & s2 & e2 & R1' & D1' & _).
       rewrite R1 in R1'. injection R1' as <- _ _.
       rewrite D1 in D1'. discriminate. }
  destruct (Z.eqb_spec (Header.type hdr) MessageType.Error) as [Te|Te].
  { destruct (Hquiet (errorBuf <~ await_readN (Header.length hdr) ;;
                      throw (ServerError (utf8_decode errorBuf))) w1)
      as (o & w' & eff & Hm & Ht & Ha & Hc);
      [apply quietly_await; [apply quietly_await_readN | intro buf];
       apply quietly_throw | reflexivity | reflexivity |].
    exists o, w', eff. split; [exact Hm|]. split; [exact Ht|].
    left. split; [|now split].
    intros response (hb & h & s1' & e1' & p & s2 & e2 & R1' & D1' & T' & _).
    rewrite R1 in R1'. injection R1' as <- _ _.
    rewrite D1 in D1'. injection D1' as <-.
    rewrite Te in T'. discriminate. }
  destruct (Z.eqb_spec (Header.type hdr) MessageType.Response) as [Tr|Tr];
    cbn [negb].
  2: { do 3 eexists. split; [reflexivity|]. split; [reflexivity|]. left.
       split; [|split; reflexivity].
       intros response (hb & h & s1' & e1' & p & s2 & e2 & R1' & D1' & T' & _).
       rewrite R1 in R1'. injection R1' as <- _ _.
       rewrite D1 in D1'. injection D1' as <-. contradiction. }
  unfold await at 1, await_readN.
  cbn [w1 w_stream w_script w_client w_session w_expiry w_trace].
  destruct (readN (Header.length hdr) s1 ev1)
    as [[[payload|e|] s2] ev2] eqn:R2.
  2,3: do 3 eexists; split; [reflexivity|]; split; [reflexivity|]; left;
       (split; [|split; reflexivity]);
       intros response
         (hb & h & s1' & e1' & p & s2' & e2' & R1' & D1' & _ & R2' & _);
       rewrite R1 in R1'; injection R1' as <- <- <-;
       rewrite D1 in D1'; injection D1' as <-;
       rewrite R2 in R2'; discriminate.
  set (w2 := Build_World _ _ _ _ _ _).
  unfold await at 1.
  destruct (deserializeResponse payload) as [response|e] eqn:D2;
    cbn [lift ret throw].
  2: { do 3 eexists. split; [reflexivity|]. split; [reflexivity|]. left.
       split; [|split; reflexivity].
       intros response
         (hb & h & s1' & e1' & p & s2' & e2' & R1' & D1' & _ & R2' & D2').
       rewrite R1 in R1'. injection R1' as <- <- <-.
       rewrite D1 in D1'. injection D1' as <-.
       rewrite R2 in R2'. injection R2' as <- _ _.
       rewrite D2 in D2'. discriminate. }
  assert (Hresp : handshake_response w response).
  { exists headerBuf, hdr, s1, ev1, payload, s2, ev2. now repeat split. }
  destruct (on_status_assigns response w2)
    as (eff & Ht & Hcases).
  destruct (on_status response w2) as [o w'] eqn:E. cbn [snd] in *.
  exists o, w', ([SessionOpen; StreamWrite head; StreamWrite body] ++ eff).
  split; [reflexivity|].
  split; [rewrite Ht; cbn [w2 w_trace]; now rewrite <- app_assoc|].
  destruct Hcases as [(Hs & Ha & Hc)|(Hs & Ha & Hc)].
  - left. split; [|split].
    + intros r Hr. now rewrite (handshake_response_unique w r response Hr Hresp).
    + now rewrite assignments_app, Ha.
    + exact Hc.
  - right. exists response. split; [exact Hresp|]. split; [exact Hs|].
    split; [now rewrite assignments_app, Ha | exact Hc].
Qed.

(** One [run], from any state of the client: what it assigns. *)
Lemma run_assigns (dial : option jsstring) (w : World) :
  exists effects,
    w_trace (snd (run dial w)) = w_trace w ++ effects
    /\ (((forall response, ~ registers dial w response)
         /\ assignments effects = []
         /\ getDomain (w_client (snd (run dial w))) = getDomain (w_client w))
        \/ (exists response,
              registers dial w response
              /\ assignments effects = [Response.domain response]
              /\ getDomain (w_client (snd (run dial w)))
                 = Response.domain response)).
Proof.
  destruct dial as [msg|].
  { exists []. rewrite app_nil_r. split; [reflexivity|]. left.
    split; [|split; reflexivity]. intros response (Hd & _). discriminate. }
  destruct (run_world w) as (Hc & tail & Ht & Ha). rewrite Hc, Ht.
  destruct (validateRequest
              (Request.new (Client.proto (w_client w))
                 (Client.name (w_client w)))) as [[]|e] eqn:Hv.
  - destruct (handleConnection_assigns w Hv)
      as (o & w' & eff & Hh & Hte
          & [(Hno & Hae & Hce)|(response & Hr & Hs & Hae & Hce)]);
      rewrite Hh; cbn [snd]; exists (eff ++ tail);
      (split; [rewrite Hte; now rewrite <- app_assoc|]).
    + left. split; [|split].
      * intros response (_ & _ & Hr & Hs). now apply (Hno response).
      * now rewrite assignments_app, Hae, Ha.
      * exact Hce.
    + right. exists response. split; [now repeat split|].
      split; [now rewrite assignments_app, Hae, Ha | exact Hce].
  - rewrite (handleConnection_invalid_request w e Hv).
    exists ([SessionOpen] ++ tail). cbn [snd open_session w_trace w_client].
    split; [now rewrite <- app_assoc|]. left.
    split; [|split; [now rewrite assignments_app, Ha | reflexivity]].
    intros response (_ & Hv' & _). rewrite Hv in Hv'. discriminate.
Qed.

(** C10, as the code has it.  A new client has the empty domain.  One
    [run] assigns [this.domain] exactly when the dial succeeds, the client's
    request is valid and the response that [handleConnection] reads from the
    control stream has status OK; it then assigns it once, the domain of
    that response, which is not empty.  In every other case (a failed dial,
    an invalid request, a stream that ends or fails, a header or a response
    the decoders refuse, a header of another type, the statuses NameTaken
    and UnsupportedProto) nothing is assigned and [getDomain] returns what
    it returned before.  So from the construction of a client through its
    first [run], [getDomain] returns the empty string unless that response
    has been read, and its domain once it has. *)
Theorem domain_assigned_by_ok_only :
  (forall (options : ClientOptions) (c : Client.t),
     new_Client options = Ok c -> getDomain c = [])
  /\ (forall (dial : option jsstring) (w : World),
        exists effects,
          w_trace (snd (run dial w)) = w_trace w ++ effects
          /\ (((forall response, ~ registers dial w response)
               /\ assignments effects = []
               /\ getDomain (w_client (snd (run dial w)))
                  = getDomain (w_client w))
              \/ (exists response,
                    registers dial w response
                    /\ assignments effects = [Response.domain response]
                    /\ getDomain (w_client (snd (run dial w)))
                       = Response.domain response)))
  /\ (forall (dial : option jsstring) (w : World) (response : Response.t),
        registers dial w response ->
        assignments (skipn (List.length (w_trace w))
                       (w_trace (snd (run dial w))))
        = [Response.domain response]
        /\ getDomain (w_client (snd (run dial w))) = Response.domain response
        /\ Response.domain response <> [])
  /\ (forall (dial : option jsstring) (w : World),
        (forall response, ~ registers dial w response) ->
        assignments (skipn (List.length (w_trace w))
                       (w_trace (snd (run dial w)))) = []
        /\ getDomain (w_client (snd (run dial w))) = getDomain (w_client w))
  /\ (forall (options : ClientOptions) (c : Client.t)
        (dial : option jsstring) (w : World),
        new_Client options = Ok c -> w_client w = c -> w_trace w = [] ->
        ((forall response, ~ registers dial w response)
         /\ assignments (w_trace (snd (run dial w))) = []
         /\ getDomain (w_client (snd (run dial w))) = [])
        \/ (exists response,
              registers dial w response
              /\ assignments (w_trace (snd (run dial w)))
                 = [Response.domain response]
              /\ getDomain (w_client (snd (run dial w)))
                 = Response.domain response))
  /\ (forall (w : World) (payload : Buffer) (response : Response.t),
        handshake_reply w payload ->
        deserializeResponse payload = Ok response ->
        Response.status response = StatusCode.OK ->
        getDomain (w_client (snd (run None w))) = Response.domain response
        /\ Response.domain response <> [])
  /\ (forall (w : World) (payload : Buffer) (response : Response.t),
        handshake_reply w payload ->
        deserializeResponse payload = Ok response ->
        Response.status response <> StatusCode.OK ->
        getDomain (w_client (snd (run None w))) = getDomain (w_client w)).
Proof.
  assert (Hnew : forall (options : ClientOptions) (c : Client.t),
             new_Client options = Ok c -> getDomain c = []).
  { intros options c. unfold new_Client.
    repeat match goal with |- context [if ?b then _ else _] => destruct b end;
      try discriminate.
    intro H. injection H as <-. reflexivity. }
  assert (Hunique : forall dial w r1 r2,
             registers dial w r1 -> registers dial w r2 -> r1 = r2).
  { intros dial w r1 r2 (_ & _ & H1 & _) (_ & _ & H2 & _).
    now apply (handshake_response_unique w). }
  split; [exact Hnew|]. split; [exact run_assigns|].
  split; [|split; [|split; [|split]]].
  - intros dial w response Hr.
    destruct (run_assigns dial w)
      as (eff & Ht & [(Hno & _)|(r & Hr' & Ha & Hc)]);
      [now destruct (Hno response)|].
    rewrite (Hunique dial w response r Hr Hr').
    rewrite Ht, (skipn_at (w_trace w) eff) by reflexivity.
    split; [exact Ha|]. split; [exact Hc|].
    destruct Hr' as (_ & _ & (hb & h & s1 & e1 & p & s2 & e2 & _ & _ & _ & _
                                 & Hd) & Hs).
    apply deserializeResponse_status in Hd. destruct Hd as (_ & _ & Hv).
    now apply validateResponse_when_ok in Hv.
  - intros dial w Hno.
    destruct (run_assigns dial w)
      as (eff & Ht & [(_ & Ha & Hc)|(r & Hr' & _)]);
      [|now destruct (Hno r)].
    rewrite Ht, (skipn_at (w_trace w) eff) by reflexivity. now split.
  - intros options c dial w Hc Hw Ht.
    destruct (run_assigns dial w) as (eff & He & Hcases).
    rewrite He, Ht. cbn [app].
    destruct Hcases as [(Hno & Ha & Hd)|(response & Hr & Ha & Hdom)].
    + left. split; [exact Hno|]. split; [exact Ha|].
      rewrite Hd, Hw. now apply (Hnew options).
    + right. now exists response.
  - intros w payload response H Hd Hs.
    destruct (handleConnection_reply w payload H)
      as (head & body & w2 & _ & Hc & _ & _ & _ & Hrun).
    destruct (run_world w) as (Hcl & _). rewrite Hcl, Hrun.
    unfold await at 1. rewrite Hd. cbn [lift ret].
    rewrite on_status_ok by assumption. split; [reflexivity|].
    apply deserializeResponse_status in Hd. destruct Hd as (_ & _ & Hv).
    now apply validateResponse_when_ok in Hv.
  - intros w payload response H Hd Hs.
    destruct (handleConnection_reply w payload H)
      as (head & body & w2 & _ & Hc & _ & _ & _ & Hrun).
    destruct (run_world w) as (Hcl & _). rewrite Hcl, Hrun.
    unfold await at 1. rewrite Hd. cbn [lift ret].
    rewrite on_status_not_ok by assumption. now rewrite Hc.
Qed.

(** Scenario A of the specification: after the reply OK, 3600,
    "alpha.example", [getDomain] returns "alpha.example". *)
Lemma domain_assigned_by_ok_only_witness :
  getDomain
    (w_client
       (snd (run None (alpha_world (reply_header_chunks 26 ++ [ok_payload])))))
  = js "alpha.example".
Proof.
  assert (Hlen : 0 < buf_length ok_payload <= MAX_PAYLOAD_SIZE)
    by (vm_compute; split; [reflexivity | discriminate]).
  assert (Hd : deserializeResponse ok_payload
               = Ok (Response.new StatusCode.OK 3600 (js "alpha.example")))
    by (vm_compute; reflexivity).
  destruct domain_assigned_by_ok_only as (_ & _ & _ & _ & _ & Hok & _).
  destruct (Hok (alpha_world (reply_header_chunks 26 ++ [ok_payload]))
              ok_payload _ (alpha_world_reply ok_payload Hlen) Hd eq_refl)
    as [Hdom _].
  exact Hdom.
Defined.

(** C10 as stated fails: the domain is written once per [run], not once per
    client.  A client registers as "alpha.example" and its session closes,
    which settles its [run]; a second [run] of the same client object, to
    which the server answers OK with "beta.example", writes the field again,
    and [getDomain] no longer returns the domain of the first response. *)
Lemma domain_written_again_by_a_second_run :
  let first :=
    run None
      (closing_world alpha_client []
         (reply_header_chunks 26 ++ [ok_payload])) in
  let second :=
    run None
      (closing_world (w_client (snd first)) (w_trace (snd first))
         (reply_header_chunks 25 ++ [beta_payload])) in
  fst first = Rejected Aborted
  /\ getDomain (w_client (snd first)) = js "alpha.example"
  /\ getDomain (w_client (snd second)) = js "beta.example"
  /\ assignments (w_trace (snd second))
     = [js "alpha.example"; js "beta.example"].
Proof. vm_compute. repeat split. Qed.

(** ** The dispatcher *)

(** C9.  [deserializeHeader] does not validate the type: whatever the type
    byte [t] (and the flags byte [f]), twelve bytes with version 0x10, a
    length within the limit and a zero reserved byte decode to a header of
    type [t].  A type the dispatcher does not handle shows up in
    [onNewStream] only, which logs it at debug level and closes the
    stream. *)
Theorem header_type_is_not_validated :
  (forall (t f : Byte.byte) (len : Z),
     0 <= len <= MAX_PAYLOAD_SIZE ->
     deserializeHeader
       ([to_byte VERSION; t; f] ++ be_bytes 8 len ++ [to_byte 0])
     = Ok (Header.make VERSION (byte_val t) (byte_val f) len 0))
  /\ (forall (w : World) (hdr : Header.t) (rest : Buffer),
        validateHeader hdr = Ok tt -> wire_header hdr ->
        delivers (w_stream w) (w_script w) (header_layout hdr ++ rest) ->
        Header.type hdr <> MessageType.Access ->
        Header.type hdr <> MessageType.Metrics ->
        Header.type hdr <> MessageType.End ->
        exists w',
          onNewStream w = (Resolved tt, w')
          /\ w_client w' = w_client w
          /\ w_trace w'
             = w_trace w
               ++ [ConsoleDebug (js "unexpected header type: "
                                 ++ js_of_number (Header.type hdr));
                   StreamClose]).
Proof.
  split; [exact deserializeHeader_any_type|].
  intros w hdr rest Hv Hw Hd Ha Hm He.
  destruct (await_readN_exact HEADER_SIZE w (header_layout hdr ++ rest) Hd)
    as (w1 & Hr & Hc & Ht & _ & _ & _).
  { rewrite buf_length_app, header_layout_length.
    pose proof (buf_length_nonneg rest). unfold HEADER_SIZE. lia. }
  change (Z.to_nat HEADER_SIZE) with 12%nat in Hr.
  rewrite firstn_header_layout in Hr.
  unfold onNewStream, try_catch. unfold await at 1. rewrite Hr.
  unfold await at 1. rewrite deserializeHeader_layout, Hv by assumption.
  cbn [bind lift ret].
  destruct (Z.eqb_spec (Header.type hdr) MessageType.Access); [contradiction|].
  destruct (Z.eqb_spec (Header.type hdr) MessageType.Metrics);
    [contradiction|].
  destruct (Z.eqb_spec (Header.type hdr) MessageType.End); [contradiction|].
  unfold perform. eexists. split; [reflexivity|].
  cbn [w_client w_trace]. now rewrite Hc, Ht.
Qed.

(** Twelve bytes of the unassigned type 0x2A decode to a header of that
    type, and a stream that opens with them is closed by the dispatcher. *)
Lemma header_type_is_not_validated_witness :
  let bytes := map to_byte [16; 42; 0; 0; 0; 0; 0; 0; 0; 0; 0; 0] in
  deserializeHeader bytes = Ok (Header.make 16 42 0 0 0)
  /\ w_trace (snd (onNewStream (alpha_world [bytes])))
     = [ConsoleDebug (js "unexpected header type: 42"); StreamClose].
Proof.
  intro bytes.
  destruct header_type_is_not_validated as [Hcodec Hdispatch].
  split.
  - apply (Hcodec (to_byte 42) (to_byte 0) 0). vm_compute.
    split; discriminate.
  - destruct (Hdispatch (alpha_world [bytes]) (Header.make 16 42 0 0 0) [])
      as (w' & Hrun & _ & Ht).
    + reflexivity.
    + vm_compute. intuition discriminate.
    + split; [split; reflexivity|].
      exists [bytes], []. split; reflexivity.
    + vm_compute. discriminate.
    + vm_compute. discriminate.
    + vm_compute. discriminate.
    + rewrite Hrun. exact Ht.
Defined.

(** ** The forwarder *)

Lemma cleanup_done (has_close : bool) (err : option Error) (st : Forward) :
  isCleanedUp st = true -> cleanup has_close err st = st.
Proof. intro H. unfold cleanup. now rewrite H. Qed.

(** Once [cleanup] has run, no event changes the promise, and no event
    makes the forwarder close the stream again. *)
Lemma forward_step_after_cleanup (has_close : bool) (st : Forward)
  (ev : FwdEvent) :
  isCleanedUp st = true ->
  isCleanedUp (forward_step has_close st ev) = true
  /\ fw_promise (forward_step has_close st ev) = fw_promise st
  /\ close_calls (forward_step has_close st ev) = close_calls st.
Proof.
  intro H. unfold forward_step.
  destruct (existsb _ (fw_used st)); [now repeat split|].
  assert (Hu : isCleanedUp (use (listener_of ev) st) = true) by exact H.
  destruct ev; cbn [listener_of]; cbv zeta;
    rewrite ?(cleanup_done _ _ _ Hu);
    repeat match goal with
           | |- context [if ?b then _ else _] => destruct b
           end;
    unfold call, use, connect_pipes, close_calls;
    cbn [isCleanedUp fw_promise fw_calls];
    rewrite ?filter_app, ?length_app; cbn [filter List.length];
    repeat split; try assumption; lia.
Qed.

Lemma forwardStream_after_cleanup (has_close : bool)
  (events : list FwdEvent) :
  forall st : Forward,
    isCleanedUp st = true ->
    isCleanedUp (fold_left (forward_step has_close) events st) = true
    /\ fw_promise (fold_left (forward_step has_close) events st)
       = fw_promise st
    /\ close_calls (fold_left (forward_step has_close) events st)
       = close_calls st.
Proof.
  induction events as [|ev events IH]; intros st H; [now repeat split|].
  cbn [fold_left].
  destruct (forward_step_after_cleanup has_close st ev H) as (H1 & H2 & H3).
  destruct (IH _ H1) as (H4 & H5 & H6). repeat split; congruence.
Qed.

(** When [connect] returns a socket, the forwarder is its listeners at work
    on the events. *)
Lemma forwardStream_connected (connect : Connect) (c : Client.t)
  (has_close : bool) (events : list FwdEvent) :
  connects connect c ->
  forwardStream connect c has_close events
  = fold_left (forward_step has_close) events forward_start.
Proof. intro H. unfold forwardStream. now rewrite H. Qed.

(** C7 on the trace ['connect', then the inbound stream errors], and on the
    trace [the inbound stream closes before the local connection is up]:
    [cleanup] has run, the promise is settled and the inbound stream is
    closed, but nothing has closed or ended the local connection, which the
    claim has closed together with the stream.  This is so for every client
    and every target for which [connect] returns a socket, as it must have
    for the local connection to emit ['connect']. *)
Theorem forwarder_leaves_local_connection_open (connect : Connect)
  (c : Client.t) (e : Error) :
  connects connect c ->
  (let st := forwardStream connect c true [LocalConnect; StreamErrored e] in
   isCleanedUp st = true /\ fw_promise st = Rejected e
   /\ fw_calls st = [CallStreamClose]
   /\ stream_half_closed st = true /\ local_half_closed st = false)
  /\ (let st := forwardStream connect c true [StreamClosed; LocalConnect] in
      isCleanedUp st = true /\ fw_promise st = Resolved tt
      /\ fw_calls st = [CallStreamClose]
      /\ stream_half_closed st = true /\ local_half_closed st = false).
Proof.
  intro H. cbv zeta. rewrite !(forwardStream_connected connect c true _ H).
  repeat split.
Qed.

(** The client "alpha", whose target is ":3000", on a runtime that takes
    the port: after ['connect'] and an error of the inbound stream, the
    stream has been closed and the local connection has not. *)
Lemma forwarder_leaves_local_connection_open_witness :
  let st :=
    forwardStream connect_any alpha_client true
      [LocalConnect; StreamErrored StreamEnded] in
  fw_promise st = Rejected StreamEnded
  /\ fw_calls st = [CallStreamClose]
  /\ stream_half_closed st = true /\ local_half_closed st = false.
Proof.
  destruct (forwarder_leaves_local_connection_open connect_any alpha_client
              StreamEnded) as [(_ & H) _]; [reflexivity|].
  exact H.
Defined.

(** * More of the code *)

(** ** Decoding, then encoding *)

Lemma to_byte_add (v k : Z) : to_byte (v + k * 256) = to_byte v.
Proof. unfold to_byte. now rewrite Z.mod_add by lia. Qed.

Lemma be_bytes_shift (w : nat) :
  forall v k : Z, be_bytes w (v + k * 256 ^ Z.of_nat w) = be_bytes w v.
Proof.
  induction w as [|w IH]; intros v k; [reflexivity|].
  unfold be_bytes; fold be_bytes.
  rewrite Nat2Z.inj_succ, Z.pow_succ_r by lia.
  assert (Hp : 0 < 256 ^ Z.of_nat w) by (apply Z.pow_pos_nonneg; lia).
  replace (k * (256 * 256 ^ Z.of_nat w))
    with (k * 256 * 256 ^ Z.of_nat w) by ring.
  rewrite Z.div_add, to_byte_add, IH by lia. reflexivity.
Qed.

(** Writing the big-endian value of some bytes gives the bytes back. *)
Lemma be_bytes_be_value (bs : Buffer) :
  be_bytes (List.length bs) (be_value bs) = bs.
Proof.
  induction bs as [|b bs IH]; [reflexivity|].
  cbn [List.length]. unfold be_bytes; fold be_bytes.
  rewrite be_value_cons.
  pose proof (be_value_range bs) as Hr.
  assert (Hp : 0 < 256 ^ Z.of_nat (List.length bs))
    by (apply Z.pow_pos_nonneg; lia).
  replace (byte_val b * 256 ^ Z.of_nat (List.length bs) + be_value bs)
    with (be_value bs + byte_val b * 256 ^ Z.of_nat (List.length bs))
    by ring.
  rewrite Z.div_add by lia. rewrite Z.div_small by lia.
  rewrite be_bytes_shift, IH, Z.add_0_l. now rewrite to_byte_byte_val.
Qed.

Lemma firstn_add {A : Type} (a b : nat) (l : list A) :
  firstn (a + b) l = firstn a l ++ firstn b (skipn a l).
Proof.
  revert l. induction a as [|a IH]; intro l; [reflexivity|].
  destruct l as [|x l]; [cbn [skipn]; now rewrite !firstn_nil|].
  cbn [Nat.add firstn skipn app]. now rewrite IH.
Qed.

Lemma firstn_one_nth (off : nat) (buf : Buffer) :
  (off < List.length buf)%nat ->
  firstn 1 (skipn off buf) = [to_byte (getUint8 buf off)].
Proof.
  intro H. unfold getUint8. rewrite to_byte_byte_val.
  revert buf H. induction off as [|off IH]; intros buf H.
  - destruct buf; [cbn in H; lia | reflexivity].
  - destruct buf; [cbn in H; lia|]. cbn [skipn nth]. apply IH.
    cbn in H. lia.
Qed.

Lemma be_bytes_getUint32 (buf : Buffer) (off : nat) :
  (off + 4 <= List.length buf)%nat ->
  be_bytes 4 (getUint32 buf off) = firstn 4 (skipn off buf).
Proof.
  intro H. unfold getUint32.
  rewrite <- (be_bytes_be_value (firstn 4 (skipn off buf))) at 2.
  f_equal. rewrite length_firstn, length_skipn. lia.
Qed.

Lemma be_bytes_getBigUint64 (buf : Buffer) (off : nat) :
  (off + 8 <= List.length buf)%nat ->
  be_bytes 8 (getBigUint64 buf off) = firstn 8 (skipn off buf).
Proof.
  intro H. unfold getBigUint64.
  rewrite <- (be_bytes_be_value (firstn 8 (skipn off buf))) at 2.
  f_equal. rewrite length_firstn, length_skipn. lia.
Qed.

Lemma be_bytes_mod (w : nat) (v : Z) :
  be_bytes w (v mod 256 ^ Z.of_nat w) = be_bytes w v.
Proof.
  assert (Hp : 0 < 256 ^ Z.of_nat w) by (apply Z.pow_pos_nonneg; lia).
  rewrite Z.mod_eq by lia.
  replace (v - 256 ^ Z.of_nat w * (v / 256 ^ Z.of_nat w))
    with (v + - (v / 256 ^ Z.of_nat w) * 256 ^ Z.of_nat w) by ring.
  apply be_bytes_shift.
Qed.

Lemma deserializeHeader_ok (buf : Buffer) (h : Header.t) :
  deserializeHeader buf = Ok h ->
  HEADER_SIZE <= buf_length buf
  /\ validateHeader h = Ok tt
  /\ h = Header.make (getUint8 buf 0) (getUint8 buf 1) (getUint8 buf 2)
           (getBigUint64 buf 3) (getUint8 buf 11).
Proof.
  unfold deserializeHeader.
  destruct (Z.ltb_spec (buf_length buf) HEADER_SIZE); [discriminate|].
  destruct (validateHeader _) as [[]|e] eqn:E; cbn [bind]; [|discriminate].
  intro H0. injection H0 as <-. repeat split; assumption.
Qed.

(** X1.  Encoding a header that [deserializeHeader] returned gives back the
    twelve bytes it was decoded from. *)
Theorem serializeHeader_of_decoded (buf : Buffer) (h : Header.t) :
  deserializeHeader buf = Ok h ->
  serializeHeader h = Ok (prefix HEADER_SIZE buf).
Proof.
  intro H. apply deserializeHeader_ok in H. destruct H as (Hlen & Hv & ->).
  rewrite serializeHeader_validate, Hv. cbn [bind]. f_equal.
  assert (Hn : (12 <= List.length buf)%nat)
    by (unfold HEADER_SIZE, buf_length in Hlen; lia).
  unfold header_layout, prefix.
  cbn [Header.version Header.type Header.flags Header.length Header.reserved].
  change (Z.to_nat HEADER_SIZE) with (1 + (1 + (1 + (8 + 1))))%nat.
  rewrite (firstn_add 1), (firstn_add 1 _ (skipn 1 buf)), skipn_skipn.
  rewrite (firstn_add 1 _ (skipn (1 + 1) buf)), skipn_skipn.
  rewrite (firstn_add 8 1 (skipn (1 + (1 + 1)) buf)), skipn_skipn.
  change (firstn 1 buf) with (firstn 1 (skipn 0 buf)).
  rewrite !firstn_one_nth by (cbn; lia).
  rewrite be_bytes_getBigUint64 by (cbn; lia).
  reflexivity.
Qed.

Lemma serializeHeader_of_decoded_witness :
  let buf := map to_byte [16; 2; 1; 0; 0; 0; 0; 0; 0; 0; 13; 0; 255; 255] in
  serializeHeader (Header.make 16 2 1 13 0) = Ok (prefix HEADER_SIZE buf).
Proof.
  intro buf. apply (serializeHeader_of_decoded buf). reflexivity.
Defined.

(** X2.  [serializeMetrics] takes every record, reducing each field to its
    width on the wire, and what it writes always decodes: to the record with
    its four counters modulo 2^64 and its number of active connections
    modulo 2^32. *)
Theorem deserializeMetrics_of_serialized (m : Metrics.t) :
  buf_length (serializeMetrics m) = METRICS_SIZE
  /\ deserializeMetrics (serializeMetrics m) = Ok (wrap_metrics m).
Proof.
  split.
  - unfold serializeMetrics.
    rewrite !buf_length_app, !buf_length_be_bytes. reflexivity.
  - assert (E : serializeMetrics m = serializeMetrics (wrap_metrics m)).
    { unfold serializeMetrics, wrap_metrics.
      cbn [Metrics.ingress Metrics.egress Metrics.uptime
             Metrics.connectionCount Metrics.activeConnections].
      change (2 ^ 64) with (256 ^ Z.of_nat 8).
      change (2 ^ 32) with (256 ^ Z.of_nat 4).
      now rewrite !be_bytes_mod. }
    rewrite E. apply metrics_round_trip.
    unfold wire_metrics, wrap_metrics.
    cbn [Metrics.ingress Metrics.egress Metrics.uptime
           Metrics.connectionCount Metrics.activeConnections].
    repeat split; apply Z.mod_pos_bound; reflexivity.
Qed.

(** X3.  Encoding a record that [deserializeMetrics] returned gives back the
    thirty-six bytes it was decoded from. *)
Theorem serializeMetrics_of_decoded (buf : Buffer) (m : Metrics.t) :
  deserializeMetrics buf = Ok m ->
  serializeMetrics m = prefix METRICS_SIZE buf.
Proof.
  unfold deserializeMetrics.
  destruct (Z.ltb_spec (buf_length buf) METRICS_SIZE) as [|Hlen];
    [discriminate|].
  intro H. injection H as <-.
  assert (Hn : (36 <= List.length buf)%nat)
    by (unfold METRICS_SIZE, buf_length in Hlen; lia).
  unfold serializeMetrics, prefix.
  cbn [Metrics.ingress Metrics.egress Metrics.uptime
         Metrics.connectionCount Metrics.activeConnections].
  change (Z.to_nat METRICS_SIZE) with (8 + (8 + (8 + (8 + 4))))%nat.
  rewrite (firstn_add 8), (firstn_add 8 _ (skipn 8 buf)), skipn_skipn.
  rewrite (firstn_add 8 _ (skipn (8 + 8) buf)), skipn_skipn.
  rewrite (firstn_add 8 4 (skipn (8 + (8 + 8)) buf)), skipn_skipn.
  change (firstn 8 buf) with (firstn 8 (skipn 0 buf)).
  rewrite !be_bytes_getBigUint64, be_bytes_getUint32 by (cbn; lia).
  reflexivity.
Qed.

Lemma serializeMetrics_of_decoded_witness :
  let buf := map to_byte (repeat 7 40) in
  serializeMetrics
    (Metrics.make 506381209866536711 506381209866536711 506381209866536711
       506381209866536711 117901063)
  = prefix METRICS_SIZE buf.
Proof.
  intro buf. apply (serializeMetrics_of_decoded buf). reflexivity.
Defined.

(** ** UTF-8: what the decoder returns *)

Lemma well_formed_app_bounded (n : nat) :
  forall a b : jsstring,
    (List.length a <= n)%nat ->
    well_formed a = true -> well_formed b = true ->
    well_formed (a ++ b) = true.
Proof.
  induction n as [|n IH]; intros a b Hlen Ha Hb.
  - destruct a; [exact Hb | cbn in Hlen; lia].
  - destruct a as [|u t]; [exact Hb|].
    cbn [app well_formed] in *.
    destruct (is_high u).
    + destruct t as [|l t']; [discriminate|]. cbn [app].
      apply andb_prop in Ha. destruct Ha as [Hl Ht]. rewrite Hl. cbn [andb].
      apply IH; [cbn in Hlen; lia | assumption | assumption].
    + apply andb_prop in Ha. destruct Ha as [Hr Ht]. rewrite Hr. cbn [andb].
      apply IH; [cbn in Hlen; lia | assumption | assumption].
Qed.

Lemma well_formed_app (a b : jsstring) :
  well_formed a = true -> well_formed b = true ->
  well_formed (a ++ b) = true.
Proof. apply (well_formed_app_bounded (List.length a)), le_n. Qed.

Lemma well_formed_units_of_code_point (c : Z) :
  scalar c -> well_formed (units_of_code_point c) = true.
Proof.
  unfold scalar, units_of_code_point. intro Hc.
  destruct (Z.ltb_spec c 0x10000) as [Hlt|Hge].
  - cbn [well_formed]. unfold is_high, is_low.
    destruct (Z.leb_spec 0xD800 c); destruct (Z.leb_spec c 0xDBFF);
      destruct (Z.leb_spec 0xDC00 c); destruct (Z.leb_spec c 0xDFFF);
      destruct (Z.leb_spec 0 c); destruct (Z.ltb_spec c 0x10000);
      cbn; try reflexivity; lia.
  - cbn [well_formed]. unfold is_high, is_low.
    destruct (Z.leb_spec 0xD800 (0xD800 + (c - 0x10000) / 0x400)); [|arith].
    destruct (Z.leb_spec (0xD800 + (c - 0x10000) / 0x400) 0xDBFF); [|arith].
    destruct (Z.leb_spec 0xDC00 (0xDC00 + (c - 0x10000) mod 0x400)); [|arith].
    destruct (Z.leb_spec (0xDC00 + (c - 0x10000) mod 0x400) 0xDFFF); [|arith].
    reflexivity.
Qed.

Lemma well_formed_replacement (s : jsstring) :
  well_formed (REPLACEMENT :: s) = well_formed s.
Proof. reflexivity. Qed.

Lemma utf8_lead_ok (b : Z) :
  0 <= b < 256 ->
  utf8_state_ok (fst (utf8_lead b))
  /\ well_formed (snd (utf8_lead b)) = true.
Proof.
  intro Hb. unfold utf8_lead.
  destruct (Z.leb_spec b 0x7F) as [H1|H1].
  { split; [now left|]. cbn [snd well_formed]. unfold is_high, is_low.
    destruct (Z.leb_spec 0xD800 b); [lia|].
    destruct (Z.leb_spec 0xDC00 b); [lia|].
    destruct (Z.leb_spec 0 b); [|lia].
    destruct (Z.ltb_spec b 0x10000); [reflexivity | lia]. }
  destruct (Z.leb_spec 0xC2 b) as [H2|H2];
    destruct (Z.leb_spec b 0xDF) as [H3|H3];
    destruct (Z.leb_spec 0xE0 b) as [H4|H4];
    destruct (Z.leb_spec b 0xEF) as [H5|H5];
    destruct (Z.leb_spec 0xF0 b) as [H6|H6];
    destruct (Z.leb_spec b 0xF4) as [H7|H7];
    cbn [andb fst snd]; try lia;
    try (split; [now left | reflexivity]).
  - split; [|reflexivity]. right. left.
    cbn [u_needed u_lower u_upper u_code_point].
    repeat split; try lia. left. arith.
  - split; [|reflexivity]. right. right. left.
    cbn [u_needed u_lower u_upper u_code_point].
    destruct (Z.eqb_spec b 0xE0); destruct (Z.eqb_spec b 0xED);
      (split; [reflexivity|]); (split; [lia|]); (split; [lia|]); arith.
  - split; [|reflexivity]. right. right. right.
    cbn [u_needed u_lower u_upper u_code_point].
    destruct (Z.eqb_spec b 0xF0); destruct (Z.eqb_spec b 0xF4);
      (split; [reflexivity|]); (split; [lia|]); (split; [lia|]); arith.
Qed.

Lemma utf8_step_ok (st : Utf8State) (b : Z) :
  utf8_state_ok st -> 0 <= b < 256 ->
  utf8_state_ok (fst (utf8_step st b))
  /\ well_formed (snd (utf8_step st b)) = true.
Proof.
  intros Hst Hb. unfold utf8_step.
  destruct (Z.eqb_spec (u_needed st) 0) as [H0|H0];
    [now apply utf8_lead_ok|].
  destruct (Z.ltb_spec b (u_lower st)) as [Hlo|Hlo]; cbn [orb].
  { destruct (utf8_lead b) as [st' out] eqn:E.
    pose proof (utf8_lead_ok b Hb) as H. rewrite E in H. exact H. }
  destruct (Z.ltb_spec (u_upper st) b) as [Hhi|Hhi].
  { destruct (utf8_lead b) as [st' out] eqn:E.
    pose proof (utf8_lead_ok b Hb) as H. rewrite E in H. exact H. }
  destruct Hst as [H|[(Hn & Hl & Hu & Hc)|[(Hn & Hl & Hu & Hc)
                                           |(Hn & Hl & Hu & Hc1 & Hc2)]]];
    [contradiction| | |]; rewrite Hn.
  - change (1 =? 1) with true. cbv iota. split; [now left|].
    apply well_formed_units_of_code_point. unfold scalar. arith.
  - change (2 =? 1) with false. cbv iota. split; [|reflexivity].
    right. left. cbn [fst u_needed u_lower u_upper u_code_point].
    repeat split; try lia. arith.
  - change (3 =? 1) with false. cbv iota. split; [|reflexivity].
    right. right. left. cbn [fst u_needed u_lower u_upper u_code_point].
    repeat split; try lia. right. arith.
Qed.

Lemma utf8_run_well_formed (bs : list Z) :
  forall st : Utf8State,
    utf8_state_ok st -> Forall (fun b => 0 <= b < 256) bs ->
    well_formed (utf8_run st bs) = true.
Proof.
  induction bs as [|b bs IH]; intros st Hst Hbs.
  - cbn [utf8_run]. now destruct (u_needed st =? 0).
  - inversion Hbs as [|x l Hb Hrest]. subst.
    rewrite utf8_run_cons.
    pose proof (utf8_step_ok st b Hst Hb) as H.
    destruct (utf8_step st b) as [st' out]. destruct H as [H1 H2].
    apply well_formed_app; [exact H2 | now apply IH].
Qed.

(** Whatever the bytes, [buf.toString("utf8")] is a string without unpaired
    surrogates. *)
Lemma utf8_decode_well_formed (buf : Buffer) :
  well_formed (utf8_decode buf) = true.
Proof.
  unfold utf8_decode. apply utf8_run_well_formed; [now left|].
  apply Forall_forall. intros b Hin. apply in_map_iff in Hin.
  destruct Hin as (x & <- & _). apply byte_val_range.
Qed.

Lemma utf8_run_needed (bs : list Z) :
  forall st : Utf8State, u_needed st <> 0 -> utf8_run st bs <> [].
Proof.
  induction bs as [|b bs IH]; intros st Hn.
  - cbn [utf8_run]. destruct (Z.eqb_spec (u_needed st) 0);
      [contradiction | discriminate].
  - rewrite utf8_run_cons. unfold utf8_step.
    destruct (Z.eqb_spec (u_needed st) 0); [contradiction|].
    destruct ((b <? u_lower st) || (u_upper st <? b)).
    + destruct (utf8_lead b). discriminate.
    + destruct (Z.eqb_spec (u_needed st) 1).
      * unfold units_of_code_point.
        destruct (_ <? 0x10000); discriminate.
      * cbn [app]. apply IH. cbn [u_needed]. lia.
Qed.

(** Decoding gives the empty string for the empty buffer only. *)
Lemma utf8_decode_nil (buf : Buffer) : utf8_decode buf = [] <-> buf = [].
Proof.
  split; [|intros ->; reflexivity].
  destruct buf as [|x buf]; [reflexivity|]. intro H. exfalso. revert H.
  unfold utf8_decode. cbn [map]. rewrite utf8_run_idle_cons.
  unfold utf8_lead.
  destruct (byte_val x <=? 0x7F); [discriminate|].
  destruct ((0xC2 <=? byte_val x) && (byte_val x <=? 0xDF));
    [apply utf8_run_needed; cbn; lia|].
  destruct ((0xE0 <=? byte_val x) && (byte_val x <=? 0xEF));
    [apply utf8_run_needed; cbn; lia|].
  destruct ((0xF0 <=? byte_val x) && (byte_val x <=? 0xF4));
    [apply utf8_run_needed; cbn; lia|].
  discriminate.
Qed.

Lemma utf8_of_code_point_not_nil (c : Z) : utf8_of_code_point c <> [].
Proof.
  unfold utf8_of_code_point.
  destruct (c <? 0x80); [discriminate|].
  destruct (c <? 0x800); [discriminate|].
  destruct (c <? 0x10000); discriminate.
Qed.

(** Encoding gives no bytes for the empty string only. *)
Lemma utf8_units_nil (s : jsstring) : utf8_units s = [] <-> s = [].
Proof.
  split; [|intros ->; reflexivity].
  destruct s as [|u t]; [reflexivity|]. intro H. exfalso. revert H.
  cbn [utf8_units].
  assert (Hne : forall c rest, utf8_of_code_point c ++ rest <> []).
  { intros c rest H. apply app_eq_nil in H.
    now apply (utf8_of_code_point_not_nil c). }
  destruct (is_high u).
  - destruct t as [|l t']; [apply utf8_of_code_point_not_nil|].
    destruct (is_low l); apply Hne.
  - destruct (is_low u); apply Hne.
Qed.

Lemma byteLength_zero (s : jsstring) : byteLength s = 0 <-> s = [].
Proof.
  unfold byteLength, utf8_encode, buf_length. rewrite length_map.
  rewrite <- utf8_units_nil.
  destruct (utf8_units s); cbn [List.length]; split; intro H;
    try reflexivity; try discriminate; lia.
Qed.

Lemma byteLength_nonneg (s : jsstring) : 0 <= byteLength s.
Proof. apply buf_length_nonneg. Qed.

(** ** What the decoders return *)

Lemma validateRequest_new (p : Z) (n : jsstring) :
  validateRequest (Request.new p n)
  = if negb (p =? ProtoType.HTTP) && negb (p =? ProtoType.TCP)
    then Err InvalidProtocol
    else if is_nil n then Err EmptyString
    else if byteLength n >? MAX_STRING_LENGTH then Err StringTooLong
    else Ok tt.
Proof.
  unfold validateRequest.
  cbn [Request.new Request.proto Request.name Request.nameLength].
  destruct (negb (p =? ProtoType.HTTP) && negb (p =? ProtoType.TCP));
    [reflexivity|].
  destruct n as [|u t]; [reflexivity|].
  cbn [is_nil].
  destruct (Z.eqb_spec (Z.of_nat (List.length (u :: t))) 0) as [H|_];
    [cbn [List.length] in H; lia|].
  destruct (Z.eqb_spec (byteLength (u :: t)) 0) as [H|_];
    [apply byteLength_zero in H; discriminate|].
  cbn [orb]. now rewrite Z.eqb_refl.
Qed.

Lemma validateResponse_new (st ttl : Z) (d : jsstring) :
  validateResponse (Response.new st ttl d)
  = if negb (st =? StatusCode.OK) && negb (st =? StatusCode.NameTaken)
       && negb (st =? StatusCode.UnsupportedProto)
    then Err InvalidStatusCode
    else if st =? StatusCode.OK then
      if is_nil d then Err EmptyString
      else if byteLength d >? MAX_STRING_LENGTH then Err StringTooLong
      else Ok tt
    else Ok tt.
Proof.
  unfold validateResponse.
  cbn [Response.new Response.status Response.domain Response.domainLength].
  destruct (negb (st =? StatusCode.OK) && negb (st =? StatusCode.NameTaken)
            && negb (st =? StatusCode.UnsupportedProto)); [reflexivity|].
  destruct (st =? StatusCode.OK); [|reflexivity].
  destruct d as [|u t]; [reflexivity|].
  cbn [is_nil].
  destruct (Z.eqb_spec (Z.of_nat (List.length (u :: t))) 0) as [H|_];
    [cbn [List.length] in H; lia|].
  destruct (Z.eqb_spec (byteLength (u :: t)) 0) as [H|_];
    [apply byteLength_zero in H; discriminate|].
  cbn [orb]. now rewrite Z.eqb_refl.
Qed.

Lemma deserializeRequest_ok (buf : Buffer) (r : Request.t) :
  deserializeRequest buf = Ok r ->
  declared_request_size buf <= buf_length buf
  /\ validateRequest r = Ok tt
  /\ r = Request.new (getUint8 buf 0)
           (utf8_decode
              (subarray buf REQUEST_SIZE (declared_request_size buf))).
Proof.
  unfold deserializeRequest, declared_request_size.
  destruct (buf_length buf <? REQUEST_SIZE); [discriminate|].
  destruct (Z.ltb_spec (buf_length buf) (REQUEST_SIZE + getUint32 buf 1));
    [discriminate|].
  cbv zeta.
  destruct (validateRequest _) as [[]|e] eqn:E; cbn [bind]; [|discriminate].
  intro H0. injection H0 as <-. repeat split; assumption.
Qed.

Lemma deserializeResponse_ok (buf : Buffer) (p : Response.t) :
  deserializeResponse buf = Ok p ->
  declared_response_size buf <= buf_length buf
  /\ validateResponse p = Ok tt
  /\ p = Response.new (getUint8 buf 0) (getBigUint64 buf 1)
           (utf8_decode
              (subarray buf RESPONSE_SIZE (declared_response_size buf))).
Proof.
  unfold deserializeResponse, declared_response_size.
  destruct (buf_length buf <? RESPONSE_SIZE); [discriminate|].
  destruct (Z.ltb_spec (buf_length buf) (RESPONSE_SIZE + getUint32 buf 9));
    [discriminate|].
  cbv zeta.
  destruct (validateResponse _) as [[]|e] eqn:E; cbn [bind]; [|discriminate].
  intro H0. injection H0 as <-. repeat split; assumption.
Qed.

(** X4.  A request that [deserializeRequest] returned is a fixed point of
    the codec: it passes [validateRequest], its name has no unpaired
    surrogate, [serializeRequest] takes it, and decoding what
    [serializeRequest] wrote gives the same request again. *)
Theorem decoded_request_round_trips (buf : Buffer) (r : Request.t) :
  deserializeRequest buf = Ok r ->
  validateRequest r = Ok tt
  /\ well_formed (Request.name r) = true
  /\ Request.nameLength r = byteLength (Request.name r)
  /\ (again <- serializeRequest r ;; deserializeRequest again) = Ok r.
Proof.
  intro H. apply deserializeRequest_ok in H. destruct H as (_ & Hv & E).
  assert (Hwf : well_formed (Request.name r) = true)
    by (rewrite E; apply utf8_decode_well_formed).
  split; [exact Hv|]. split; [exact Hwf|].
  split; [now rewrite E|].
  now apply request_round_trip.
Qed.

(** The name bytes C3 28 are ill-formed: they decode to U+FFFD and "(",
    and it is this name that round-trips. *)
Lemma decoded_request_round_trips_witness :
  let r := Request.new 1 [0xFFFD; 40] in
  validateRequest r = Ok tt
  /\ (again <- serializeRequest r ;; deserializeRequest again) = Ok r.
Proof.
  intro r.
  destruct (decoded_request_round_trips
              (map to_byte [1; 0; 0; 0; 2; 195; 40; 7]) r)
    as (Hv & _ & _ & Hr); [reflexivity|].
  split; assumption.
Defined.

(** X5.  A response that [deserializeResponse] returned, and whose domain
    takes fewer than 2^32 bytes, is a fixed point of the codec:
    [serializeResponse] takes it, and decoding what it wrote gives the same
    response again. *)
Theorem decoded_response_round_trips (buf : Buffer) (p : Response.t) :
  deserializeResponse buf = Ok p ->
  Response.domainLength p < 2 ^ 32 ->
  validateResponse p = Ok tt
  /\ wire_response p
  /\ (again <- serializeResponse p ;; deserializeResponse again) = Ok p.
Proof.
  intros H Hlt. apply deserializeResponse_ok in H.
  destruct H as (_ & Hv & E).
  assert (Hw : wire_response p).
  { unfold wire_response. rewrite E.
    cbn [Response.new Response.ttlHours Response.domain
           Response.domainLength].
    split; [apply getBigUint64_range|].
    split; [apply utf8_decode_well_formed|].
    split; [reflexivity|].
    rewrite E in Hlt. exact Hlt. }
  split; [exact Hv|]. split; [exact Hw|].
  now apply response_round_trip.
Qed.

Lemma decoded_response_round_trips_witness :
  let p := Response.new 3 513 [0xFFFD] in
  (again <- serializeResponse p ;; deserializeResponse again) = Ok p.
Proof.
  intro p.
  apply (decoded_response_round_trips
           (map to_byte [3; 0; 0; 0; 0; 0; 0; 2; 1; 0; 0; 0; 1; 255; 9]) p).
  - reflexivity.
  - vm_compute. reflexivity.
Defined.

Lemma is_nil_decoded_subarray (buf : Buffer) (hd len : Z) :
  0 <= hd -> 0 <= len -> hd + len <= buf_length buf ->
  is_nil (utf8_decode (subarray buf hd (hd + len))) = (len =? 0).
Proof.
  intros Hhd Hlen Hfit.
  assert (L : buf_length (subarray buf hd (hd + len)) = len).
  { unfold subarray, buf_length in *.
    rewrite length_firstn, length_skipn. lia. }
  destruct (utf8_decode (subarray buf hd (hd + len))) as [|u t] eqn:E.
  - apply utf8_decode_nil in E. rewrite E in L. cbn in L. now subst len.
  - destruct (Z.eqb_spec len 0) as [H0|H0]; [|reflexivity].
    assert (N : subarray buf hd (hd + len) = []).
    { unfold buf_length in L.
      destruct (subarray buf hd (hd + len)); [reflexivity|].
      cbn [List.length] in L. lia. }
    apply utf8_decode_nil in N. congruence.
Qed.

(** X6.  [deserializeRequest] in terms of the bytes: the checks run in the
    order size, declared size, protocol, empty name, length of the decoded
    name; the name is empty exactly when the length field on the wire is
    zero; and the decoder never fails with "invalid length field", since
    the constructor recomputes the length from the decoded text. *)
Theorem deserializeRequest_by_fields (buf : Buffer) :
  deserializeRequest buf
  = (if buf_length buf <? REQUEST_SIZE then Err InvalidRequestSize
     else if buf_length buf <? declared_request_size buf
     then Err InsufficientData
     else if negb (getUint8 buf 0 =? ProtoType.HTTP)
             && negb (getUint8 buf 0 =? ProtoType.TCP)
     then Err InvalidProtocol
     else if getUint32 buf 1 =? 0 then Err EmptyString
     else
       let name :=
         utf8_decode (subarray buf REQUEST_SIZE (declared_request_size buf))
       in
       if byteLength name >? MAX_STRING_LENGTH then Err StringTooLong
       else Ok (Request.new (getUint8 buf 0) name))
  /\ deserializeRequest buf <> Err InvalidLengthField.
Proof.
  assert (E : deserializeRequest buf
              = (if buf_length buf <? REQUEST_SIZE then Err InvalidRequestSize
                 else if buf_length buf <? declared_request_size buf
                 then Err InsufficientData
                 else if negb (getUint8 buf 0 =? ProtoType.HTTP)
                         && negb (getUint8 buf 0 =? ProtoType.TCP)
                 then Err InvalidProtocol
                 else if getUint32 buf 1 =? 0 then Err EmptyString
                 else
                   let name :=
                     utf8_decode
                       (subarray buf REQUEST_SIZE (declared_request_size buf))
                   in
                   if byteLength name >? MAX_STRING_LENGTH
                   then Err StringTooLong
                   else Ok (Request.new (getUint8 buf 0) name))).
  { unfold deserializeRequest, declared_request_size. cbv zeta.
    destruct (buf_length buf <? REQUEST_SIZE); [reflexivity|].
    destruct (Z.ltb_spec (buf_length buf) (REQUEST_SIZE + getUint32 buf 1));
      [reflexivity|].
    rewrite validateRequest_new.
    destruct (negb _ && negb _); [reflexivity|].
    rewrite is_nil_decoded_subarray
      by (pose proof (getUint32_range buf 1); unfold REQUEST_SIZE in *; lia).
    destruct (getUint32 buf 1 =? 0); [reflexivity|].
    destruct (_ >? _); reflexivity. }
  split; [exact E|]. rewrite E. cbv zeta.
  repeat match goal with |- context [if ?c then _ else _] => destruct c end;
    discriminate.
Qed.

(** X7.  [deserializeResponse] in terms of the bytes: the checks run in the
    order size, declared size, status; for a status other than OK the domain
    is taken as it comes; for OK the domain must not be empty, which it is
    exactly when the length field on the wire is zero, and must not exceed
    4096 bytes once decoded.  The decoder never fails with "invalid length
    field". *)
Theorem deserializeResponse_by_fields (buf : Buffer) :
  deserializeResponse buf
  = (if buf_length buf <? RESPONSE_SIZE then Err InvalidResponseSize
     else if buf_length buf <? declared_response_size buf
     then Err InsufficientData
     else
       let domain :=
         utf8_decode (subarray buf RESPONSE_SIZE (declared_response_size buf))
       in
       let resp :=
         Response.new (getUint8 buf 0) (getBigUint64 buf 1) domain in
       if getUint8 buf 0 =? StatusCode.OK then
         if getUint32 buf 9 =? 0 then Err EmptyString
         else if byteLength domain >? MAX_STRING_LENGTH
         then Err StringTooLong
         else Ok resp
       else if (getUint8 buf 0 =? StatusCode.NameTaken)
               || (getUint8 buf 0 =? StatusCode.UnsupportedProto)
       then Ok resp
       else Err InvalidStatusCode)
  /\ deserializeResponse buf <> Err InvalidLengthField.
Proof.
  assert (E : deserializeResponse buf
              = (if buf_length buf <? RESPONSE_SIZE
                 then Err InvalidResponseSize
                 else if buf_length buf <? declared_response_size buf
                 then Err InsufficientData
                 else
                   let domain :=
                     utf8_decode
                       (subarray buf RESPONSE_SIZE
                          (declared_response_size buf)) in
                   let resp :=
                     Response.new (getUint8 buf 0) (getBigUint64 buf 1) domain
                   in
                   if getUint8 buf 0 =? StatusCode.OK then
                     if getUint32 buf 9 =? 0 then Err EmptyString
                     else if byteLength domain >? MAX_STRING_LENGTH
                     then Err StringTooLong
                     else Ok resp
                   else if (getUint8 buf 0 =? StatusCode.NameTaken)
                           || (getUint8 buf 0 =? StatusCode.UnsupportedProto)
                   then Ok resp
                   else Err InvalidStatusCode)).
  { unfold deserializeResponse, declared_response_size. cbv zeta.
    destruct (buf_length buf <? RESPONSE_SIZE); [reflexivity|].
    destruct (Z.ltb_spec (buf_length buf) (RESPONSE_SIZE + getUint32 buf 9));
      [reflexivity|].
    rewrite validateResponse_new.
    rewrite is_nil_decoded_subarray
      by (pose proof (getUint32_range buf 9); unfold RESPONSE_SIZE in *; lia).
    destruct (getUint8 buf 0 =? StatusCode.OK).
    - cbn [negb andb].
      destruct (getUint32 buf 9 =? 0); [reflexivity|].
      destruct (_ >? _); reflexivity.
    - destruct (getUint8 buf 0 =? StatusCode.NameTaken);
        destruct (getUint8 buf 0 =? StatusCode.UnsupportedProto);
        reflexivity. }
  split; [exact E|]. rewrite E. cbv zeta.
  repeat match goal with |- context [if ?c then _ else _] => destruct c end;
    discriminate.
Qed.

(** X8.  The two size functions agree with the serializers: for a request
    or a response that its serializer takes, [calculateTunnelRequestSize]
    and [calculateTunnelResponseSize] give the size of the header plus the
    size of what the serializer wrote, and a request takes five bytes more
    than its name length. *)
Theorem tunnel_sizes_match_the_serializers :
  (forall (r : Request.t) (buf : Buffer),
     serializeRequest r = Ok buf ->
     buf_length buf = REQUEST_SIZE + Request.nameLength r
     /\ calculateTunnelRequestSize r = HEADER_SIZE + buf_length buf)
  /\ (forall (p : Response.t) (buf : Buffer),
        serializeResponse p = Ok buf ->
        calculateTunnelResponseSize p = HEADER_SIZE + buf_length buf)
  /\ (forall (h : Header.t) (buf : Buffer),
        serializeHeader h = Ok buf -> buf_length buf = HEADER_SIZE).
Proof.
  split; [|split].
  - intros r buf. unfold serializeRequest.
    destruct (validateRequest r) as [[]|e] eqn:Hv; cbn [bind]; cbv zeta;
      [|discriminate].
    intro H. apply Ok_inj in H. subst buf.
    destruct (validateRequest_ok r Hv) as (_ & Hl & _).
    unfold calculateTunnelRequestSize.
    rewrite !buf_length_app, buf_length_be_bytes.
    fold (byteLength (Request.name r)). rewrite <- Hl.
    change (buf_length [to_byte (Request.proto r)]) with 1.
    unfold REQUEST_SIZE, HEADER_SIZE. lia.
  - intros p buf. unfold serializeResponse.
    destruct (validateResponse p) as [[]|e]; cbn [bind]; cbv zeta;
      [|discriminate].
    intro H. apply Ok_inj in H. subst buf.
    unfold calculateTunnelResponseSize.
    rewrite !buf_length_app, !buf_length_be_bytes.
    fold (byteLength (Response.domain p)).
    change (buf_length [to_byte (Response.status p)]) with 1.
    unfold RESPONSE_SIZE, HEADER_SIZE. lia.
  - intros h buf. rewrite serializeHeader_validate.
    destruct (validateHeader h) as [[]|e]; cbn [bind]; [|discriminate].
    intro H. injection H as <-. apply header_layout_length.
Qed.

Lemma tunnel_sizes_match_the_serializers_witness :
  calculateTunnelRequestSize (Request.new ProtoType.HTTP (js "alpha")) = 22
  /\ calculateTunnelResponseSize
       (Response.new StatusCode.OK 3600 (js "alpha.example")) = 38.
Proof.
  destruct tunnel_sizes_match_the_serializers as (Hq & Hp & _).
  split.
  - destruct (Hq (Request.new ProtoType.HTTP (js "alpha"))
                (map to_byte [1; 0; 0; 0; 5; 97; 108; 112; 104; 97]))
      as [_ ->]; reflexivity.
  - rewrite (Hp (Response.new StatusCode.OK 3600 (js "alpha.example"))
               ok_payload); reflexivity.
Defined.

(** ** The framed reader, for one byte or more *)

Lemma readN_listen_then (n : Z) (chunks : list Buffer) :
  forall (s : Readable) (rest : list StreamEvent),
    open_stream s -> 0 < n ->
    buf_length (rd_buffer s) < n ->
    n <= buf_length (rd_buffer s ++ List.concat chunks) ->
    exists s' events',
      readN_listen n [] s (map Push chunks ++ rest)
      = (Resolved (firstn (Z.to_nat n) (rd_buffer s ++ List.concat chunks)),
         s', events')
      /\ delivers_then s' events'
           (skipn (Z.to_nat n) (rd_buffer s ++ List.concat chunks)) rest.
Proof.
  induction chunks as [|c chunks IH]; intros s rest Hopen Hn Hlt Hge.
  - cbn [List.concat] in Hge. rewrite app_nil_r in Hge. lia.
  - cbn [map app readN_listen List.concat].
    set (s1 := deliver (Push c) s).
    assert (Hopen1 : open_stream s1) by exact Hopen.
    rewrite on_readable_then_end_open by (apply Hopen1 || assumption).
    change (rd_buffer s1) with (rd_buffer s ++ c).
    rewrite (app_assoc (rd_buffer s) c).
    destruct (Z.leb_spec n (buf_length (rd_buffer s ++ c))) as [Hle|Hgt].
    + exists (consume n s1), (map Push chunks ++ rest).
      assert (Hnat : (Z.to_nat n <= List.length (rd_buffer s ++ c))%nat)
        by (unfold buf_length in Hle; lia).
      rewrite (firstn_app_enough _ (rd_buffer s ++ c) (List.concat chunks))
        by assumption.
      split; [reflexivity|].
      split; [exact Hopen1|].
      exists chunks. split; [reflexivity|].
      cbn [consume rd_buffer]. change (rd_buffer s1) with (rd_buffer s ++ c).
      now rewrite (skipn_app_enough _ (rd_buffer s ++ c) (List.concat chunks)).
    + apply (IH s1 rest Hopen1 Hn Hgt).
      change (rd_buffer s1) with (rd_buffer s ++ c).
      now rewrite <- app_assoc.
Qed.

Lemma readN_then (n : Z) (s : Readable) (events rest : list StreamEvent)
  (bytes : Buffer) :
  delivers_then s events bytes rest -> 0 < n <= buf_length bytes ->
  exists s' events',
    readN n s events = (Resolved (firstn (Z.to_nat n) bytes), s', events')
    /\ delivers_then s' events' (skipn (Z.to_nat n) bytes) rest.
Proof.
  intros (Hopen & chunks & -> & <-) Hn.
  unfold readN.
  rewrite on_readable_then_end_open by (apply Hopen || lia).
  destruct (Z.leb_spec n (buf_length (rd_buffer s))) as [Hle|Hgt].
  - exists (consume n s), (map Push chunks ++ rest).
    assert (Hnat : (Z.to_nat n <= List.length (rd_buffer s))%nat)
      by (unfold buf_length in Hle; lia).
    rewrite firstn_app_enough by assumption. split; [reflexivity|].
    split; [exact Hopen|].
    exists chunks. split; [reflexivity|].
    cbn [consume rd_buffer]. now rewrite skipn_app_enough.
  - apply readN_listen_then; assumption || lia.
Qed.

(** X9.  [readN(stream, n)] for [n >= 1] on an open stream: once the stream
    has received [n] bytes or more, in whatever chunks, the promise resolves
    with exactly the first [n] of them; the bytes after these stay with the
    stream, for the next read, and the events after the chunks are still to
    come. *)
Theorem readN_takes_the_first_bytes (n : Z) (s : Readable)
  (events rest : list StreamEvent) (bytes : Buffer) :
  delivers_then s events bytes rest -> 0 < n <= buf_length bytes ->
  exists s' events',
    readN n s events = (Resolved (prefix n bytes), s', events')
    /\ buf_length (prefix n bytes) = n
    /\ delivers_then s' events' (skipn (Z.to_nat n) bytes) rest.
Proof.
  intros Hd Hn.
  destruct (readN_then n s events rest bytes Hd Hn) as (s' & ev' & Hr & Hd').
  exists s', ev'. split; [exact Hr|]. split; [|exact Hd'].
  apply buf_length_prefix. lia.
Qed.

Lemma readN_takes_the_first_bytes_witness :
  let one := [Byte.x01; Byte.x02] in
  let two := [Byte.x03; Byte.x04; Byte.x05] in
  exists s' events',
    readN 4 fresh_stream [Push one; Push two; Eof]
    = (Resolved [Byte.x01; Byte.x02; Byte.x03; Byte.x04], s', events')
    /\ buf_length [Byte.x01; Byte.x02; Byte.x03; Byte.x04] = 4
    /\ delivers_then s' events' [Byte.x05] [Eof].
Proof.
  intros one two.
  apply (readN_takes_the_first_bytes 4 fresh_stream
           [Push one; Push two; Eof] [Eof] (one ++ two)).
  - split; [split; reflexivity|]. exists [one; two]. split; reflexivity.
  - vm_compute. split; [reflexivity | discriminate].
Defined.

Lemma readN_listen_short (n : Z) (chunks : list Buffer) :
  forall s : Readable,
    open_stream s -> 0 < n ->
    buf_length (rd_buffer s ++ List.concat chunks) < n ->
    (readN_listen n [] s (map Push chunks)
     = (Pending, buffering s (List.concat chunks), []))
    /\ (forall (msg : jsstring) (rest : list StreamEvent),
          readN_listen n [] s (map Push chunks ++ Fault msg :: rest)
          = (Rejected (TransportError msg),
             buffering s (List.concat chunks), rest)).
Proof.
  induction chunks as [|c chunks IH]; intros s Hopen Hn Hlt.
  - cbn [List.concat map app readN_listen]. unfold buffering.
    rewrite app_nil_r. destruct s. split; reflexivity.
  - cbn [map app readN_listen List.concat].
    set (s1 := deliver (Push c) s).
    assert (Hopen1 : open_stream s1) by exact Hopen.
    assert (Hlt1 : buf_length (rd_buffer s1 ++ List.concat chunks) < n).
    { change (rd_buffer s1) with (rd_buffer s ++ c).
      now rewrite <- app_assoc. }
    rewrite on_readable_then_end_open by (apply Hopen1 || assumption).
    destruct (Z.leb_spec n (buf_length (rd_buffer s1))) as [Hle|Hgt].
    + rewrite buf_length_app in Hlt1.
      pose proof (buf_length_nonneg (List.concat chunks)). lia.
    + destruct (IH s1 Hopen1 Hn Hlt1) as [IH1 IH2].
      assert (E : buffering s1 (List.concat chunks)
                  = buffering s (c ++ List.concat chunks)).
      { unfold buffering, s1. cbn [deliver rd_buffer rd_ended rd_endEmitted].
        now rewrite <- app_assoc. }
      rewrite <- E. split; [exact IH1 | exact IH2].
Qed.

(** X10.  [readN(stream, n)] for [n >= 1] while fewer than [n] bytes have
    arrived on an open stream: the promise is pending, and the bytes stay
    buffered; if the stream then ends, the promise is rejected with "Stream
    ended before reading enough data" and the bytes that had arrived are
    gone; if the stream then errors, the promise is rejected with that error
    and the bytes are still buffered. *)
Theorem readN_short_of_bytes (n : Z) (s : Readable) (chunks : list Buffer) :
  open_stream s -> 0 < n ->
  buf_length (rd_buffer s ++ List.concat chunks) < n ->
  (readN n s (map Push chunks)
   = (Pending, buffering s (List.concat chunks), []))
  /\ (forall rest : list StreamEvent,
        readN n s (map Push chunks ++ Eof :: rest)
        = (Rejected StreamEnded, finished_stream, rest))
  /\ (forall (msg : jsstring) (rest : list StreamEvent),
        readN n s (map Push chunks ++ Fault msg :: rest)
        = (Rejected (TransportError msg),
           buffering s (List.concat chunks), rest)).
Proof.
  intros Hopen Hn Hlt.
  assert (Hs : buf_length (rd_buffer s) < n).
  { rewrite buf_length_app in Hlt.
    pose proof (buf_length_nonneg (List.concat chunks)). lia. }
  destruct (readN_listen_short n chunks s Hopen Hn Hlt) as [H1 H2].
  split; [|split].
  - unfold readN.
    rewrite on_readable_then_end_open by (apply Hopen || assumption).
    destruct (Z.leb_spec n (buf_length (rd_buffer s))); [lia | exact H1].
  - intro rest. now apply readN_eof.
  - intros msg rest. unfold readN.
    rewrite on_readable_then_end_open by (apply Hopen || assumption).
    destruct (Z.leb_spec n (buf_length (rd_buffer s))); [lia | apply H2].
Qed.

Lemma readN_short_of_bytes_witness :
  readN 4 fresh_stream [Push [Byte.x01]; Push [Byte.x02]; Eof; Push []]
  = (Rejected StreamEnded, finished_stream, [Push []]).
Proof.
  destruct (readN_short_of_bytes 4 fresh_stream [[Byte.x01]; [Byte.x02]])
    as (_ & H & _).
  - split; reflexivity.
  - lia.
  - vm_compute. reflexivity.
  - apply (H [Push []]).
Defined.

Lemma stream_read_conserves (size : Z) (s s' : Readable)
  (r : option Buffer) :
  stream_read size s = (r, s') ->
  match r with
  | Some chunk =>
      (List.length chunk + List.length (rd_buffer s'))%nat
      = List.length (rd_buffer s)
  | None => s' = s
  end.
Proof.
  unfold stream_read.
  destruct (Z.leb_spec size 0); [intro E; injection E as <- <-; reflexivity|].
  destruct (Z.leb_spec size (buf_length (rd_buffer s))) as [Hle|Hgt].
  - intro E. injection E as <- <-. cbn [rd_buffer].
    rewrite length_firstn, length_skipn. unfold buf_length in Hle. lia.
  - destruct (rd_ended s && negb (is_nil (rd_buffer s)));
      intro E; injection E as <- <-; cbn [rd_buffer List.length]; lia
      || reflexivity.
Qed.

Lemma onReadable_loop_conserves (fuel : nat) :
  forall (n : Z) (buf : Buffer) (s : Readable),
    let r := onReadable_loop fuel n buf s in
    (List.length (snd (fst r)) + List.length (rd_buffer (snd r)))%nat
    = (List.length buf + List.length (rd_buffer s))%nat
    /\ (fst (fst r) = true -> buf_length (snd (fst r)) = n).
Proof.
  induction fuel as [|fuel IH]; intros n buf s; cbv zeta.
  - cbn. split; [reflexivity | discriminate].
  - cbn [onReadable_loop].
    destruct (stream_read (n - buf_length buf) s) as [[chunk|] s'] eqn:E;
      apply stream_read_conserves in E.
    + destruct (Z.eqb_spec (buf_length (buf ++ chunk)) n) as [Hn|Hn].
      * cbn [fst snd]. rewrite length_app. split; [lia | intros _; exact Hn].
      * destruct (IH n (buf ++ chunk) s') as [H1 H2].
        split; [|exact H2]. rewrite H1, length_app. lia.
    + subst s'. cbn. split; [reflexivity | discriminate].
Qed.

Lemma on_readable_then_end_conserves (n : Z) (buf : Buffer) (s : Readable) :
  let r := on_readable_then_end n buf s in
  (List.length (snd (fst r)) + List.length (rd_buffer (snd r)))%nat
  = (List.length buf + List.length (rd_buffer s))%nat
  /\ (forall out, fst (fst r) = Resolved out ->
      out = snd (fst r) /\ buf_length out = n).
Proof.
  cbv zeta. unfold on_readable_then_end, onReadable.
  pose proof (onReadable_loop_conserves (S (List.length (rd_buffer s)))
                n buf s) as H.
  cbv zeta in H.
  destruct (onReadable_loop _ n buf s) as [[[|] buf'] s']; cbn [fst snd] in *.
  - destruct H as [H1 H2]. split; [exact H1|].
    intros out E. injection E as <-. split; [reflexivity | now apply H2].
  - destruct H as [H1 _]. destruct (end_due s'); cbn [fst snd emit_end rd_buffer];
      (split; [exact H1 | discriminate]).
Qed.

Lemma readN_listen_conserves (n : Z) (events : list StreamEvent) :
  forall (buf : Buffer) (s : Readable) (out : Buffer) (s' : Readable)
    (rest : list StreamEvent),
    readN_listen n buf s events = (Resolved out, s', rest) ->
    buf_length out = n
    /\ (List.length out + pending_bytes s' rest)%nat
       = (List.length buf + pending_bytes s events)%nat.
Proof.
  induction events as [|ev events IH]; intros buf s out s' rest;
    [discriminate|].
  assert (Hgen : forall s1,
             (List.length (rd_buffer s1) + pushed events
              = List.length (rd_buffer s) + pushed (ev :: events))%nat ->
             match on_readable_then_end n buf s1 with
             | (Pending, buf', s2) => readN_listen n buf' s2 events
             | (outcome, _, s2) => (outcome, s2, events)
             end = (Resolved out, s', rest) ->
             buf_length out = n
             /\ (List.length out + pending_bytes s' rest
                 = List.length buf + pending_bytes s (ev :: events))%nat).
  { intros s1 Hs1.
    pose proof (on_readable_then_end_conserves n buf s1) as H.
    cbv zeta in H.
    destruct (on_readable_then_end n buf s1) as [[[o|e|] buf'] s2];
      cbn [fst snd] in H; destruct H as [H1 H2].
    - intro E. injection E as <- <- <-.
      destruct (H2 o eq_refl) as [-> Hn]. split; [exact Hn|].
      unfold pending_bytes. lia.
    - discriminate.
    - intro E. apply IH in E. destruct E as [Hn E]. split; [exact Hn|].
      unfold pending_bytes in *. lia. }
  destruct ev as [c| |msg]; cbn [readN_listen].
  - apply Hgen. cbn [deliver rd_buffer pushed]. rewrite length_app. lia.
  - apply Hgen. cbn [deliver rd_buffer pushed]. lia.
  - discriminate.
Qed.

Lemma readN_conserves (n : Z) (s s' : Readable)
  (events rest : list StreamEvent) (out : Buffer) :
  readN n s events = (Resolved out, s', rest) ->
  buf_length out = n
  /\ (List.length out + pending_bytes s' rest)%nat = pending_bytes s events.
Proof.
  unfold readN.
  pose proof (on_readable_then_end_conserves n [] s) as H. cbv zeta in H.
  destruct (on_readable_then_end n [] s) as [[[o|e|] buf'] s2];
    cbn [fst snd] in H; destruct H as [H1 H2].
  - intro E. injection E as <- <- <-.
    destruct (H2 o eq_refl) as [-> Hn]. split; [exact Hn|].
    unfold pending_bytes. cbn [List.length] in H1. lia.
  - discriminate.
  - intro E. apply readN_listen_conserves in E. destruct E as [Hn E].
    split; [exact Hn|]. unfold pending_bytes in *.
    cbn [List.length] in H1. lia.
Qed.

(** X11.  On any stream, open or ended, and whatever happens on it: when
    [readN(stream, n)] resolves, it resolves with exactly [n] bytes, and it
    has taken exactly these from the stream: the bytes buffered and still
    to come are [n] fewer than before. *)
Theorem readN_resolves_with_n_bytes (n : Z) (s s' : Readable)
  (events rest : list StreamEvent) (out : Buffer) :
  readN n s events = (Resolved out, s', rest) ->
  buf_length out = n
  /\ 0 < n
  /\ (List.length out + pending_bytes s' rest)%nat = pending_bytes s events.
Proof.
  intro H. destruct (readN_conserves n s s' events rest out H) as [Hn Hc].
  split; [exact Hn|]. split; [|exact Hc].
  destruct (Z.ltb_spec 0 n) as [|Hle]; [assumption|]. exfalso.
  assert (Hz : forall evs buf st,
             n <= buf_length buf ->
             outcome_of (readN_listen n buf st evs) <> Resolved out).
  { induction evs as [|ev evs IH]; intros buf st Hb; [discriminate|].
    destruct ev as [c| |msg]; cbn [readN_listen]; [| |discriminate];
      unfold on_readable_then_end;
      rewrite onReadable_nothing_wanted by assumption;
      (destruct (end_due _); [discriminate | now apply IH]). }
  revert H. unfold readN, on_readable_then_end.
  rewrite onReadable_nothing_wanted
    by (change (buf_length []) with 0; lia).
  destruct (end_due s); [discriminate|].
  intro H. apply (Hz events [] s); [change (buf_length []) with 0; lia|].
  now rewrite H.
Qed.

Lemma readN_resolves_with_n_bytes_witness :
  buf_length [Byte.x01; Byte.x02] = 2
  /\ 0 < 2
  /\ (2 + pending_bytes
            {| rd_buffer := [Byte.x03]; rd_ended := false;
               rd_endEmitted := false |} [Eof])%nat
     = pending_bytes
         {| rd_buffer := [Byte.x01]; rd_ended := false;
            rd_endEmitted := false |} [Push [Byte.x02; Byte.x03]; Eof].
Proof.
  apply (readN_resolves_with_n_bytes 2
           {| rd_buffer := [Byte.x01]; rd_ended := false;
              rd_endEmitted := false |}
           {| rd_buffer := [Byte.x03]; rd_ended := false;
              rd_endEmitted := false |}
           [Push [Byte.x02; Byte.x03]; Eof] [Eof]).
  reflexivity.
Defined.

(** ** The handshake, case by case *)

Lemma sendRequest_control_reply (w : World) (hdr : Header.t) (rest : Buffer) :
  control_reply w hdr rest ->
  exists head body w1,
    sendRequest w = (Resolved hdr, w1)
    /\ request_frames (w_client w) head body
    /\ w_client w1 = w_client w
    /\ w_trace w1 = w_trace w ++ [StreamWrite head; StreamWrite body]
    /\ w_session w1 = w_session w /\ w_expiry w1 = w_expiry w
    /\ delivers (w_stream w1) (w_script w1) rest.
Proof.
  intros (Hv & Hvh & Hwh & Hd).
  destruct (request_frames_exist _ Hv) as (head & body & Hb & Hh).
  exists head, body.
  unfold sendRequest, await, this. rewrite Hb. cbn [lift ret].
  cbv zeta in Hh. rewrite Hh. cbn [lift ret].
  unfold perform. cbv beta iota.
  set (w0 := {| w_client := w_client w; w_stream := w_stream w;
                w_script := w_script w; w_session := w_session w;
                w_expiry := w_expiry w;
                w_trace := w_trace w ++ [StreamWrite head; StreamWrite body]
             |}).
  destruct (await_readN_exact HEADER_SIZE w0 (header_layout hdr ++ rest))
    as (w1 & Hr & Hc & Ht & Hs & He & Hd1).
  { exact Hd. }
  { rewrite buf_length_app, header_layout_length.
    pose proof (buf_length_nonneg rest). unfold HEADER_SIZE. lia. }
  rewrite Hr.
  change (Z.to_nat HEADER_SIZE) with 12%nat in *.
  rewrite firstn_header_layout. rewrite skipn_header_layout in Hd1.
  rewrite deserializeHeader_layout, Hvh by assumption.
  exists w1. cbn [bind lift ret].
  rewrite Hc, Ht, Hs, He. repeat split; try assumption; apply Hd1.
Qed.

Lemma handleConnection_control_reply (w : World) (hdr : Header.t)
  (rest : Buffer) :
  control_reply w hdr rest ->
  exists head body w1,
    request_frames (w_client w) head body
    /\ w_client w1 = Client.with_session (w_client w)
    /\ w_trace w1
       = w_trace w ++ [SessionOpen; StreamWrite head; StreamWrite body]
    /\ w_session w1 = w_session w /\ w_expiry w1 = w_expiry w
    /\ delivers (w_stream w1) (w_script w1) rest
    /\ handleConnection w
       = (if Header.type hdr =? MessageType.Error then
            errorBuf <~ await_readN (Header.length hdr) ;;
            throw (ServerError (utf8_decode errorBuf))
          else if negb (Header.type hdr =? MessageType.Response) then
            throw (UnexpectedHeaderType (Header.type hdr))
          else
            responseBuf <~ await_readN (Header.length hdr) ;;
            response <~ lift (deserializeResponse responseBuf) ;;
            on_status response) w1.
Proof.
  intro H.
  assert (H0 : control_reply (snd (open_session w)) hdr rest) by exact H.
  set (w0 := snd (open_session w)) in *.
  destruct (sendRequest_control_reply w0 hdr rest H0)
    as (head & body & w1 & Hs & Hf & Hc & Ht & Hse & He & Hd).
  exists head, body, w1.
  split; [exact Hf|].
  split; [rewrite Hc; reflexivity|].
  split.
  { rewrite Ht. unfold w0. cbn [open_session snd w_trace].
    now rewrite <- app_assoc. }
  split; [rewrite Hse; reflexivity|].
  split; [rewrite He; reflexivity|].
  split; [exact Hd|].
  unfold handleConnection. unfold await at 1.
  change (open_session w) with (Resolved tt, w0). cbv iota.
  unfold await at 1. rewrite Hs. reflexivity.
Qed.


(** X12.  The two frames [sendRequest] writes, read back: the first decodes
    to a header of type Request whose length is the size of the second and
    whose flags are [FLAG_METRICS] when the client was built with
    [metrics], zero otherwise; the second is the protocol byte, the byte
    length of the name on four bytes, and the name in UTF-8, and decodes to
    the request of the client when the name has no unpaired surrogate;
    together they take [calculateTunnelRequestSize] bytes. *)
Theorem request_frames_read_back (c : Client.t) (head body : Buffer) :
  request_frames c head body ->
  let request := Request.new (Client.proto c) (Client.name c) in
  deserializeHeader head
  = Ok (Header.make VERSION MessageType.Request
          (if Client.metrics c then FLAG_METRICS else 0) (buf_length body) 0)
  /\ body = [to_byte (Client.proto c)]
            ++ be_bytes 4 (byteLength (Client.name c))
            ++ utf8_encode (Client.name c)
  /\ buf_length head + buf_length body = calculateTunnelRequestSize request
  /\ (well_formed (Client.name c) = true ->
      deserializeRequest body = Ok request).
Proof.
  intros [Hb Hh] request.
  assert (Hv : validateRequest request = Ok tt).
  { revert Hb. unfold serializeRequest. fold request.
    destruct (validateRequest request) as [[]|e]; [reflexivity|discriminate]. }
  assert (Hbody : body = [to_byte (Client.proto c)]
                         ++ be_bytes 4 (byteLength (Client.name c))
                         ++ utf8_encode (Client.name c)).
  { revert Hb. unfold serializeRequest. fold request. rewrite Hv.
    cbn [bind]. cbv zeta. intro H. apply Ok_inj in H. now subst body. }
  destruct (validateRequest_ok _ Hv) as (_ & _ & Hr).
  cbn [request Request.new Request.nameLength] in Hr.
  assert (Hlen : buf_length body = REQUEST_SIZE + byteLength (Client.name c)).
  { rewrite Hbody, !buf_length_app, buf_length_be_bytes.
    fold (byteLength (Client.name c)).
    change (buf_length [to_byte (Client.proto c)]) with 1.
    unfold REQUEST_SIZE. lia. }
  set (header := Header.make VERSION MessageType.Request
                   (if Client.metrics c then FLAG_METRICS else 0)
                   (buf_length body) 0).
  assert (Eh : (let header :=
                  Header.new MessageType.Request (buf_length body) in
                if Client.metrics c then Header.setFlag header FLAG_METRICS
                else header) = header).
  { unfold header. cbv zeta. now destruct (Client.metrics c). }
  rewrite Eh in Hh. rewrite serializeHeader_validate in Hh.
  assert (Hvh : validateHeader header = Ok tt).
  { destruct (validateHeader header) as [[]|e]; [reflexivity|discriminate]. }
  rewrite Hvh in Hh. cbn [bind] in Hh. apply Ok_inj in Hh. subst head.
  assert (Hw : wire_header header).
  { unfold wire_header, header.
    cbn [Header.version Header.type Header.flags Header.length
           Header.reserved].
    unfold VERSION, MessageType.Request, FLAG_METRICS.
    unfold MAX_STRING_LENGTH, REQUEST_SIZE in *.
    destruct (Client.metrics c); lia. }
  split; [now rewrite deserializeHeader_layout, Hvh|].
  split; [exact Hbody|].
  split.
  { rewrite header_layout_length, Hlen.
    unfold calculateTunnelRequestSize, request. cbn [Request.new Request.name].
    unfold HEADER_SIZE, REQUEST_SIZE. lia. }
  intro Hwf.
  pose proof (request_round_trip request Hv Hwf) as Hrt.
  unfold serializeRequest in Hrt. rewrite Hv in Hrt. cbn [bind] in Hrt.
  cbv zeta in Hrt. rewrite Hbody. exact Hrt.
Qed.

Lemma request_frames_read_back_witness :
  let head := map to_byte [16; 1; 0; 0; 0; 0; 0; 0; 0; 0; 10; 0] in
  let body := map to_byte [1; 0; 0; 0; 5; 97; 108; 112; 104; 97] in
  deserializeHeader head = Ok (Header.make 16 1 0 10 0)
  /\ deserializeRequest body = Ok (Request.new ProtoType.HTTP (js "alpha")).
Proof.
  intros head body.
  destruct (request_frames_read_back alpha_client head body)
    as (Hh & _ & _ & Hb); [split; reflexivity|].
  split; [exact Hh | now apply Hb].
Defined.

(** X13.  A client whose protocol or name [validateRequest] refuses gets
    no further than opening the session: [run] is rejected with the error of
    the validation, which is "invalid protocol", "string field cannot be
    empty" or "string exceeds maximum length", and nothing has been written
    to the control stream or read from it. *)
Theorem run_rejects_an_invalid_request (w : World) (e : Error) :
  validateRequest
    (Request.new (Client.proto (w_client w)) (Client.name (w_client w)))
  = Err e ->
  run None w = (Rejected e, snd (open_session w))
  /\ w_trace (snd (run None w)) = w_trace w ++ [SessionOpen]
  /\ w_stream (snd (run None w)) = w_stream w
  /\ (e = InvalidProtocol \/ e = EmptyString \/ e = StringTooLong).
Proof.
  intro Hv.
  assert (Hrun : run None w = (Rejected e, snd (open_session w))).
  { apply (run_calm w _ _ [SessionOpen]); [|reflexivity|reflexivity].
    unfold handleConnection. unfold await at 1.
    change (open_session w) with (Resolved tt, snd (open_session w)).
    cbv iota. unfold await at 1.
    unfold sendRequest, await at 1, this.
    change (w_client (snd (open_session w)))
      with (Client.with_session (w_client w)).
    change (Client.proto (Client.with_session (w_client w)))
      with (Client.proto (w_client w)).
    change (Client.name (Client.with_session (w_client w)))
      with (Client.name (w_client w)).
    unfold serializeRequest. rewrite Hv. reflexivity. }
  rewrite Hrun. repeat split.
  rewrite validateRequest_new in Hv.
  destruct (negb _ && negb _); [left; congruence|].
  destruct (is_nil _); [right; left; congruence|].
  destruct (_ >? _); [right; right; congruence | discriminate].
Qed.

Lemma run_rejects_an_invalid_request_witness :
  let w := {| w_client :=
                Client.make (js "host:443") (js ":3000") false 7 (js "alpha")
                  [] false false;
              w_stream := fresh_stream; w_script := [];
              w_session := SessionStays; w_expiry := fun _ => [];
              w_trace := [] |} in
  run None w = (Rejected InvalidProtocol, snd (open_session w)).
Proof.
  intro w. apply (run_rejects_an_invalid_request w InvalidProtocol).
  reflexivity.
Defined.

(** X14.  When the server answers the registration with a header of type
    Error followed by a message of as many bytes as the header declares (one
    at least), [run] is rejected with "server error: " and the message
    decoded as UTF-8; the client has written its two frames, assigned no
    domain, and left the bytes after the message on the stream. *)
Theorem run_reports_a_server_error (w : World) (hdr : Header.t)
  (payload extra : Buffer) :
  control_reply w hdr (payload ++ extra) ->
  Header.type hdr = MessageType.Error ->
  Header.length hdr = buf_length payload -> 0 < buf_length payload ->
  exists head body w',
    run None w = (Rejected (ServerError (utf8_decode payload)), w')
    /\ message (ServerError (utf8_decode payload))
       = js "server error: " ++ utf8_decode payload
    /\ request_frames (w_client w) head body
    /\ w_trace w'
       = w_trace w ++ [SessionOpen; StreamWrite head; StreamWrite body]
    /\ getDomain (w_client w') = getDomain (w_client w)
    /\ delivers (w_stream w') (w_script w') extra.
Proof.
  intros H Hty Hlen Hpos.
  destruct (handleConnection_control_reply w hdr _ H)
    as (head & body & w1 & Hf & Hc & Ht & _ & _ & Hd & Hrun).
  destruct (await_readN_exact (Header.length hdr) w1 (payload ++ extra) Hd)
    as (w2 & Hr & Hc2 & Ht2 & _ & _ & Hd2).
  { rewrite Hlen, buf_length_app.
    pose proof (buf_length_nonneg extra). lia. }
  assert (Hfirst : firstn (Z.to_nat (Header.length hdr)) (payload ++ extra)
                   = payload).
  { rewrite Hlen. unfold buf_length. rewrite Nat2Z.id.
    rewrite firstn_app_enough, firstn_all by lia. reflexivity. }
  assert (Hskip : skipn (Z.to_nat (Header.length hdr)) (payload ++ extra)
                  = extra).
  { rewrite Hlen. unfold buf_length. rewrite Nat2Z.id.
    now apply skipn_at. }
  exists head, body, w2.
  split.
  { apply (run_calm w _ _ [SessionOpen; StreamWrite head; StreamWrite body]);
      [|now rewrite Ht2|reflexivity].
    rewrite Hrun, Hty.
    change (MessageType.Error =? MessageType.Error) with true. cbv iota.
    unfold await. rewrite Hr, Hfirst. reflexivity. }
  split; [reflexivity|].
  split; [exact Hf|].
  split; [now rewrite Ht2|].
  split; [now rewrite Hc2, Hc|].
  now rewrite <- Hskip.
Qed.

Lemma run_reports_a_server_error_witness :
  let hdr := Header.make VERSION MessageType.Error 0 4 0 in
  fst (run None (alpha_world [header_layout hdr; utf8_encode (js "full")]))
  = Rejected (ServerError (js "full")).
Proof.
  intro hdr.
  destruct (run_reports_a_server_error
              (alpha_world [header_layout hdr; utf8_encode (js "full")])
              hdr (utf8_encode (js "full")) [])
    as (head & body & w' & Hrun & _).
  - split; [reflexivity|]. split; [reflexivity|].
    split; [vm_compute; intuition discriminate|].
    split; [split; reflexivity|].
    exists [header_layout hdr; utf8_encode (js "full")], [].
    split; reflexivity.
  - reflexivity.
  - reflexivity.
  - reflexivity.
  - rewrite Hrun. reflexivity.
Defined.

(** X15.  When the server answers the registration with a valid header
    whose type is neither Error nor Response, [run] is rejected with
    "unexpected header type: " and the type, without reading anything after
    the header and without assigning a domain. *)
Theorem run_rejects_an_unexpected_header_type (w : World) (hdr : Header.t)
  (rest : Buffer) :
  control_reply w hdr rest ->
  Header.type hdr <> MessageType.Error ->
  Header.type hdr <> MessageType.Response ->
  exists head body w',
    run None w = (Rejected (UnexpectedHeaderType (Header.type hdr)), w')
    /\ request_frames (w_client w) head body
    /\ w_trace w'
       = w_trace w ++ [SessionOpen; StreamWrite head; StreamWrite body]
    /\ getDomain (w_client w') = getDomain (w_client w)
    /\ delivers (w_stream w') (w_script w') rest.
Proof.
  intros H He Hr.
  destruct (handleConnection_control_reply w hdr _ H)
    as (head & body & w1 & Hf & Hc & Ht & _ & _ & Hd & Hrun).
  exists head, body, w1.
  split.
  { apply (run_calm w _ _ [SessionOpen; StreamWrite head; StreamWrite body]);
      [|exact Ht|reflexivity].
    rewrite Hrun.
    destruct (Z.eqb_spec (Header.type hdr) MessageType.Error);
      [contradiction|].
    destruct (Z.eqb_spec (Header.type hdr) MessageType.Response);
      [contradiction|].
    reflexivity. }
  split; [exact Hf|]. split; [exact Ht|].
  split; [now rewrite Hc|]. exact Hd.
Qed.

Lemma run_rejects_an_unexpected_header_type_witness :
  let hdr := Header.make VERSION MessageType.Ack 0 0 0 in
  fst (run None (alpha_world [header_layout hdr]))
  = Rejected (UnexpectedHeaderType 4).
Proof.
  intro hdr.
  destruct (run_rejects_an_unexpected_header_type
              (alpha_world [header_layout hdr]) hdr [])
    as (head & body & w' & Hrun & _).
  - split; [reflexivity|]. split; [reflexivity|].
    split; [vm_compute; intuition discriminate|].
    split; [split; reflexivity|].
    exists [header_layout hdr], []. split; reflexivity.
  - discriminate.
  - discriminate.
  - rewrite Hrun. reflexivity.
Defined.



(** X17.  While the control stream has delivered fewer than the twelve
    bytes of a header, [run] is pending; if the stream then ends, [run] is
    rejected with "Stream ended before reading enough data", and if the
    stream then errors, with that error.  In each case the session has been
    opened, the two frames of the request have been written, and no domain
    has been assigned. *)
Theorem run_without_a_reply (w : World) (chunks : list Buffer) :
  validateRequest
    (Request.new (Client.proto (w_client w)) (Client.name (w_client w)))
  = Ok tt ->
  open_stream (w_stream w) ->
  buf_length (rd_buffer (w_stream w) ++ List.concat chunks) < HEADER_SIZE ->
  exists head body,
    request_frames (w_client w) head body
    /\ (forall (after : list StreamEvent) (outcome : Settled unit),
          (after = [] /\ outcome = Pending)
          \/ (exists rest, after = Eof :: rest
                           /\ outcome = Rejected StreamEnded)
          \/ (exists msg rest, after = Fault msg :: rest
                               /\ outcome = Rejected (TransportError msg)) ->
          w_script w = map Push chunks ++ after ->
          fst (run None w) = outcome
          /\ w_trace (snd (run None w))
             = w_trace w ++ [SessionOpen; StreamWrite head; StreamWrite body]
          /\ getDomain (w_client (snd (run None w)))
             = getDomain (w_client w)).
Proof.
  intros Hv Hopen Hlt.
  destruct (handleConnection_writes w Hv) as (head & body & Hf & Hrun).
  exists head, body. split; [exact Hf|].
  intros after outcome Hcase Hscript.
  assert (E : exists w',
             run None w = (outcome, w')
             /\ w_client w' = Client.with_session (w_client w)
             /\ w_trace w'
                = w_trace w
                  ++ [SessionOpen; StreamWrite head; StreamWrite body]).
  { assert (E : exists w',
               handleConnection w = (outcome, w')
               /\ w_client w' = Client.with_session (w_client w)
               /\ w_trace w'
                  = w_trace w
                    ++ [SessionOpen; StreamWrite head; StreamWrite body]);
      [|destruct E as (w' & E & Hc & Ht); exists w';
        split; [exact (run_calm w w' outcome _ E Ht eq_refl)|];
        split; assumption].
    unfold handleConnection. rewrite Hrun.
    unfold await at 1, await_readN.
    cbn [w_stream w_script w_client w_session w_expiry w_trace].
    rewrite Hscript.
    assert (Hpos : 0 < HEADER_SIZE) by reflexivity.
    destruct (readN_listen_short HEADER_SIZE chunks (w_stream w)
                Hopen Hpos Hlt) as [H1 H2].
    assert (Hs : buf_length (rd_buffer (w_stream w)) < HEADER_SIZE).
    { rewrite buf_length_app in Hlt.
      pose proof (buf_length_nonneg (List.concat chunks)). lia. }
    destruct Hcase as [[-> ->]|[(rest & -> & ->)|(msg & rest & -> & ->)]].
    - rewrite app_nil_r. unfold readN.
      rewrite on_readable_then_end_open by (apply Hopen || assumption).
      destruct (Z.leb_spec HEADER_SIZE (buf_length (rd_buffer (w_stream w))));
        [lia|].
      rewrite H1. eexists. split; [reflexivity|]. split; reflexivity.
    - rewrite readN_eof by assumption.
      eexists. split; [reflexivity|]. split; reflexivity.
    - unfold readN.
      rewrite on_readable_then_end_open by (apply Hopen || assumption).
      destruct (Z.leb_spec HEADER_SIZE (buf_length (rd_buffer (w_stream w))));
        [lia|].
      rewrite H2. eexists. split; [reflexivity|]. split; reflexivity. }
  destruct E as (w' & -> & Hc & Ht). cbn [fst snd].
  split; [reflexivity|]. split; [exact Ht|]. now rewrite Hc.
Qed.

Lemma run_without_a_reply_witness :
  fst (run None (alpha_world [[to_byte VERSION]])) = Pending.
Proof.
  destruct (run_without_a_reply (alpha_world [[to_byte VERSION]])
              [[to_byte VERSION]])
    as (head & body & _ & H).
  - reflexivity.
  - split; reflexivity.
  - vm_compute. reflexivity.
  - destruct (H [] Pending) as [Ho _].
    + left. split; reflexivity.
    + reflexivity.
    + exact Ho.
Defined.

Lemma readN_listen_rejections (n : Z) (events : list StreamEvent) :
  forall (buf : Buffer) (s s' : Readable) (rest : list StreamEvent)
    (e : Error),
    readN_listen n buf s events = (Rejected e, s', rest) ->
    e = StreamEnded \/ exists msg, e = TransportError msg.
Proof.
  induction events as [|ev events IH]; intros buf s s' rest e;
    [discriminate|].
  assert (Hgen : forall s1,
             match on_readable_then_end n buf s1 with
             | (Pending, buf', s2) => readN_listen n buf' s2 events
             | (outcome, _, s2) => (outcome, s2, events)
             end = (Rejected e, s', rest) ->
             e = StreamEnded \/ exists msg, e = TransportError msg).
  { intro s1. unfold on_readable_then_end.
    destruct (onReadable n buf s1) as [[[|] buf'] s2]; [discriminate|].
    destruct (end_due s2).
    - intro E. injection E as <- _ _. now left.
    - apply IH. }
  destruct ev as [c| |msg]; cbn [readN_listen]; try apply Hgen.
  intro E. injection E as <- _ _. right. now exists msg.
Qed.

(** [readN] is rejected for two reasons only: the stream ended, or the
    stream raised an error. *)
Lemma readN_rejections (n : Z) (s s' : Readable)
  (events rest : list StreamEvent) (e : Error) :
  readN n s events = (Rejected e, s', rest) ->
  e = StreamEnded \/ exists msg, e = TransportError msg.
Proof.
  unfold readN, on_readable_then_end.
  destruct (onReadable n [] s) as [[[|] buf'] s2]; [discriminate|].
  destruct (end_due s2).
  - intro E. injection E as <- _ _. now left.
  - apply readN_listen_rejections.
Qed.

Lemma readN_zero_outcome (s : Readable) (events : list StreamEvent) :
  outcome_of (readN 0 s events) = Pending
  \/ outcome_of (readN 0 s events) = Rejected StreamEnded
  \/ exists msg, outcome_of (readN 0 s events) = Rejected (TransportError msg).
Proof.
  destruct (readN 0 s events) as [[o s'] rest] eqn:E. cbn [outcome_of fst].
  destruct o as [out|e|].
  - exfalso.
    assert (H : outcome_of (readN 0 s events) = Resolved out)
      by now rewrite E.
    revert H. unfold readN, on_readable_then_end.
    rewrite onReadable_nothing_wanted by apply buf_length_nonneg.
    destruct (end_due s); [discriminate | apply readN_listen_zero].
  - apply readN_rejections in E. destruct E as [->|[msg ->]];
      [now right; left | right; right; now exists msg].
  - now left.
Qed.

(** X18.  A reply header of type Error or Response that declares an empty
    payload is never answered: [readN(stream, 0)] does not resolve, so [run]
    neither resolves nor reports the server's error; it stays pending until
    the control stream ends or fails, and is then rejected for that. *)
Theorem run_hangs_on_an_empty_payload (w : World) (hdr : Header.t)
  (rest : Buffer) :
  control_reply w hdr rest ->
  Header.length hdr = 0 ->
  Header.type hdr = MessageType.Error
  \/ Header.type hdr = MessageType.Response ->
  fst (run None w) = Pending
  \/ fst (run None w) = Rejected StreamEnded
  \/ exists msg, fst (run None w) = Rejected (TransportError msg).
Proof.
  intros H Hlen Hty.
  destruct (handleConnection_control_reply w hdr _ H)
    as (head & body & w1 & _ & _ & Ht & _ & _ & _ & Hrun).
  assert (Hread : forall k : Buffer -> Async unit,
             exists o w',
               (buf <~ await_readN 0 ;; k buf) w1 = (o, w')
               /\ w_trace w' = w_trace w1
               /\ (o = Pending \/ o = Rejected StreamEnded
                   \/ exists msg, o = Rejected (TransportError msg))).
  { intro k. unfold await, await_readN.
    pose proof (readN_zero_outcome (w_stream w1) (w_script w1)) as Hz.
    destruct (readN 0 (w_stream w1) (w_script w1)) as [[o s'] rest'].
    cbn [outcome_of fst] in Hz.
    destruct Hz as [->|[->|[msg ->]]]; do 2 eexists;
      (split; [reflexivity|]); (split; [reflexivity|]);
      [now left | now right; left | right; right; now exists msg]. }
  assert (Hh : exists o w',
             handleConnection w = (o, w')
             /\ w_trace w' = w_trace w1
             /\ (o = Pending \/ o = Rejected StreamEnded
                 \/ exists msg, o = Rejected (TransportError msg))).
  { rewrite Hrun, Hlen. destruct Hty as [-> | ->].
    - change (MessageType.Error =? MessageType.Error) with true. cbv iota.
      apply Hread.
    - change (MessageType.Response =? MessageType.Error) with false.
      change (negb (MessageType.Response =? MessageType.Response))
        with false.
      cbv iota. apply Hread. }
  destruct Hh as (o & w' & Hh & Ht' & Ho).
  rewrite (run_calm w w' o [SessionOpen; StreamWrite head; StreamWrite body]
             Hh (eq_trans Ht' Ht) eq_refl).
  exact Ho.
Qed.

Lemma run_hangs_on_an_empty_payload_witness :
  let hdr := Header.make VERSION MessageType.Error 0 0 0 in
  let w := alpha_world [header_layout hdr] in
  fst (run None w) = Pending
  \/ fst (run None w) = Rejected StreamEnded
  \/ exists msg, fst (run None w) = Rejected (TransportError msg).
Proof.
  intros hdr w.
  apply (run_hangs_on_an_empty_payload w hdr []).
  - split; [reflexivity|]. split; [reflexivity|].
    split; [vm_compute; intuition discriminate|].
    split; [split; reflexivity|].
    exists [header_layout hdr], []. split; reflexivity.
  - reflexivity.
  - now left.
Defined.

(** ** The dispatcher, case by case *)

Lemma closed_or_eof_codec :
  closed_or_eof InvalidVersion = false
  /\ closed_or_eof PayloadTooLarge = false
  /\ closed_or_eof ReservedNonZero = false
  /\ closed_or_eof InvalidHeaderSize = false
  /\ closed_or_eof InvalidMetricsSize = false
  /\ closed_or_eof StreamEnded = false.
Proof. vm_compute. repeat split. Qed.

Lemma deserializeHeader_errors (buf : Buffer) (e : Error) :
  deserializeHeader buf = Err e ->
  e = InvalidHeaderSize \/ e = InvalidVersion \/ e = PayloadTooLarge
  \/ e = ReservedNonZero.
Proof.
  unfold deserializeHeader, validateHeader.
  repeat match goal with |- context [if ?c then _ else _] => destruct c end;
    cbn [bind]; intro H; try discriminate; injection H as <-; tauto.
Qed.

Lemma onNewStream_cases (w : World) :
  exists o w',
    onNewStream w = (o, w')
    /\ w_client w' = w_client w
    /\ ((o = Pending /\ w_trace w' = w_trace w)
        \/ (o = Resolved tt
            /\ exists effects,
                 w_trace w' = w_trace w ++ effects
                 /\ (effects = [HandleAccess]
                     \/ (exists h, effects = [HandleMetrics h])
                     \/ In StreamClose effects))).
Proof.
  unfold onNewStream, try_catch. unfold await at 1, await_readN.
  destruct (readN HEADER_SIZE (w_stream w) (w_script w)) as [[o s'] rest].
  set (w1 := Build_World _ _ _ _ _ _).
  assert (Hcatch : forall err,
             exists o' w',
               ((if includes (message err) (js "EOF")
                    || includes (message err) (js "closed")
                 then perform [ConsoleDebug (js "stream connection closed")]
                 else perform
                        [ConsoleError (js "failed to read stream header:")
                           err])
                ;;~ perform [StreamClose]) w1 = (o', w')
               /\ w_client w' = w_client w
               /\ ((o' = Pending /\ w_trace w' = w_trace w)
                   \/ (o' = Resolved tt
                       /\ exists effects,
                            w_trace w' = w_trace w ++ effects
                            /\ (effects = [HandleAccess]
                                \/ (exists h, effects = [HandleMetrics h])
                                \/ In StreamClose effects)))).
  { intro err.
    destruct (includes (message err) (js "EOF")
              || includes (message err) (js "closed"));
      unfold await, perform; cbn [w_client w_trace w1];
      do 2 eexists; (split; [reflexivity|]); (split; [reflexivity|]);
      right; (split; [reflexivity|]); eexists;
      (split; [cbn [w_trace]; rewrite <- app_assoc; reflexivity|]);
      right; right; cbn; tauto. }
  destruct o as [buf|e|].
  - unfold await at 1.
    destruct (deserializeHeader buf) as [h|e]; cbn [lift ret throw];
      [|apply Hcatch].
    destruct (Header.type h =? MessageType.Access).
    { unfold perform. do 2 eexists. split; [reflexivity|].
      split; [reflexivity|]. right. split; [reflexivity|].
      eexists. split; [reflexivity|]. now left. }
    destruct (Header.type h =? MessageType.Metrics).
    { unfold perform. do 2 eexists. split; [reflexivity|].
      split; [reflexivity|]. right. split; [reflexivity|].
      eexists. split; [reflexivity|]. right; left. now exists h. }
    destruct (Header.type h =? MessageType.End).
    { unfold await, this, perform. cbn [w_client w1].
      do 2 eexists. split; [reflexivity|].
      split; [reflexivity|]. right. split; [reflexivity|].
      eexists. split; [reflexivity|].
      right; right. now left. }
    unfold perform. do 2 eexists. split; [reflexivity|].
    split; [reflexivity|]. right. split; [reflexivity|].
    eexists. split; [reflexivity|].
    right; right. cbn. tauto.
  - apply Hcatch.
  - do 2 eexists. split; [reflexivity|]. split; [reflexivity|].
    left. split; reflexivity.
Qed.

(** X19.  [onNewStream] never rejects, and never touches the client
    object.  While it is pending it has done nothing; once it has resolved,
    it has handed the stream to [handleAccess], or handed it to
    [handleMetrics], or called [stream.close()]. *)
Theorem onNewStream_hands_over_or_closes (w : World) :
  (forall e, fst (onNewStream w) <> Rejected e)
  /\ w_client (snd (onNewStream w)) = w_client w
  /\ (fst (onNewStream w) = Pending ->
      w_trace (snd (onNewStream w)) = w_trace w)
  /\ (fst (onNewStream w) = Resolved tt ->
      exists effects,
        w_trace (snd (onNewStream w)) = w_trace w ++ effects
        /\ (effects = [HandleAccess]
            \/ (exists h, effects = [HandleMetrics h])
            \/ In StreamClose effects)).
Proof.
  destruct (onNewStream_cases w) as (o & w' & -> & Hc & H). cbn [fst snd].
  destruct H as [[-> Ht]|[-> Heff]].
  - split; [discriminate|]. split; [exact Hc|].
    split; [intros _; exact Ht | discriminate].
  - split; [discriminate|]. split; [exact Hc|].
    split; [discriminate | intros _; exact Heff].
Qed.

(** On a stream where nothing arrives, the dispatcher waits and logs
    nothing. *)
Lemma onNewStream_hands_over_or_closes_witness :
  w_trace (snd (onNewStream (alpha_world []))) = [].
Proof.
  destruct (onNewStream_hands_over_or_closes (alpha_world []))
    as (_ & _ & H & _).
  apply H. reflexivity.
Defined.

(** X20.  A stream that opens with a valid header of type Access, Metrics
    or End: [onNewStream] resolves having read the twelve bytes of the
    header and nothing more.  For Access it starts [handleAccess]; for
    Metrics it starts [handleMetrics] with the decoded header; for End it
    closes the stream, prints "tunnel timed out" at level [inf] and closes
    the session if there is one. *)
Theorem onNewStream_dispatches (w : World) (hdr : Header.t) (rest : Buffer) :
  validateHeader hdr = Ok tt -> wire_header hdr ->
  delivers (w_stream w) (w_script w) (header_layout hdr ++ rest) ->
  Header.type hdr = MessageType.Access
  \/ Header.type hdr = MessageType.Metrics
  \/ Header.type hdr = MessageType.End ->
  exists w',
    onNewStream w = (Resolved tt, w')
    /\ w_client w' = w_client w
    /\ delivers (w_stream w') (w_script w') rest
    /\ w_trace w'
       = w_trace w
         ++ (if Header.type hdr =? MessageType.Access then [HandleAccess]
             else if Header.type hdr =? MessageType.Metrics
             then [HandleMetrics hdr]
             else [StreamClose; ConsoleLog (js "wormhole [inf] tunnel timed out")]
                  ++ (if Client.session (w_client w) then [SessionClose]
                      else [])).
Proof.
  intros Hv Hw Hd Hty.
  destruct (await_readN_exact HEADER_SIZE w (header_layout hdr ++ rest) Hd)
    as (w1 & Hr & Hc & Ht & _ & _ & Hd1).
  { rewrite buf_length_app, header_layout_length.
    pose proof (buf_length_nonneg rest). unfold HEADER_SIZE. lia. }
  change (Z.to_nat HEADER_SIZE) with 12%nat in Hr, Hd1.
  rewrite firstn_header_layout in Hr. rewrite skipn_header_layout in Hd1.
  unfold onNewStream, try_catch. unfold await at 1. rewrite Hr.
  unfold await at 1. rewrite deserializeHeader_layout, Hv by assumption.
  cbn [bind lift ret].
  destruct Hty as [Hty|[Hty|Hty]]; rewrite Hty.
  - change (MessageType.Access =? MessageType.Access) with true. cbv iota.
    unfold perform. eexists. split; [reflexivity|].
    cbn [w_client w_trace w_stream w_script]. rewrite Hc, Ht.
    repeat split; apply Hd1.
  - change (MessageType.Metrics =? MessageType.Access) with false.
    change (MessageType.Metrics =? MessageType.Metrics) with true. cbv iota.
    unfold perform. eexists. split; [reflexivity|].
    cbn [w_client w_trace w_stream w_script]. rewrite Hc, Ht.
    repeat split; apply Hd1.
  - change (MessageType.End =? MessageType.Access) with false.
    change (MessageType.End =? MessageType.Metrics) with false.
    change (MessageType.End =? MessageType.End) with true. cbv iota.
    unfold await, this, perform. eexists. split; [reflexivity|].
    cbn [w_client w_trace w_stream w_script]. rewrite Hc, Ht.
    repeat split; apply Hd1.
Qed.

Lemma onNewStream_dispatches_witness :
  let hdr := Header.make VERSION MessageType.Metrics 0 36 0 in
  w_trace (snd (onNewStream (alpha_world [header_layout hdr])))
  = [HandleMetrics hdr].
Proof.
  intro hdr.
  destruct (onNewStream_dispatches (alpha_world [header_layout hdr]) hdr [])
    as (w' & Hrun & _ & _ & Ht).
  - reflexivity.
  - vm_compute. intuition discriminate.
  - split; [split; reflexivity|].
    exists [header_layout hdr], []. split; reflexivity.
  - right. now left.
  - rewrite Hrun. exact Ht.
Defined.

(** X21.  A stream that ends or fails before the twelve bytes of a header
    have arrived: [onNewStream] resolves after closing the stream.  The end
    of the stream is logged with [console.error], as a failure to read the
    header: the message of that error contains neither "EOF" nor "closed",
    which is what the quiet branch tests for.  An error of the stream is
    logged at debug level when its message contains "EOF" or "closed", with
    [console.error] otherwise. *)
Theorem onNewStream_without_a_header (w : World) (chunks : list Buffer) :
  open_stream (w_stream w) ->
  buf_length (rd_buffer (w_stream w) ++ List.concat chunks) < HEADER_SIZE ->
  (forall rest : list StreamEvent,
     w_script w = map Push chunks ++ Eof :: rest ->
     exists w',
       onNewStream w = (Resolved tt, w')
       /\ w_trace w'
          = w_trace w
            ++ [ConsoleError (js "failed to read stream header:") StreamEnded;
                StreamClose])
  /\ (forall (msg : jsstring) (rest : list StreamEvent),
        w_script w = map Push chunks ++ Fault msg :: rest ->
        exists w',
          onNewStream w = (Resolved tt, w')
          /\ w_trace w'
             = w_trace w
               ++ [if closed_or_eof (TransportError msg)
                   then ConsoleDebug (js "stream connection closed")
                   else ConsoleError (js "failed to read stream header:")
                          (TransportError msg);
                   StreamClose]).
Proof.
  intros Hopen Hlt.
  assert (Hpos : 0 < HEADER_SIZE) by reflexivity.
  destruct (readN_listen_short HEADER_SIZE chunks (w_stream w) Hopen Hpos Hlt)
    as [_ H2].
  assert (Hs : buf_length (rd_buffer (w_stream w)) < HEADER_SIZE).
  { rewrite buf_length_app in Hlt.
    pose proof (buf_length_nonneg (List.concat chunks)). lia. }
  split.
  - intros rest Hscript.
    unfold onNewStream, try_catch. unfold await at 1, await_readN.
    rewrite Hscript, readN_eof by assumption.
    change (includes (message StreamEnded) (js "EOF")
            || includes (message StreamEnded) (js "closed")) with false.
    cbv iota. unfold await, perform. cbn [w_trace].
    eexists. split; [reflexivity|]. cbn [w_trace].
    now rewrite <- app_assoc.
  - intros msg rest Hscript.
    unfold onNewStream, try_catch. unfold await at 1, await_readN.
    rewrite Hscript. unfold readN.
    rewrite on_readable_then_end_open by (apply Hopen || assumption).
    destruct (Z.leb_spec HEADER_SIZE (buf_length (rd_buffer (w_stream w))));
      [lia|].
    rewrite H2. unfold closed_or_eof.
    destruct (includes (message (TransportError msg)) (js "EOF")
              || includes (message (TransportError msg)) (js "closed"));
      unfold await, perform; eexists; (split; [reflexivity|]);
      cbn [w_trace]; now rewrite <- app_assoc.
Qed.

Lemma onNewStream_without_a_header_witness :
  w_trace
    (snd (onNewStream
            {| w_client := alpha_client; w_stream := fresh_stream;
               w_script := [Push [to_byte VERSION]; Eof];
               w_session := SessionStays; w_expiry := fun _ => [];
               w_trace := [] |}))
  = [ConsoleError (js "failed to read stream header:") StreamEnded;
     StreamClose].
Proof.
  destruct (onNewStream_without_a_header
              {| w_client := alpha_client; w_stream := fresh_stream;
                 w_script := [Push [to_byte VERSION]; Eof];
                 w_session := SessionStays; w_expiry := fun _ => [];
                 w_trace := [] |} [[to_byte VERSION]]) as [H _].
  - split; reflexivity.
  - vm_compute. reflexivity.
  - destruct (H []) as (w' & Hrun & Ht); [reflexivity|].
    rewrite Hrun. exact Ht.
Defined.

(** X22.  A stream that opens with twelve bytes [deserializeHeader]
    refuses: [onNewStream] resolves after logging the error of the decoder
    with [console.error] and closing the stream.  The error is one of
    "invalid version", "payload too large", "reserved field must be zero";
    the bytes after the twelve are left unread. *)
Theorem onNewStream_refuses_a_bad_header (w : World) (bytes : Buffer)
  (e : Error) :
  delivers (w_stream w) (w_script w) bytes ->
  HEADER_SIZE <= buf_length bytes ->
  deserializeHeader bytes = Err e ->
  exists w',
    onNewStream w = (Resolved tt, w')
    /\ w_trace w'
       = w_trace w
         ++ [ConsoleError (js "failed to read stream header:") e; StreamClose]
    /\ delivers (w_stream w') (w_script w')
         (skipn (Z.to_nat HEADER_SIZE) bytes)
    /\ (e = InvalidVersion \/ e = PayloadTooLarge \/ e = ReservedNonZero).
Proof.
  intros Hd Hlen He.
  destruct (await_readN_exact HEADER_SIZE w bytes Hd)
    as (w1 & Hr & Hc & Ht & _ & _ & Hd1); [unfold HEADER_SIZE in *; lia|].
  assert (Hkind : e = InvalidVersion \/ e = PayloadTooLarge
                  \/ e = ReservedNonZero).
  { destruct (deserializeHeader_errors bytes e He) as [->|H]; [|exact H].
    exfalso. revert He. unfold deserializeHeader.
    destruct (Z.ltb_spec (buf_length bytes) HEADER_SIZE); [lia|].
    destruct (validateHeader _) as [[]|e'] eqn:E; cbn [bind];
      [discriminate|].
    intro He'. injection He' as ->. revert E. unfold validateHeader.
    repeat match goal with |- context [if ?c then _ else _] => destruct c end;
      discriminate. }
  assert (Hquiet : includes (message e) (js "EOF")
                   || includes (message e) (js "closed") = false).
  { destruct Hkind as [-> | [-> | ->]]; reflexivity. }
  rewrite (deserializeHeader_prefix bytes Hlen) in He.
  unfold prefix in He.
  unfold onNewStream, try_catch. unfold await at 1. rewrite Hr.
  unfold await at 1. rewrite He. cbn [lift throw].
  rewrite Hquiet. unfold await, perform.
  eexists. split; [reflexivity|].
  cbn [w_trace w_stream w_script]. rewrite Ht, <- app_assoc.
  split; [reflexivity|]. split; [apply Hd1 | exact Hkind].
Qed.

Lemma onNewStream_refuses_a_bad_header_witness :
  let bytes := map to_byte [17; 3; 0; 0; 0; 0; 0; 0; 0; 0; 0; 0; 9] in
  w_trace (snd (onNewStream (alpha_world [bytes])))
  = [ConsoleError (js "failed to read stream header:") InvalidVersion;
     StreamClose].
Proof.
  intro bytes.
  destruct (onNewStream_refuses_a_bad_header (alpha_world [bytes]) bytes
              InvalidVersion)
    as (w' & Hrun & Ht & _).
  - split; [split; reflexivity|]. exists [bytes], []. split; reflexivity.
  - vm_compute. discriminate.
  - reflexivity.
  - rewrite Hrun. exact Ht.
Defined.

(** ** The forwarder, in general *)

Lemma listener_eqb_refl (l : Listener) : listener_eqb l l = true.
Proof. now destruct l. Qed.

















Lemma forward_before_cleanup (has_close : bool) (pre : list FwdEvent) :
  Forall (fun ev => terminating ev = false) pre ->
  forall st : Forward,
    isCleanedUp st = false -> fw_promise st = Pending -> fw_calls st = [] ->
    (forall l, used l st = true -> l = OnConnect) ->
    let st' := fold_left (forward_step has_close) pre st in
    isCleanedUp st' = false /\ fw_promise st' = Pending /\ fw_calls st' = []
    /\ (forall l, used l st' = true -> l = OnConnect).
Proof.
  induction 1 as [|ev pre Hev _ IH]; intros st Hc Hp Hcalls Hused; cbv zeta.
  - cbn [fold_left]. now repeat split.
  - cbn [fold_left]. destruct ev; try discriminate.
    assert (Hs : used OnStreamEnd st = false).
    { destruct (used OnStreamEnd st) eqn:E; [|reflexivity].
      apply Hused in E. discriminate. }
    assert (Hl : used OnLocalEnd st = false).
    { destruct (used OnLocalEnd st) eqn:E; [|reflexivity].
      apply Hused in E. discriminate. }
    assert (Hstep : forward_step has_close st LocalConnect
                    = if used OnConnect st then st
                      else connect_pipes (use OnConnect st)).
    { unfold used in Hs, Hl. unfold forward_step, used.
      cbn [listener_of].
      destruct (existsb (listener_eqb OnConnect) (fw_used st));
        [reflexivity|].
      cbv zeta.
      change (fw_used (connect_pipes (use OnConnect st)))
        with (OnConnect :: fw_used st).
      cbn [existsb listener_eqb orb]. rewrite Hs.
      change (fw_used (connect_pipes (use OnConnect st)))
        with (OnConnect :: fw_used st).
      cbn [existsb listener_eqb orb]. now rewrite Hl. }
    rewrite Hstep.
    apply IH; destruct (used OnConnect st) eqn:E;
      try assumption; try reflexivity.
    intros l. unfold used, connect_pipes, use. cbn [fw_used existsb].
    intro H. apply orb_prop in H. destruct H as [H|H].
    + destruct l; (reflexivity || discriminate).
    + now apply Hused.
Qed.

(** The first event other than ['connect'] runs [cleanup]. *)
Lemma forward_first_terminating (pre : list FwdEvent) (ev : FwdEvent) :
  Forall (fun ev => terminating ev = false) pre ->
  terminating ev = true ->
  let st := fold_left (forward_step true) pre forward_start in
  (fw_promise st = Pending /\ isCleanedUp st = false /\ fw_calls st = [])
  /\ isCleanedUp (forward_step true st ev) = true
  /\ fw_promise (forward_step true st ev) = verdict ev
  /\ close_calls (forward_step true st ev) = 1%nat.
Proof.
  intros Hpre Hev. cbv zeta.
  destruct (forward_before_cleanup true pre Hpre forward_start)
    as (Hc & Hp & Hcalls & Hused); try reflexivity.
  { intros l H. discriminate. }
  split; [now repeat split|].
  set (st := fold_left (forward_step true) pre forward_start) in *.
  assert (Hfresh : existsb (listener_eqb (listener_of ev)) (fw_used st)
                   = false).
  { destruct (existsb (listener_eqb (listener_of ev)) (fw_used st)) eqn:E;
      [|reflexivity].
    apply Hused in E. destruct ev; discriminate. }
  unfold forward_step. rewrite Hfresh.
  destruct ev; try discriminate; cbn [listener_of verdict];
    unfold cleanup, use; cbn [isCleanedUp fw_piped fw_calls fw_promise];
    rewrite Hc, Hcalls; cbn [app];
    try (destruct (fw_piped st)); now repeat split.
Qed.

(** [forwardStream] when [connect] throws: the promise is rejected with
    that error, whatever happens afterwards; no listener was registered,
    [cleanup] never runs and nothing is called on the inbound stream. *)
Lemma forwardStream_connect_throws (connect : Connect) (c : Client.t)
  (has_close : bool) (events : list FwdEvent) (msg : jsstring) :
  connect (Client.withTLS c) (target_host c) (target_port c) = Some msg ->
  forwardStream connect c has_close events
  = {| isCleanedUp := false; fw_promise := Rejected (ConnectFailed msg);
       fw_piped := false; fw_used := []; fw_calls := [] |}.
Proof. intro H. unfold forwardStream. now rewrite H. Qed.

(** X23.  [forwardStream] settles once.  When [net.connect] or
    [tls.connect] throws, as on a target address whose port is missing or
    out of range, the promise is rejected with that error: no listener is
    registered, [cleanup] never runs and nothing closes the inbound stream,
    whatever events follow.  When it returns a socket: events of the local
    connection's ['connect'] aside, the first event decides the promise,
    rejected with the error of an ['error'] event and resolved otherwise,
    and [cleanup] closes the inbound stream then; no later event changes the
    promise or closes the stream a second time; before such an event the
    promise is pending and nothing has been called. *)
Theorem forwardStream_settles_once (connect : Connect) (c : Client.t)
  (pre rest : list FwdEvent) (ev : FwdEvent) :
  Forall (fun ev => terminating ev = false) pre ->
  terminating ev = true ->
  match connect (Client.withTLS c) (target_host c) (target_port c) with
  | Some msg =>
      forall events : list FwdEvent,
        let st := forwardStream connect c true events in
        fw_promise st = Rejected (ConnectFailed msg)
        /\ isCleanedUp st = false /\ fw_used st = [] /\ fw_calls st = []
        /\ close_calls st = 0%nat
  | None =>
      (let st := forwardStream connect c true (pre ++ ev :: rest) in
       fw_promise st = verdict ev /\ isCleanedUp st = true
       /\ close_calls st = 1%nat)
      /\ (let st := forwardStream connect c true pre in
          fw_promise st = Pending /\ isCleanedUp st = false
          /\ fw_calls st = [])
  end.
Proof.
  intros Hpre Hev.
  destruct (connect (Client.withTLS c) (target_host c) (target_port c))
    as [msg|] eqn:E.
  - intro events. cbv zeta.
    rewrite (forwardStream_connect_throws connect c true events msg E).
    now repeat split.
  - destruct (forward_first_terminating pre ev Hpre Hev)
      as (Hbefore & Hc & Hp & Hn).
    cbv zeta. rewrite !(forwardStream_connected connect c true _ E).
    split; [|exact Hbefore].
    rewrite fold_left_app. cbn [fold_left].
    destruct (forwardStream_after_cleanup true rest _ Hc) as (H4 & H5 & H6).
    repeat split; congruence.
Qed.

(** Two runs: on a runtime that takes the port ":3000" of the client
    "alpha", an error of the local connection rejects the promise and closes
    the stream once, whatever follows; on a runtime that refuses a missing
    port, a client whose target is "localhost" gets the error of [connect]
    and the stream is not closed. *)
Lemma forwardStream_settles_once_witness :
  (let st :=
     forwardStream connect_any alpha_client true
       [LocalConnect; LocalErrored StreamEnded; StreamClosed; StreamEnd] in
   fw_promise st = Rejected StreamEnded /\ isCleanedUp st = true
   /\ close_calls st = 1%nat)
  /\ (let st :=
        forwardStream connect_with_port portless_client true
          [LocalConnect; StreamEnd] in
      fw_promise st = Rejected (ConnectFailed (js "ERR_SOCKET_BAD_PORT"))
      /\ close_calls st = 0%nat).
Proof.
  split.
  - destruct (forwardStream_settles_once connect_any alpha_client
                [LocalConnect] [StreamClosed; StreamEnd]
                (LocalErrored StreamEnded)) as [H _].
    + repeat constructor.
    + reflexivity.
    + exact H.
  - destruct (forwardStream_settles_once connect_with_port portless_client
                [] [] StreamEnd (Forall_nil _) eq_refl
                [LocalConnect; StreamEnd]) as (H1 & _ & _ & _ & H2).
    split; [exact H1 | exact H2].
Defined.



(** ** Access streams *)

Lemma first_terminating (events : list FwdEvent) :
  Forall (fun ev => terminating ev = false) events
  \/ exists pre ev rest,
       events = pre ++ ev :: rest
       /\ Forall (fun ev => terminating ev = false) pre
       /\ terminating ev = true.
Proof.
  induction events as [|ev events IH]; [left; constructor|].
  destruct (terminating ev) eqn:E.
  - right. exists [], ev, events. repeat split; [constructor | exact E].
  - destruct IH as [IH|(pre & ev' & rest & -> & Hpre & Hev)].
    + left. now constructor.
    + right. exists (ev :: pre), ev', rest.
      repeat split; [now constructor | exact Hev].
Qed.

(** X25.  [handleAccess] first writes the acknowledgement, the twelve bytes
    10 04 00 ... 00, which decode to a header of type Ack and length zero;
    it then settles as the forwarder does.  When the forwarder resolves,
    [stream.close()] has been called twice, by the forwarder's [cleanup] and
    again by [handleAccess].  When the forwarder rejects, [handleAccess]
    rejects with the same error, and the stream has been closed once, by
    [cleanup], unless the rejection is the error thrown by [connect]: then
    the acknowledgement has been written and nothing has closed the stream.
    While the forwarder is pending nothing has closed the stream. *)
Theorem handleAccess_acknowledges_then_forwards (connect : Connect)
  (c : Client.t) (events : list FwdEvent) :
  let a := handleAccess connect c events in
  ac_written a
  = [map to_byte [0x10; 0x04; 0; 0; 0; 0; 0; 0; 0; 0; 0; 0]]
  /\ (forall ack, In ack (ac_written a) ->
      deserializeHeader ack = Ok (Header.new MessageType.Ack 0))
  /\ ac_promise a = fw_promise (forwardStream connect c true events)
  /\ match connect (Client.withTLS c) (target_host c) (target_port c) with
     | Some msg =>
         ac_promise a = Rejected (ConnectFailed msg)
         /\ (close_calls (ac_forward a) + ac_closes a)%nat = 0%nat
         /\ fw_calls (ac_forward a) = []
     | None =>
         (close_calls (ac_forward a) + ac_closes a)%nat
         = match ac_promise a with
           | Resolved _ => 2%nat
           | Rejected _ => 1%nat
           | Pending => 0%nat
           end
     end.
Proof.
  cbv zeta. unfold handleAccess.
  change sendAck
    with (@Ok Buffer (map to_byte [0x10; 0x04; 0; 0; 0; 0; 0; 0; 0; 0; 0; 0])).
  cbv iota beta zeta. cbn [ac_written ac_promise ac_forward ac_closes].
  split; [reflexivity|].
  split; [intros ack [<-|[]]; reflexivity|].
  split; [reflexivity|].
  destruct (connect (Client.withTLS c) (target_host c) (target_port c))
    as [msg|] eqn:E.
  { rewrite (forwardStream_connect_throws connect c true events msg E).
    now repeat split. }
  rewrite (forwardStream_connected connect c true events E).
  destruct (first_terminating events)
    as [Hall|(pre & ev & rest & -> & Hpre & Hev)].
  - destruct (forward_before_cleanup true events Hall forward_start)
      as (_ & Hp & Hcalls & _); try reflexivity.
    { intros l H. discriminate. }
    rewrite Hp. unfold close_calls. rewrite Hcalls. reflexivity.
  - destruct (forward_first_terminating pre ev Hpre Hev)
      as (_ & Hc & Hp & Hn).
    destruct (forwardStream_after_cleanup true rest _ Hc) as (_ & H5 & H6).
    rewrite fold_left_app. cbn [fold_left].
    rewrite H5, H6, Hp, Hn. destruct ev; try discriminate; reflexivity.
Qed.

(** The acknowledgement decodes to a header of type Ack; and on a runtime
    that refuses a missing port, [handleAccess] for a client whose target
    is "localhost" is rejected without the stream being closed. *)
Lemma handleAccess_acknowledges_then_forwards_witness :
  deserializeHeader (map to_byte [0x10; 0x04; 0; 0; 0; 0; 0; 0; 0; 0; 0; 0])
  = Ok (Header.new MessageType.Ack 0)
  /\ (let a := handleAccess connect_with_port portless_client
                 [LocalConnect; StreamEnd] in
      ac_promise a = Rejected (ConnectFailed (js "ERR_SOCKET_BAD_PORT"))
      /\ (close_calls (ac_forward a) + ac_closes a)%nat = 0%nat).
Proof.
  split.
  - destruct (handleAccess_acknowledges_then_forwards connect_any
                alpha_client [LocalConnect; StreamEnd]) as (_ & H & _).
    apply H. left. reflexivity.
  - destruct (handleAccess_acknowledges_then_forwards connect_with_port
                portless_client [LocalConnect; StreamEnd])
      as (_ & _ & _ & H1 & H2 & _).
    split; [exact H1 | exact H2].
Defined.

(** ** Metrics streams *)

Lemma await_readN_then (n : Z) (w : World) (bytes : Buffer)
  (rest : list StreamEvent) :
  delivers_then (w_stream w) (w_script w) bytes rest ->
  0 < n <= buf_length bytes ->
  exists w',
    await_readN n w = (Resolved (firstn (Z.to_nat n) bytes), w')
    /\ w_client w' = w_client w /\ w_trace w' = w_trace w
    /\ delivers_then (w_stream w') (w_script w') (skipn (Z.to_nat n) bytes)
         rest.
Proof.
  intros Hd Hn.
  destruct (readN_then n _ _ _ _ Hd Hn) as (s' & ev' & Hr & Hd').
  unfold await_readN. rewrite Hr.
  eexists. split; [reflexivity|]. cbn. repeat split; apply Hd'.
Qed.

Lemma await_readN_conserves (n : Z) (w w' : World) (out : Buffer) :
  await_readN n w = (Resolved out, w') ->
  buf_length out = n
  /\ (List.length out + pending_bytes (w_stream w') (w_script w'))%nat
     = pending_bytes (w_stream w) (w_script w)
  /\ w_client w' = w_client w /\ w_trace w' = w_trace w.
Proof.
  unfold await_readN.
  destruct (readN n (w_stream w) (w_script w)) as [[o s'] rest] eqn:E.
  intro H. injection H as -> <-. cbn [w_stream w_script w_client w_trace].
  destruct (readN_conserves _ _ _ _ _ _ E) as [H1 H2]. now repeat split.
Qed.

Lemma await_readN_unchanged (n : Z) (w : World) :
  w_client (snd (await_readN n w)) = w_client w
  /\ w_trace (snd (await_readN n w)) = w_trace w.
Proof.
  unfold await_readN.
  destruct (readN n (w_stream w) (w_script w)) as [[o s'] rest].
  split; reflexivity.
Qed.

Lemma lift_world {A : Type} (r : result A) (w : World) :
  snd (lift r w) = w.
Proof. now destruct r. Qed.

Lemma next_metrics_unchanged (w : World) :
  w_client (snd (next_metrics w)) = w_client w
  /\ w_trace (snd (next_metrics w)) = w_trace w.
Proof.
  unfold next_metrics, await.
  destruct (await_readN_unchanged HEADER_SIZE w) as [Hc Ht].
  destruct (await_readN HEADER_SIZE w) as [[buf|e|] w1]; cbn [snd] in *;
    try (split; assumption).
  destruct (deserializeHeader buf) as [h|e]; cbn [lift ret throw snd];
    try (split; assumption).
  destruct (await_readN_unchanged (Header.length h) w1) as [Hc' Ht'].
  destruct (await_readN (Header.length h) w1) as [[buf'|e|] w2];
    cbn [snd] in *; try (split; congruence).
  rewrite lift_world. split; congruence.
Qed.

Lemma first_metrics_unchanged (header : Header.t) (w : World) :
  w_client (snd (first_metrics header w)) = w_client w
  /\ w_trace (snd (first_metrics header w)) = w_trace w.
Proof.
  unfold first_metrics, await.
  destruct (await_readN_unchanged (Header.length header) w) as [Hc Ht].
  destruct (await_readN (Header.length header) w) as [[buf|e|] w1];
    cbn [snd] in *; try (split; assumption).
  rewrite lift_world. split; assumption.
Qed.

(** A turn of the loop that completes has taken twelve bytes or more. *)
Lemma next_metrics_consumes (w w' : World) (m : Metrics.t) :
  next_metrics w = (Resolved m, w') ->
  (12 + pending_bytes (w_stream w') (w_script w')
   <= pending_bytes (w_stream w) (w_script w))%nat.
Proof.
  unfold next_metrics. unfold await at 1.
  destruct (await_readN HEADER_SIZE w) as [[buf|e|] w1] eqn:E1;
    [|discriminate|discriminate].
  apply await_readN_conserves in E1. destruct E1 as (L1 & C1 & _).
  unfold await at 1.
  destruct (deserializeHeader buf) as [h|e]; cbn [lift ret throw];
    [|discriminate].
  unfold await.
  destruct (await_readN (Header.length h) w1) as [[buf'|e|] w2] eqn:E2;
    [|discriminate|discriminate].
  apply await_readN_conserves in E2. destruct E2 as (_ & C2 & _).
  destruct (deserializeMetrics buf') as [m'|e]; cbn [lift ret throw];
    [|discriminate].
  intro H. injection H as _ <-.
  unfold buf_length, HEADER_SIZE in L1. lia.
Qed.

(** The bound of [handleMetrics] on its loop is never reached: more fuel
    changes nothing. *)
Lemma metrics_loop_fuel (fuel : nat) :
  forall (emitted : list Metrics.t) (w : World) (more : nat),
    (pending_bytes (w_stream w) (w_script w) < fuel)%nat ->
    metrics_loop (fuel + more) emitted w = metrics_loop fuel emitted w.
Proof.
  induction fuel as [|fuel IH]; intros emitted w more Hlt; [lia|].
  cbn [Nat.add metrics_loop].
  destruct (next_metrics w) as [[m|e|] w'] eqn:E; try reflexivity.
  apply IH. apply next_metrics_consumes in E. lia.
Qed.

Lemma metrics_loop_outcome (fuel : nat) :
  forall (emitted : list Metrics.t) (w : World),
    let r := metrics_loop fuel emitted w in
    (forall a, fst (fst r) <> Resolved a)
    /\ w_client (snd r) = w_client w /\ w_trace (snd r) = w_trace w.
Proof.
  induction fuel as [|fuel IH]; intros emitted w; cbv zeta.
  - cbn. repeat split. discriminate.
  - cbn [metrics_loop].
    destruct (next_metrics_unchanged w) as [Hc Ht].
    destruct (next_metrics w) as [[m|e|] w']; cbn [fst snd] in *.
    + destruct (IH (emitted ++ [m]) w') as (H1 & H2 & H3).
      repeat split; [exact H1 | congruence | congruence].
    + repeat split; [discriminate | assumption | assumption].
    + repeat split; [discriminate | assumption | assumption].
Qed.

(** X26.  [handleMetrics] never rejects and never touches the client
    object: whatever goes wrong (a stream that ends or fails, a header the
    decoder refuses, a payload shorter than a record) is swallowed by its
    [catch].  While it is pending it has not closed the stream; once it has
    resolved it has closed the stream, and done nothing else to it.  The
    bound on its loop is never reached. *)
Theorem handleMetrics_never_rejects (header : Header.t) (w : World) :
  let r := handleMetrics header w in
  (forall e, fst (fst r) <> Rejected e)
  /\ w_client (snd r) = w_client w
  /\ (fst (fst r) = Pending -> w_trace (snd r) = w_trace w)
  /\ (fst (fst r) = Resolved tt -> w_trace (snd r) = w_trace w ++ [StreamClose])
  /\ (forall (fuel more : nat) (emitted : list Metrics.t) (w0 : World),
        (pending_bytes (w_stream w0) (w_script w0) < fuel)%nat ->
        metrics_loop (fuel + more) emitted w0 = metrics_loop fuel emitted w0).
Proof.
  cbv zeta. split; [|split; [|split; [|split]]].
  5: { intros fuel more emitted w0. apply metrics_loop_fuel. }
  all: unfold handleMetrics;
    destruct (first_metrics_unchanged header w) as [Hc Ht];
    destruct (first_metrics header w) as [[m|e|] w1]; cbn [snd] in Hc, Ht.
  all: try (pose proof (metrics_loop_outcome
                          (S (pending_bytes (w_stream w1) (w_script w1)))
                          [m] w1) as Hl;
            cbv zeta in Hl;
            destruct (metrics_loop _ [m] w1) as [[o em] w2];
            cbn [fst snd] in Hl; destruct Hl as (Hr & Hc2 & Ht2);
            destruct o as [a|e|]).
  all: try (destruct (closed_or_eof e)).
  all: cbn [fst snd perform w_client w_trace];
    try discriminate; try congruence;
    try (intros _; congruence); try (intros ? ?; discriminate).
Qed.


Lemma handleMetrics_never_rejects_witness :
  metrics_loop (1 + 5) [] (alpha_world [])
  = metrics_loop 1 [] (alpha_world []).
Proof.
  destruct (handleMetrics_never_rejects (Header.new MessageType.Metrics 36)
              (alpha_world [])) as (_ & _ & _ & _ & H).
  apply H. cbn. lia.
Defined.

Lemma deserializeMetrics_long_enough (payload : Buffer) :
  METRICS_SIZE <= buf_length payload ->
  deserializeMetrics payload = Ok (metrics_of payload).
Proof.
  intro H. unfold deserializeMetrics.
  destruct (Z.ltb_spec (buf_length payload) METRICS_SIZE); [lia|].
  reflexivity.
Qed.

Lemma firstn_exact {A : Type} (l rest : list A) :
  firstn (List.length l) (l ++ rest) = l.
Proof. rewrite firstn_app_enough, firstn_all by lia. reflexivity. Qed.

Lemma skipn_exact {A : Type} (l rest : list A) :
  skipn (List.length l) (l ++ rest) = rest.
Proof. now apply skipn_at. Qed.

(** The loop on a stream that holds whole frames and then ends. *)
Lemma metrics_loop_frames (frames : list (Header.t * Buffer)) :
  forall (fuel : nat) (emitted : list Metrics.t) (w : World)
    (tail : Buffer) (rest : list StreamEvent),
    Forall metrics_frame frames ->
    buf_length tail < HEADER_SIZE ->
    delivers_then (w_stream w) (w_script w)
      (List.concat (map frame_bytes frames) ++ tail) (Eof :: rest) ->
    (List.length frames < fuel)%nat ->
    exists w',
      metrics_loop fuel emitted w
      = (Rejected StreamEnded,
         emitted ++ map (fun frame => metrics_of (snd frame)) frames, w')
      /\ w_client w' = w_client w /\ w_trace w' = w_trace w
      /\ w_script w' = rest.
Proof.
  induction frames as [|[h p] frames IH];
    intros fuel emitted w tail rest Hall Htail Hd Hfuel.
  - destruct fuel as [|fuel]; [cbn in Hfuel; lia|].
    cbn [map List.concat app] in *. rewrite app_nil_r.
    destruct Hd as (Hopen & chunks & Hs & Hb).
    cbn [metrics_loop]. unfold next_metrics. unfold await at 1.
    unfold await_readN. rewrite Hs.
    rewrite readN_eof by (assumption || reflexivity || now rewrite Hb).
    eexists. split; [reflexivity|]. repeat split.
  - destruct fuel as [|fuel]; [cbn in Hfuel; lia|].
    inversion Hall as [|x l Hf Hrest]. subst x l.
    destruct Hf as (Hv & Hw & Hlen & Hsize). cbn [fst snd] in *.
    cbn [map List.concat] in Hd. unfold frame_bytes at 1 in Hd.
    cbn [fst snd] in Hd. rewrite <- !app_assoc in Hd.
    destruct (await_readN_then HEADER_SIZE w _ _ Hd)
      as (w1 & Hr1 & Hc1 & Ht1 & Hd1).
    { rewrite buf_length_app, header_layout_length.
      pose proof (buf_length_nonneg
                    (p ++ List.concat (map frame_bytes frames) ++ tail)).
      unfold HEADER_SIZE. lia. }
    change (Z.to_nat HEADER_SIZE) with 12%nat in Hr1, Hd1.
    rewrite firstn_header_layout in Hr1.
    rewrite skipn_header_layout in Hd1.
    destruct (await_readN_then (Header.length h) w1 _ _ Hd1)
      as (w2 & Hr2 & Hc2 & Ht2 & Hd2).
    { rewrite Hlen, buf_length_app.
      pose proof (buf_length_nonneg
                    (List.concat (map frame_bytes frames) ++ tail)).
      unfold METRICS_SIZE in Hsize. lia. }
    assert (Hn : Z.to_nat (Header.length h) = List.length p)
      by (rewrite Hlen; unfold buf_length; lia).
    rewrite Hn in Hr2, Hd2.
    rewrite firstn_exact in Hr2. rewrite skipn_exact in Hd2.
    destruct (IH fuel (emitted ++ [metrics_of p]) w2 tail rest Hrest Htail Hd2)
      as (w' & Hloop & Hc' & Ht' & Hs'); [cbn in Hfuel; lia|].
    exists w'. split.
    + cbn [metrics_loop]. unfold next_metrics. unfold await at 1.
      rewrite Hr1. unfold await at 1.
      rewrite deserializeHeader_layout, Hv by assumption.
      cbn [bind lift ret]. unfold await. rewrite Hr2.
      rewrite deserializeMetrics_long_enough by assumption.
      cbn [lift ret]. rewrite Hloop. cbn [map]. now rewrite <- app_assoc.
    + repeat split; congruence.
Qed.

(** X27.  A metrics stream that carries the first payload, then whole
    frames, then ends, possibly inside the next header: [handleMetrics]
    emits one record per payload, in order, each decoded from the first
    thirty-six bytes of its payload, then resolves and closes the stream.
    The headers of the frames are taken as they come: their type is not
    looked at, only their length. *)
Theorem handleMetrics_emits_each_frame (header : Header.t) (w : World)
  (payload tail : Buffer) (frames : list (Header.t * Buffer))
  (rest : list StreamEvent) :
  Header.length header = buf_length payload ->
  METRICS_SIZE <= buf_length payload ->
  Forall metrics_frame frames ->
  buf_length tail < HEADER_SIZE ->
  delivers_then (w_stream w) (w_script w)
    (payload ++ List.concat (map frame_bytes frames) ++ tail) (Eof :: rest) ->
  exists w',
    handleMetrics header w
    = (Resolved tt,
       metrics_of payload
       :: map (fun frame => metrics_of (snd frame)) frames, w')
    /\ w_client w' = w_client w
    /\ w_trace w' = w_trace w ++ [StreamClose]
    /\ w_script w' = rest.
Proof.
  intros Hlen Hsize Hall Htail Hd.
  destruct (await_readN_then (Header.length header) w _ _ Hd)
    as (w1 & Hr1 & Hc1 & Ht1 & Hd1).
  { rewrite Hlen, buf_length_app.
    pose proof (buf_length_nonneg
                  (List.concat (map frame_bytes frames) ++ tail)).
    unfold METRICS_SIZE in Hsize. lia. }
  assert (Hn : Z.to_nat (Header.length header) = List.length payload)
    by (rewrite Hlen; unfold buf_length; lia).
  rewrite Hn in Hr1, Hd1.
  rewrite firstn_exact in Hr1. rewrite skipn_exact in Hd1.
  set (fuel := S (pending_bytes (w_stream w1) (w_script w1))).
  destruct (metrics_loop_frames frames (fuel + S (List.length frames))
              [metrics_of payload] w1 tail rest Hall Htail Hd1)
    as (w' & Hloop & Hc' & Ht' & Hs'); [lia|].
  rewrite metrics_loop_fuel in Hloop by (unfold fuel; lia).
  unfold handleMetrics, first_metrics. unfold await at 1.
  rewrite Hr1.
  rewrite deserializeMetrics_long_enough by assumption.
  cbn [lift ret]. fold fuel. rewrite Hloop.
  change (closed_or_eof StreamEnded) with false. cbv iota.
  eexists. split; [reflexivity|].
  cbn [perform snd w_client w_trace w_script].
  repeat split; congruence.
Qed.

Lemma handleMetrics_emits_each_frame_witness :
  let payload := map to_byte (repeat 0 35 ++ [7]) in
  let frame := (Header.make VERSION MessageType.End 0 36 0, payload) in
  exists w',
    handleMetrics (Header.make VERSION MessageType.Metrics 0 36 0)
      {| w_client := alpha_client; w_stream := fresh_stream;
         w_script := [Push (payload ++ frame_bytes frame); Eof];
         w_session := SessionStays; w_expiry := fun _ => [];
         w_trace := [] |}
    = (Resolved tt, [Metrics.make 0 0 0 0 7; Metrics.make 0 0 0 0 7], w')
    /\ w_trace w' = [StreamClose].
Proof.
  intros payload frame.
  destruct (handleMetrics_emits_each_frame
              (Header.make VERSION MessageType.Metrics 0 36 0)
              {| w_client := alpha_client; w_stream := fresh_stream;
                 w_script := [Push (payload ++ frame_bytes frame); Eof];
                 w_session := SessionStays; w_expiry := fun _ => [];
                 w_trace := [] |}
              payload [] [frame] [])
    as (w' & Hrun & _ & Ht & _).
  - reflexivity.
  - vm_compute. discriminate.
  - constructor; [|constructor].
    split; [reflexivity|].
    split; [vm_compute; intuition discriminate|].
    split; [reflexivity | vm_compute; discriminate].
  - reflexivity.
  - split; [split; reflexivity|].
    exists [payload ++ frame_bytes frame]. split; [reflexivity|].
    cbn [fresh_stream rd_buffer List.concat map app].
    now rewrite !app_nil_r.
  - exists w'. split; [exact Hrun | exact Ht].
Defined.

(** ** Flags, one at a time *)

Lemma land_lor_absorb (a b : Z) : Z.land (Z.lor a b) b = b.
Proof.
  apply Z.bits_inj'. intros i Hi.
  rewrite Z.land_spec, Z.lor_spec.
  destruct (Z.testbit a i), (Z.testbit b i); reflexivity.
Qed.

Lemma land_lnot_cancel (a b : Z) : Z.land (Z.land a (Z.lnot b)) b = 0.
Proof.
  apply Z.bits_inj'. intros i Hi.
  rewrite !Z.land_spec, Z.lnot_spec, Z.bits_0 by assumption.
  destruct (Z.testbit a i), (Z.testbit b i); reflexivity.
Qed.

Lemma land_lor_disjoint (a b c : Z) :
  Z.land b c = 0 -> Z.land (Z.lor a b) c = Z.land a c.
Proof.
  intro H. apply Z.bits_inj'. intros i Hi.
  assert (Hb : Z.testbit (Z.land b c) i = false) by (rewrite H; apply Z.bits_0).
  rewrite Z.land_spec in Hb. rewrite !Z.land_spec, Z.lor_spec.
  destruct (Z.testbit a i), (Z.testbit b i), (Z.testbit c i);
    (reflexivity || discriminate).
Qed.

Lemma land_lnot_disjoint (a b c : Z) :
  Z.land b c = 0 -> Z.land (Z.land a (Z.lnot b)) c = Z.land a c.
Proof.
  intro H. apply Z.bits_inj'. intros i Hi.
  assert (Hb : Z.testbit (Z.land b c) i = false) by (rewrite H; apply Z.bits_0).
  rewrite Z.land_spec in Hb. rewrite !Z.land_spec, Z.lnot_spec by assumption.
  destruct (Z.testbit a i), (Z.testbit b i), (Z.testbit c i);
    (reflexivity || discriminate).
Qed.

(** X28.  The flags of a header, one flag at a time, for any numbers as
    flags: after [clearFlag(f)], [hasFlag(f)] is false; after [setFlag(f)],
    [hasFlag(f)] is true unless [f] has none of the 32 low bits; and setting
    or clearing [f] leaves [hasFlag(g)] as it was for a flag [g] that shares
    no bit with [f].  Neither method touches the other fields. *)
Theorem flags_one_at_a_time (h : Header.t) (f : Z) :
  Header.hasFlag (Header.clearFlag h f) f = false
  /\ Header.hasFlag (Header.setFlag h f) f = negb (ToInt32 f =? 0)
  /\ (forall g : Z,
        js_and f g = 0 ->
        Header.hasFlag (Header.setFlag h f) g = Header.hasFlag h g
        /\ Header.hasFlag (Header.clearFlag h f) g = Header.hasFlag h g)
  /\ (forall h' : Header.t,
        h' = Header.setFlag h f \/ h' = Header.clearFlag h f ->
        Header.version h' = Header.version h
        /\ Header.type h' = Header.type h
        /\ Header.length h' = Header.length h
        /\ Header.reserved h' = Header.reserved h).
Proof.
  pose proof (ToInt32_range (Header.flags h)) as Ha.
  pose proof (ToInt32_range f) as Hb.
  assert (Hset : forall g,
             js_and (js_or (Header.flags h) f) g
             = Z.land (Z.lor (ToInt32 (Header.flags h)) (ToInt32 f))
                 (ToInt32 g)).
  { intro g. unfold js_and, js_or.
    now rewrite (ToInt32_small (Z.lor _ _)) by now apply int32_lor. }
  assert (Hclear : forall g,
             js_and (js_and (Header.flags h) (js_not f)) g
             = Z.land (Z.land (ToInt32 (Header.flags h))
                         (Z.lnot (ToInt32 f)))
                 (ToInt32 g)).
  { intro g. unfold js_and, js_not.
    rewrite (ToInt32_small (Z.lnot _)) by now apply int32_lnot.
    now rewrite (ToInt32_small (Z.land _ _))
      by (apply int32_land; [assumption | now apply int32_lnot]). }
  unfold Header.hasFlag, Header.setFlag, Header.clearFlag, Header.with_flags.
  cbn [Header.flags Header.version Header.type Header.length Header.reserved].
  split; [|split; [|split]].
  - now rewrite Hclear, land_lnot_cancel.
  - now rewrite Hset, land_lor_absorb.
  - intros g Hg. unfold js_and in Hg.
    rewrite Hset, Hclear.
    rewrite land_lor_disjoint, land_lnot_disjoint by assumption.
    split; reflexivity.
  - intros h' [-> | ->]; repeat split.
Qed.

Lemma flags_one_at_a_time_witness :
  let h := Header.setFlag (Header.new MessageType.Ack 0) 4 in
  Header.hasFlag (Header.setFlag h FLAG_METRICS) 4 = true
  /\ Header.hasFlag (Header.clearFlag h FLAG_METRICS) 4 = true.
Proof.
  intro h.
  destruct (flags_one_at_a_time h FLAG_METRICS) as (_ & _ & H & _).
  destruct (H 4) as [H1 H2]; [reflexivity|].
  rewrite H1, H2. split; reflexivity.
Defined.

(** ** A client as the command line builds it *)

(** X29.  A client that the constructor has built with protocol HTTP or
    TCP, as the two commands of the command line do, has a name that is not
    empty, so its registration request is valid unless the name takes more
    than 4096 bytes in UTF-8: [sendRequest] cannot fail with "invalid
    protocol", "string field cannot be empty" or "invalid length field". *)
Theorem new_Client_then_request (options : ClientOptions) (c : Client.t) :
  new_Client options = Ok c ->
  o_proto options = ProtoType.HTTP \/ o_proto options = ProtoType.TCP ->
  Client.name c <> []
  /\ validateRequest (Request.new (Client.proto c) (Client.name c))
     = if byteLength (Client.name c) >? MAX_STRING_LENGTH
       then Err StringTooLong else Ok tt.
Proof.
  intros Hc Hp. revert Hc. unfold new_Client.
  destruct (is_nil (o_addr options)); [discriminate|].
  destruct (is_nil (o_targetAddr options)); [discriminate|].
  destruct (is_nil (o_name options)) eqn:En; [discriminate|].
  destruct (o_proto options =? 0); [discriminate|].
  intro H. apply Ok_inj in H. subst c.
  cbn [Client.proto Client.name].
  split; [intro E; rewrite E in En; discriminate|].
  rewrite validateRequest_new, En.
  destruct Hp as [-> | ->]; reflexivity.
Qed.

Lemma new_Client_then_request_witness :
  validateRequest (Request.new ProtoType.TCP (js "alpha")) = Ok tt.
Proof.
  apply (new_Client_then_request
           {| o_addr := js "wormhole.dyastin.dev:443";
              o_targetAddr := js ":3000"; o_withTLS := Some false;
              o_proto := ProtoType.TCP; o_name := js "alpha";
              o_metrics := None |}
           (Client.make (js "wormhole.dyastin.dev:443") (js ":3000") false
              ProtoType.TCP (js "alpha") [] false false)).
  - reflexivity.
  - now right.
Defined.
